(** * estate-706-sorter: classification, validation, output paths, pipeline,
    review views, overrides, text extraction, export and reports, embedded
    from the TypeScript sources.

    Conventions of the embedding.
    - A JavaScript string is a [string]; its characters are the code units
      below 256 (Latin-1), the range on which the functions modelled here
      are defined without Unicode tables.
    - A JavaScript number is a [number]: a finite integer, an infinity or
      NaN.  Finite arithmetic is exact, which is what double arithmetic is
      on integers below 2^53; rounding is not modelled.
    - A plain object used as a dictionary is a [JsObject]: its own
      properties in insertion order, enumerated in the order of
      OrdinaryOwnPropertyKeys (array indices first, ascending).
    - Code that can raise returns a [Completion].
    - A compiled pattern is the predicate computed by its [test] method; the
      regular-expression engine itself is a parameter.
    - Content digests are hexadecimal strings, so that a plain object or a
      [Map] keyed by digests behaves as a finite map. *)

From Stdlib Require Import ZArith List Ascii String Bool Lia Sorted.
From stdpp Require Import base decidable option list gmap strings pretty.

Local Open Scope Z_scope.

(** ** Completions: a normal value or a thrown error *)

Inductive JsError :=
| TypeError (message : string)
| Error (message : string).

(** [String(error)] *)
Definition error_to_string (e : JsError) : string :=
  match e with
  | TypeError m => "TypeError: " +:+ m
  | Error m => "Error: " +:+ m
  end.

Inductive Completion (A : Type) :=
| Normal (value : A)
| Throw (error : JsError).
Arguments Normal {A} value.
Arguments Throw {A} error.

Definition cbind {A B} (c : Completion A) (k : A -> Completion B) : Completion B :=
  match c with
  | Normal a => k a
  | Throw e => Throw e
  end.

#[global] Instance Completion_ret : MRet Completion := fun A a => Normal a.
#[global] Instance Completion_bind : MBind Completion := fun A B k c => cbind c k.

(** ** Strings as lists of code units *)

(** The double-quote character, as a string, and [s] between quotes. *)
Definition dquote : string := String (ascii_of_N 34) EmptyString.
Definition quoted (s : string) : string := dquote +:+ s +:+ dquote.

Definition chars (s : string) : list ascii := list_ascii_of_string s.
Definition str (l : list ascii) : string := string_of_list_ascii l.

Definition code (c : ascii) : N := N_of_ascii c.

Definition in_range (lo hi : N) (c : ascii) : bool :=
  ((lo <=? code c) && (code c <=? hi))%N.

(** [String.prototype.toLowerCase] on one Latin-1 code unit. *)
Definition toLowerCase_char (c : ascii) : ascii :=
  if in_range 65 90 c then ascii_of_N (code c + 32)
  else if in_range 192 222 c && negb (code c =? 215)%N then ascii_of_N (code c + 32)
  else c.

Definition toLowerCase (l : list ascii) : list ascii := map toLowerCase_char l.

(** The character class [a-z0-9]. *)
Definition is_alnum (c : ascii) : bool := in_range 97 122 c || in_range 48 57 c.

(** The class [\s] (and the characters removed by [trim]) below 256. *)
Definition is_space (c : ascii) : bool :=
  in_range 9 13 c || (code c =? 32)%N || (code c =? 160)%N.

(** [s.replace(/C+/g, ' ')]: every maximal run of characters of the class
    [C] becomes one space.  [in_run] tells that the previous character was
    in the class. *)
Fixpoint replace_runs (C : ascii -> bool) (in_run : bool) (l : list ascii) : list ascii :=
  match l with
  | [] => []
  | c :: r =>
      if C c then (if in_run then replace_runs C true r else " "%char :: replace_runs C true r)
      else c :: replace_runs C false r
  end.

Fixpoint trimStart (l : list ascii) : list ascii :=
  match l with
  | [] => []
  | c :: r => if is_space c then trimStart r else l
  end.

Definition trim (l : list ascii) : list ascii := rev (trimStart (rev (trimStart l))).

(** normalize.ts: [normalizeText]. *)
Definition normalizeText (value : string) : string :=
  str (trim
         (replace_runs is_space false
            (replace_runs (fun c => negb (is_alnum c)) false
               (toLowerCase (chars value))))).

Fixpoint startsWith (l p : list ascii) : bool :=
  match p, l with
  | [], _ => true
  | _ :: _, [] => false
  | a :: p', b :: l' => if ascii_dec a b then startsWith l' p' else false
  end.

(** Offset of the first occurrence of [needle] in [hay]. *)
Fixpoint find_at (hay needle : list ascii) : option nat :=
  if startsWith hay needle then Some 0%nat
  else match hay with
       | [] => None
       | _ :: r => S <$> find_at r needle
       end.

(** [hay.indexOf(needle, from)]; [None] stands for -1. *)
Definition indexOf (hay needle : list ascii) (from : nat) : option nat :=
  let from := Nat.min from (length hay) in
  (fun i => (from + i)%nat) <$> find_at (drop from hay) needle.

(** The [while (index !== -1)] loop of [countTermOccurrences].  Each turn
    moves [index] forward by the length of the (non-empty) term, so
    [length text + 1] turns are enough; see [occurrence_loop_fuel]. *)
Fixpoint occurrence_loop (fuel : nat) (text term : list ascii)
    (index : option nat) (count : nat) : nat :=
  match index, fuel with
  | None, _ => count
  | Some _, O => count
  | Some i, S fuel' =>
      occurrence_loop fuel' text term
        (indexOf text term (i + length term)) (count + 1)
  end.

(** normalize.ts: [countTermOccurrences]. *)
Definition countTermOccurrences (text term : string) : nat :=
  if decide (text = EmptyString \/ term = EmptyString) then 0%nat
  else
    let normalizedText := chars (normalizeText text) in
    let normalizedTerm := chars (normalizeText term) in
    match normalizedTerm with
    | [] => 0%nat
    | _ :: _ =>
        occurrence_loop (S (length normalizedText)) normalizedText normalizedTerm
          (indexOf normalizedText normalizedTerm 0) 0
    end.

(** ** Numbers

    The numbers of the model are the integers, the two infinities and NaN;
    a fraction has no value here.  Addition and multiplication are exact
    on the integers.  The source computes with double-precision numbers,
    whose operations give the exact result as long as the operands and the
    result are integers of magnitude at most 2^53.  The statements that
    depend on the value of a sum or of a difference are made for weights
    within that range ([exact_weights] below); the others hold of every
    value of the comparisons that they mention. *)

Inductive number :=
| NaN
| Infinity (negative : bool)
| Fin (z : Z).

#[global] Instance number_eq_dec : EqDecision number.
Proof. solve_decision. Defined.

Definition num_neg (a : number) : number :=
  match a with
  | NaN => NaN
  | Infinity s => Infinity (negb s)
  | Fin z => Fin (- z)
  end.

Definition num_add (a b : number) : number :=
  match a, b with
  | NaN, _ | _, NaN => NaN
  | Infinity s, Infinity s' => if eqb s s' then Infinity s else NaN
  | Infinity s, Fin _ | Fin _, Infinity s => Infinity s
  | Fin x, Fin y => Fin (x + y)
  end.

Definition num_sub (a b : number) : number := num_add a (num_neg b).

Definition num_mul (a b : number) : number :=
  match a, b with
  | NaN, _ | _, NaN => NaN
  | Infinity s, Infinity s' => Infinity (xorb s s')
  | Infinity s, Fin z | Fin z, Infinity s =>
      if (z =? 0) then NaN else Infinity (xorb s (z <? 0))
  | Fin x, Fin y => Fin (x * y)
  end.

(** [a < b]; false as soon as one side is NaN. *)
Definition num_ltb (a b : number) : bool :=
  match a, b with
  | NaN, _ | _, NaN => false
  | Infinity true, Infinity true => false
  | Infinity true, _ => true
  | _, Infinity true => false
  | Infinity false, _ => false
  | Fin _, Infinity false => true
  | Fin x, Fin y => x <? y
  end.

Definition num_of_nat (n : nat) : number := Fin (Z.of_nat n).

(** [String(n)] and template interpolation of a number. *)
Definition num_to_string (a : number) : string :=
  match a with
  | NaN => "NaN"
  | Infinity false => "Infinity"
  | Infinity true => "-Infinity"
  | Fin z => pretty z
  end.

Definition is_finite (a : number) : Prop :=
  match a with Fin _ => True | _ => False end.

(** ** Plain objects used as dictionaries *)

Abbreviation JsObject V := (list (string * V)).

Definition digit_value (c : ascii) : option N :=
  if in_range 48 57 c then Some (code c - 48)%N else None.

Fixpoint parse_digits (acc : N) (l : list ascii) : option N :=
  match l with
  | [] => Some acc
  | c :: r =>
      match digit_value c with
      | Some d => parse_digits (10 * acc + d) r
      | None => None
      end
  end.

(** A property key is an array index when it is the canonical decimal
    form of an integer between 0 and 2^32 - 2. *)
Definition array_index (k : string) : option N :=
  match chars k with
  | [] => None
  | c :: r =>
      if (code c =? 48)%N && negb (Nat.eqb (length r) 0) then None
      else match parse_digits 0 (c :: r) with
           | Some n => if (n <=? 4294967294)%N then Some n else None
           | None => None
           end
  end.

Definition obj_has {V} (o : JsObject V) (k : string) : bool :=
  existsb (fun p => String.eqb (fst p) k) o.

Fixpoint obj_get {V} (o : JsObject V) (k : string) : option V :=
  match o with
  | [] => None
  | p :: r => if String.eqb (fst p) k then Some (snd p) else obj_get r k
  end.

(** [Object.keys] up to order: the own keys in insertion order. *)
Definition keys {V} (o : JsObject V) : list string := map fst o.

(** [o[k] = v] on an object created by a literal.  Writing a number to
    the key [__proto__] goes to the accessor inherited from
    [Object.prototype], which ignores it: no own property is created. *)
Definition obj_set {V} (o : JsObject V) (k : string) (v : V) : JsObject V :=
  if String.eqb k "__proto__" then o
  else if obj_has o k
       then map (fun p => if String.eqb (fst p) k then (k, v) else p) o
       else o ++ [(k, v)].

Fixpoint insert_index {V} (n : N) (e : string * V) (l : list (N * (string * V)))
  : list (N * (string * V)) :=
  match l with
  | [] => [(n, e)]
  | (m, e') :: r => if (n <? m)%N then (n, e) :: l else (m, e') :: insert_index n e r
  end.

Fixpoint index_entries {V} (o : JsObject V) : list (N * (string * V)) :=
  match o with
  | [] => []
  | e :: r =>
      match array_index (fst e) with
      | Some n => insert_index n e (index_entries r)
      | None => index_entries r
      end
  end.

(** [Object.entries(o)]: array-index keys in ascending numeric order, then
    the other keys in insertion order. *)
Definition obj_entries {V} (o : JsObject V) : list (string * V) :=
  map snd (index_entries o)
  ++ filter (fun e => array_index (fst e) = None) o.

(** ** [Array.prototype.sort] with a comparator

    The sort is stable.  [cmp a b] is the number returned by the comparator;
    only its sign is used, and NaN counts as 0.  The model inserts each
    element, from the last to the first, before the elements that it does
    not follow.  This is the order of the engine for a comparator that is a
    consistent ordering.  For one that is not (a comparator that answers NaN
    for some pair and a sign for others) the standard leaves the order to
    the implementation; the statements below that depend on the order of a
    sort are about consistent comparators: the difference of finite scores
    in [classifyDocument], and [localeCompare] in [buildDuplicatesGroups]. *)
Inductive Sign := Negative | Zero | Positive.

Definition num_sign (a : number) : Sign :=
  if num_ltb a (Fin 0) then Negative
  else if num_ltb (Fin 0) a then Positive
  else Zero.

Section Sort.
Context {A : Type} (cmp : A -> A -> number).

Fixpoint sort_insert (x : A) (l : list A) : list A :=
  match l with
  | [] => [x]
  | y :: r =>
      match num_sign (cmp x y) with
      | Positive => y :: sort_insert x r
      | _ => x :: l
      end
  end.

Definition array_sort (l : list A) : list A := foldr sort_insert [] l.
End Sort.

(** ** schedules.ts: the configuration data *)

Record WeightedTerm := {
  wt_term : string;
  wt_weight : number;
}.

(** [ScheduleId] is a string: the configuration is data, and validation
    accepts any non-empty identifier. *)
Record ScheduleDefinition := {
  sd_id : string;
  sd_label : string;
  sd_keywords : list WeightedTerm;
  sd_smallTerms : list WeightedTerm;
}.

(** A compiled rule.  [fr_pattern] is [pattern.test]: the patterns are
    compiled with the flag [i] only, so [test] keeps no state. *)
Record FilenameRule := {
  fr_pattern : string -> bool;
  fr_schedule : string;
}.

Record CompiledScheduleConfig := {
  cc_schedules : list ScheduleDefinition;
  cc_filenameRules : list FilenameRule;
}.

(** ** classify.ts *)

Definition SCORE_FLOOR : number := Fin 18.
Definition LOW_CONFIDENCE_MARGIN : number := Fin 6.

Inductive ClassificationDecision := assigned | review.

#[global] Instance ClassificationDecision_eq_dec : EqDecision ClassificationDecision.
Proof. solve_decision. Defined.

Record ClassificationResult := {
  cr_decision : ClassificationDecision;
  cr_schedule : option string;
  cr_candidate : option string;
  cr_reason : string;
  cr_score : number;
  cr_scores : JsObject number;
}.

Record PdfScanMetrics := {
  pm_chars : number;
  pm_textItems : number;
  pm_pagesSampled : number;
}.

Record ScannedDetectionThresholds := {
  minChars : number;
  minTextItems : number;
}.

Record ClassifyOptions := {
  filename : string;
  text : string;
  isPdf : bool;
  config : CompiledScheduleConfig;
  pdfMetrics : option PdfScanMetrics;
  scannedThresholds : ScannedDetectionThresholds;
}.

Fixpoint applyFilenameRules_loop (filename : string) (rules : list FilenameRule)
  : option string :=
  match rules with
  | [] => None
  | rule :: rest =>
      if fr_pattern rule filename then Some (fr_schedule rule)
      else applyFilenameRules_loop filename rest
  end.

Definition applyFilenameRules (filename : string) (config : CompiledScheduleConfig)
  : option string :=
  applyFilenameRules_loop filename (cc_filenameRules config).

(** The tests [if (filenameMatch)] and [if (overrideSchedule)]: [null],
    [undefined] and the empty string are falsy. *)
Definition truthy_match (m : option string) : option string :=
  match m with
  | Some s => if decide (s = EmptyString) then None else Some s
  | None => None
  end.

Definition score_terms (text : string) (terms : list WeightedTerm) (score : number)
  : number :=
  fold_left
    (fun score keyword =>
       num_add score
         (num_mul (num_of_nat (countTermOccurrences text (wt_term keyword)))
            (wt_weight keyword)))
    terms score.

Definition scoreSchedule (text : string) (schedule : ScheduleDefinition) : number :=
  let score := Fin 0 in
  let score := score_terms text (sd_keywords schedule) score in
  let score := score_terms text (sd_smallTerms schedule) score in
  score.

(** [for (const schedule of schedules) scores[schedule.id] = value(schedule)]. *)
Definition fill_scores (value : ScheduleDefinition -> number)
    (schedules : list ScheduleDefinition) (scores : JsObject number) : JsObject number :=
  fold_left (fun scores schedule => obj_set scores (sd_id schedule) (value schedule))
    schedules scores.

Definition scanned_reason (m : PdfScanMetrics) : string :=
  "likely_scanned_pdf: low_text_layer (chars=" +:+ num_to_string (pm_chars m)
  +:+ ", textItems=" +:+ num_to_string (pm_textItems m)
  +:+ ", sampled=" +:+ num_to_string (pm_pagesSampled m) +:+ ")".

(** The guarded block [if (isPdf && pdfMetrics && pagesSampled > 0) { ... }]:
    the metrics when the block returns, [None] when control falls through. *)
Definition scanned_check (options : ClassifyOptions) : option PdfScanMetrics :=
  if isPdf options then
    match pdfMetrics options with
    | Some m =>
        if num_ltb (Fin 0) (pm_pagesSampled m) then
          let lowChars := num_ltb (pm_chars m) (minChars (scannedThresholds options)) in
          let lowItems := num_ltb (pm_textItems m) (minTextItems (scannedThresholds options)) in
          if lowChars || lowItems then Some m else None
        else None
    | None => None
    end
  else None.

Definition by_score_desc (a b : string * number) : number := num_sub (snd b) (snd a).

Definition classifyDocument (options : ClassifyOptions) : Completion ClassificationResult :=
  let normalizedFilename := normalizeText (filename options) in
  let filenameMatch := applyFilenameRules normalizedFilename (config options) in
  let scores : JsObject number := [] in
  let schedules := cc_schedules (config options) in
  match truthy_match filenameMatch with
  | Some filenameMatch =>
      let scores :=
        fill_scores
          (fun schedule =>
             if decide (sd_id schedule = filenameMatch) then SCORE_FLOOR else Fin 0)
          schedules scores in
      Normal {| cr_decision := assigned;
                cr_schedule := Some filenameMatch;
                cr_candidate := None;
                cr_reason := "filename_rule";
                cr_score := SCORE_FLOOR;
                cr_scores := scores |}
  | None =>
  match scanned_check options with
  | Some m =>
      let scores := fill_scores (fun _ => Fin 0) schedules scores in
      Normal {| cr_decision := review;
                cr_schedule := None;
                cr_candidate := Some "Unknown";
                cr_reason := scanned_reason m;
                cr_score := Fin 0;
                cr_scores := scores |}
  | None =>
  match trim (chars (text options)) with
  | [] =>
      let scores := fill_scores (fun _ => Fin 0) schedules scores in
      Normal {| cr_decision := review;
                cr_schedule := None;
                cr_candidate := Some "Unknown";
                cr_reason := "no_text_or_filename_rule";
                cr_score := Fin 0;
                cr_scores := scores |}
  | _ :: _ =>
      let scores := fill_scores (scoreSchedule (text options)) schedules scores in
      let sorted := array_sort by_score_desc (obj_entries scores) in
      match sorted with
      | [] =>
          (* [const [bestScheduleId, bestScore] = sorted[0]] with
             [sorted[0]] undefined *)
          Throw (TypeError "undefined is not iterable")
      | (bestScheduleId, bestScore) :: rest =>
          let runnerUpScore :=
            match rest with
            | [] => Fin 0
            | second :: _ => snd second
            end in
          let margin := num_sub bestScore runnerUpScore in
          if num_ltb bestScore SCORE_FLOOR || num_ltb margin LOW_CONFIDENCE_MARGIN then
            Normal {| cr_decision := review;
                      cr_schedule := None;
                      cr_candidate := Some bestScheduleId;
                      cr_reason := "low_confidence";
                      cr_score := bestScore;
                      cr_scores := scores |}
          else
            Normal {| cr_decision := assigned;
                      cr_schedule := Some bestScheduleId;
                      cr_candidate := None;
                      cr_reason := "keyword_score";
                      cr_score := bestScore;
                      cr_scores := scores |}
      end
  end
  end
  end.

(** ** scheduleConfig.ts: validation of an untyped value

    [raw : unknown] is a value as [JSON.parse] builds them (both callers
    pass one), extended with [undefined]; reading a property that an
    object does not own gives [undefined]. *)

#[warnings="-register-all"]
Inductive JsVal :=
| VUndefined
| VNull
| VBool (b : bool)
| VNumber (n : number)
| VString (s : string)
| VArray (items : list JsVal)
| VObject (props : list (string * JsVal)).

Definition typeof (v : JsVal) : string :=
  match v with
  | VUndefined => "undefined"
  | VBool _ => "boolean"
  | VNumber _ => "number"
  | VString _ => "string"
  | VNull | VArray _ | VObject _ => "object"
  end.

Definition truthy (v : JsVal) : bool :=
  match v with
  | VUndefined | VNull => false
  | VBool b => b
  | VNumber (Fin z) => negb (z =? 0)
  | VNumber NaN => false
  | VNumber (Infinity _) => true
  | VString s => negb (String.eqb s EmptyString)
  | VArray _ | VObject _ => true
  end.

Definition nullish (v : JsVal) : bool :=
  match v with
  | VUndefined | VNull => true
  | _ => false
  end.

Definition own_prop (props : list (string * JsVal)) (name : string) : JsVal :=
  match find (fun p => String.eqb (fst p) name) props with
  | Some p => snd p
  | None => VUndefined
  end.

(** [v.name] for the property names read by the validator, none of which
    exists on a prototype. *)
Definition get_prop (v : JsVal) (name : string) : Completion JsVal :=
  match v with
  | VUndefined => Throw (TypeError "Cannot read properties of undefined")
  | VNull => Throw (TypeError "Cannot read properties of null")
  | VObject props => Normal (own_prop props name)
  | _ => Normal VUndefined
  end.

(** [get_prop] on a value known to be an array or an object. *)
Definition read (v : JsVal) (name : string) : JsVal :=
  match v with
  | VObject props => own_prop props name
  | _ => VUndefined
  end.

Definition isArray (v : JsVal) : bool :=
  match v with VArray _ => true | _ => false end.

Definition isNaN (v : JsVal) : bool :=
  match v with VNumber NaN => true | _ => false end.

(** Interpolation [`${v}`].  An object owning a (necessarily non-callable)
    [toString] has no primitive value. *)
Fixpoint to_string (v : JsVal) : Completion string :=
  match v with
  | VUndefined => Normal "undefined"
  | VNull => Normal "null"
  | VBool b => Normal (if b then "true" else "false")
  | VNumber n => Normal (num_to_string n)
  | VString s => Normal s
  | VArray items =>
      (fix join (l : list JsVal) : Completion string :=
         match l with
         | [] => Normal EmptyString
         | x :: r =>
             s ← (if nullish x then Normal EmptyString else to_string x);
             match r with
             | [] => Normal s
             | _ :: _ => t ← join r; Normal (s +:+ "," +:+ t)
             end
         end) items
  | VObject props =>
      if existsb (fun p => String.eqb (fst p) "toString") props
      then Throw (TypeError "Cannot convert object to primitive value")
      else Normal "[object Object]"
  end.

Record ValidationResult := {
  vr_config : option JsVal;
  vr_errors : list string;
}.

Section Validate.
(** [new RegExp(pattern, 'i')]: [None] when the pattern compiles,
    otherwise [String(error)] of the thrown [SyntaxError]. *)
Variable regexp_error : string -> option string.

(** [(value ?? []).entries()] *)
Definition entries_or_empty (v : JsVal) : Completion (list JsVal) :=
  match v with
  | VUndefined | VNull => Normal []
  | VArray items => Normal items
  | _ => Throw (TypeError "(intermediate value).entries is not a function")
  end.

(** The two loops over [schedule.keywords] and [schedule.smallTerms];
    [kind] is the word used in the message. *)
Fixpoint check_terms (kind : string) (schedule : JsVal) (termIndex : nat)
    (terms : list JsVal) (errors : list string) : Completion (list string) :=
  match terms with
  | [] => Normal errors
  | keyword :: rest =>
      term ← get_prop keyword "term";
      errors ←
        (if negb (String.eqb (typeof term) "string") then
           sid ← to_string (read schedule "id");
           Normal (errors ++ ["Schedule " +:+ quoted sid +:+ " " +:+ kind +:+ " "
                                +:+ pretty termIndex +:+ " term must be a string."])
         else Normal errors);
      weight ← get_prop keyword "weight";
      errors ←
        (if negb (String.eqb (typeof weight) "number") || isNaN weight then
           sid ← to_string (read schedule "id");
           Normal (errors ++ ["Schedule " +:+ quoted sid +:+ " " +:+ kind +:+ " "
                                +:+ pretty termIndex +:+ " weight must be a number."])
         else Normal errors);
      check_terms kind schedule (S termIndex) rest errors
  end.

Definition nonempty_string (v : JsVal) : bool :=
  String.eqb (typeof v) "string" && truthy v.

Definition check_schedule (index : nat) (schedule : JsVal) (errors : list string)
  : Completion (list string) :=
  if negb (truthy schedule) || negb (String.eqb (typeof schedule) "object") then
    Normal (errors ++ ["Schedule at index " +:+ pretty index +:+ " must be an object."])
  else
    let errors :=
      if negb (nonempty_string (read schedule "id")) then
        errors ++ ["Schedule at index " +:+ pretty index +:+ " is missing a valid id."]
      else errors in
    let errors :=
      if negb (nonempty_string (read schedule "label")) then
        errors ++ ["Schedule at index " +:+ pretty index +:+ " is missing a valid label."]
      else errors in
    errors ←
      (if negb (isArray (read schedule "keywords")) then
         sid ← to_string (read schedule "id");
         Normal (errors ++ ["Schedule " +:+ quoted sid +:+ " keywords must be an array."])
       else Normal errors);
    errors ←
      (if negb (isArray (read schedule "smallTerms")) then
         sid ← to_string (read schedule "id");
         Normal (errors ++ ["Schedule " +:+ quoted sid +:+ " smallTerms must be an array."])
       else Normal errors);
    keywords ← entries_or_empty (read schedule "keywords");
    errors ← check_terms "keyword" schedule 0 keywords errors;
    smallTerms ← entries_or_empty (read schedule "smallTerms");
    check_terms "smallTerm" schedule 0 smallTerms errors.

Fixpoint check_schedules (index : nat) (schedules : list JsVal) (errors : list string)
  : Completion (list string) :=
  match schedules with
  | [] => Normal errors
  | schedule :: rest =>
      errors ← check_schedule index schedule errors;
      check_schedules (S index) rest errors
  end.

Definition check_rule (index : nat) (rule : JsVal) (errors : list string) : list string :=
  if negb (truthy rule) || negb (String.eqb (typeof rule) "object") then
    errors ++ ["Filename rule at index " +:+ pretty index +:+ " must be an object."]
  else
    let errors :=
      match read rule "pattern" with
      | VString pattern =>
          if String.eqb pattern EmptyString then
            errors ++ ["Filename rule at index " +:+ pretty index
                         +:+ " pattern must be a string."]
          else
            match regexp_error pattern with
            | Some error =>
                errors ++ ["Filename rule " +:+ quoted pattern
                             +:+ " is not a valid regex: " +:+ error]
            | None => errors
            end
      | _ =>
          errors ++ ["Filename rule at index " +:+ pretty index
                       +:+ " pattern must be a string."]
      end in
    if negb (nonempty_string (read rule "schedule")) then
      errors ++ ["Filename rule at index " +:+ pretty index +:+ " schedule must be a string."]
    else errors.

Fixpoint check_rules (index : nat) (rules : list JsVal) (errors : list string)
  : list string :=
  match rules with
  | [] => errors
  | rule :: rest => check_rules (S index) rest (check_rule index rule errors)
  end.

Definition array_or_empty (v : JsVal) : list JsVal :=
  match v with VArray items => items | _ => [] end.

Definition validateScheduleConfig (raw : JsVal) : Completion ValidationResult :=
  let errors : list string := [] in
  if negb (truthy raw) || negb (String.eqb (typeof raw) "object") then
    Normal {| vr_config := None; vr_errors := ["Config must be an object."] |}
  else
    let candidate := raw in
    let errors :=
      if negb (isArray (read candidate "schedules")) then
        errors ++ ["Config.schedules must be an array."]
      else errors in
    let errors :=
      if negb (isArray (read candidate "filenameRules")) then
        errors ++ ["Config.filenameRules must be an array."]
      else errors in
    let schedules := array_or_empty (read candidate "schedules") in
    let filenameRules := array_or_empty (read candidate "filenameRules") in
    errors ← check_schedules 0 schedules errors;
    let errors := check_rules 0 filenameRules errors in
    Normal (if (0 <? length errors)%nat
            then {| vr_config := None; vr_errors := errors |}
            else {| vr_config := Some candidate; vr_errors := [] |}).
End Validate.

(** ** App.tsx: processed files and output paths

    The [File] handle of an entry, its size and its media type are carried
    along unchanged by the code and are left out. *)

Inductive FileDecision := Duplicate | Review | Assigned.

#[global] Instance FileDecision_eq_dec : EqDecision FileDecision.
Proof. solve_decision. Defined.

Definition file_decision (d : ClassificationDecision) : FileDecision :=
  match d with
  | assigned => Assigned
  | review => Review
  end.

Record PdfTextResult := {
  pt_text : string;
  pt_numPages : number;
  pt_pagesSampled : number;
  pt_chars : number;
  pt_textItems : number;
}.

(** A [PdfTextResult] passed where [PdfScanMetrics] is expected. *)
Definition scan_metrics (r : PdfTextResult) : PdfScanMetrics :=
  {| pm_chars := pt_chars r;
     pm_textItems := pt_textItems r;
     pm_pagesSampled := pt_pagesSampled r |}.

Record ProcessedFile := {
  pf_name : string;
  pf_relativePath : string;
  pf_hash : string;
  pf_hashPrefix : string;
  pf_decision : FileDecision;
  pf_schedule : option string;
  pf_candidate : option string;
  pf_reason : string;
  pf_score : number;
  pf_outputPath : string;
  pf_scores : JsObject number;
  pf_pdfMetrics : option PdfTextResult;
  pf_textSample : option string;
  pf_overrideApplied : option bool;
}.

Definition with_outputPath (file : ProcessedFile) (outputPath : string) : ProcessedFile :=
  {| pf_name := pf_name file;
     pf_relativePath := pf_relativePath file;
     pf_hash := pf_hash file;
     pf_hashPrefix := pf_hashPrefix file;
     pf_decision := pf_decision file;
     pf_schedule := pf_schedule file;
     pf_candidate := pf_candidate file;
     pf_reason := pf_reason file;
     pf_score := pf_score file;
     pf_outputPath := outputPath;
     pf_scores := pf_scores file;
     pf_pdfMetrics := pf_pdfMetrics file;
     pf_textSample := pf_textSample file;
     pf_overrideApplied := pf_overrideApplied file |}.

(** Interpolation of an optional string: [undefined] prints as such. *)
Definition opt_to_string (o : option string) : string :=
  match o with
  | Some s => s
  | None => "undefined"
  end.

Definition buildBaseOutputPath (file : ProcessedFile) : string :=
  match pf_decision file with
  | Duplicate => "DUPLICATES/" +:+ pf_hashPrefix file +:+ "/" +:+ pf_name file
  | Review =>
      let candidate := default "Unknown" (pf_candidate file) in
      "706/ReviewNeeded/" +:+ candidate +:+ "/" +:+ pf_name file
  | Assigned => "706/" +:+ opt_to_string (pf_schedule file) +:+ "/" +:+ pf_name file
  end.

(** [name.lastIndexOf(c)]; [None] stands for -1. *)
Fixpoint lastIndexOf (l : list ascii) (c : ascii) : option nat :=
  match l with
  | [] => None
  | a :: r =>
      match lastIndexOf r c with
      | Some i => Some (S i)
      | None => if ascii_dec a c then Some 0%nat else None
      end
  end.

(** [`${base}__dup${counter}${ext}`] *)
Definition dup_candidate (base ext : string) (counter : nat) : string :=
  base +:+ "__dup" +:+ pretty counter +:+ ext.

(** The loop [while (usedNames.has(candidate)) counter += 1].  The set is
    finite and the candidates are pairwise distinct, so the loop ends within
    [size usedNames + 1] tests; see [dup_loop_free]. *)
Fixpoint dup_loop (fuel : nat) (base ext : string) (usedNames : gset string)
    (counter : nat) : nat :=
  match fuel with
  | O => counter
  | S fuel' =>
      if decide (dup_candidate base ext counter ∈ usedNames)
      then dup_loop fuel' base ext usedNames (S counter)
      else counter
  end.

(** Returns the name and the updated set (the code updates it in place). *)
Definition ensureUniqueFilename (name : string) (usedNames : gset string)
  : string * gset string :=
  if decide (name ∈ usedNames) then
    let dotIndex := lastIndexOf (chars name) "."%char in
    let base := match dotIndex with None => name | Some i => str (take i (chars name)) end in
    let ext := match dotIndex with None => EmptyString | Some i => str (drop i (chars name)) end in
    let counter := dup_loop (S (size usedNames)) base ext usedNames 1 in
    let candidate := dup_candidate base ext counter in
    (candidate, {[candidate]} ∪ usedNames)
  else (name, {[name]} ∪ usedNames).

(** [s.split(sep)] for a one-character separator: never empty. *)
Fixpoint split_on (sep : ascii) (l : list ascii) : list (list ascii) :=
  match l with
  | [] => [[]]
  | c :: r =>
      if ascii_dec c sep then [] :: split_on sep r
      else match split_on sep r with
           | h :: t => (c :: h) :: t
           | [] => [[c]]
           end
  end.

Fixpoint join_with (sep : ascii) (segments : list (list ascii)) : list ascii :=
  match segments with
  | [] => []
  | [h] => h
  | h :: t => h ++ sep :: join_with sep t
  end.

(** [segments.pop()]: the last element, if any, and the rest. *)
Fixpoint pop {A} (l : list A) : option A * list A :=
  match l with
  | [] => (None, [])
  | [x] => (Some x, [])
  | x :: r => let '(o, r') := pop r in (o, x :: r')
  end.

(** One call of the callback of [files.map] in [assignOutputPaths]. *)
Definition assign_one (usedNamesByFolder : gmap string (gset string)) (file : ProcessedFile)
  : gmap string (gset string) * ProcessedFile :=
  let basePath := buildBaseOutputPath file in
  let '(popped, segments) := pop (split_on "/"%char (chars basePath)) in
  let filename := match popped with Some f => str f | None => pf_name file end in
  let dir := str (join_with "/"%char segments) in
  let used := default ∅ (usedNamesByFolder !! dir) in
  (* the code stores [used] in the map first and then updates it in place *)
  let '(uniqueName, used) := ensureUniqueFilename filename used in
  let usedNamesByFolder := <[dir := used]> usedNamesByFolder in
  (usedNamesByFolder,
   with_outputPath file
     (if (0 <? String.length dir)%nat then dir +:+ "/" +:+ uniqueName else uniqueName)).

Fixpoint assign_loop (usedNamesByFolder : gmap string (gset string))
    (files : list ProcessedFile) : list ProcessedFile :=
  match files with
  | [] => []
  | file :: rest =>
      let '(usedNamesByFolder, file') := assign_one usedNamesByFolder file in
      file' :: assign_loop usedNamesByFolder rest
  end.

Definition assignOutputPaths (files : list ProcessedFile) : list ProcessedFile :=
  assign_loop ∅ files.

(** ** App.tsx: review clusters *)

Record Cluster := {
  cl_id : string;
  cl_tokens : list string;
  cl_items : list ProcessedFile;
}.

Definition maxTokens : nat := 12.

(** [normalizeText(file.textSample ?? '').split(' ')
      .filter((token) => token.length > 3).slice(0, maxTokens)] *)
Definition file_tokens (file : ProcessedFile) : list string :=
  take maxTokens
    (filter (fun token => (3 < String.length token)%nat)
       (map str
          (split_on " "%char
             (chars (normalizeText (default EmptyString (pf_textSample file))))))).

(** [new Set(iterable)], read back with [Array.from]: the distinct elements
    in the order of their first occurrence. *)
Fixpoint set_add_all (set : list string) (l : list string) : list string :=
  match l with
  | [] => set
  | x :: r => set_add_all (if decide (x ∈ set) then set else set ++ [x]) r
  end.

(** [tokens.filter((token) => cluster.tokens.includes(token))] *)
Definition overlap (tokens cluster_tokens : list string) : list string :=
  filter (fun token => token ∈ cluster_tokens) tokens.

(** The inner loop [for (const cluster of clusters)]: the clusters after
    the file joined one, or [None] when the loop ends with [assigned]
    still false. *)
Fixpoint join_cluster (tokens : list string) (file : ProcessedFile)
    (clusters : list Cluster) : option (list Cluster) :=
  match clusters with
  | [] => None
  | cluster :: rest =>
      if decide (length (cl_tokens cluster) = 0%nat) then
        (cluster ::.) <$> join_cluster tokens file rest
      else if decide (2 <= length (overlap tokens (cl_tokens cluster)))%nat then
        Some ({| cl_id := cl_id cluster;
                 cl_tokens :=
                   take maxTokens (set_add_all [] (cl_tokens cluster ++ tokens));
                 cl_items := cl_items cluster ++ [file] |} :: rest)
      else (cluster ::.) <$> join_cluster tokens file rest
  end.

Definition new_cluster (clusters : list Cluster) (tokens : list string)
    (file : ProcessedFile) : Cluster :=
  {| cl_id := "cluster-" +:+ pretty (length clusters + 1)%nat;
     cl_tokens := tokens;
     cl_items := [file] |}.

(** The body of [for (const file of files)]. *)
Definition cluster_step (clusters : list Cluster) (file : ProcessedFile) : list Cluster :=
  let tokens := file_tokens file in
  if decide (length tokens = 0%nat) then clusters ++ [new_cluster clusters [] file]
  else
    match join_cluster tokens file clusters with
    | Some clusters' => clusters'
    | None => clusters ++ [new_cluster clusters tokens file]
    end.

Definition buildReviewClusters (files : list ProcessedFile) : list Cluster :=
  fold_left cluster_step files [].

(** ** App.tsx: the processing run

    A worker is an [async] function: it runs without interruption between
    two [await]s, and the continuations of different workers interleave.
    A [Task] records at which [await] a worker is suspended.  Progress
    counters, the debug log and the source-path listing take no part in the
    decisions and are left out. *)

Record SelectedFile := {
  sf_name : string;
  sf_bytes : string;
  sf_relativePath : string;
}.

Definition isPdfFile (filename : string) : bool :=
  startsWith (rev (toLowerCase (chars filename))) (rev (chars ".pdf")).

Definition getHashPrefix (hash : string) : string := str (take 10 (chars hash)).

Inductive Task :=
| Queued
| AwaitBuffer
| AwaitHash
| AwaitExtract (hash : string)
| Finished.

Record Store := {
  processed : list ProcessedFile;
  seenHashes : gmap string ProcessedFile;
}.

Definition push (entry : ProcessedFile) (register : option string) (store : Store) : Store :=
  {| processed := processed store ++ [entry];
     seenHashes :=
       match register with
       | Some hash => <[hash := entry]> (seenHashes store)
       | None => seenHashes store
       end |}.

Section Pipeline.
(** The collaborators: the digest of a buffer and the text layer of a PDF,
    each of which may reject. *)
Variable hashArrayBuffer : string -> Completion string.
Variable extractPdfText : string -> Completion PdfTextResult.
Variable compiledConfig : CompiledScheduleConfig.
Variable scanThresholds : ScannedDetectionThresholds.
Variable reviewOverrides : gmap string string.
Variable selectedFiles : list SelectedFile.
Variable concurrency : nat.

Definition duplicateEntry (item : SelectedFile) (hash : string)
    (duplicate : option ProcessedFile) : ProcessedFile :=
  {| pf_name := sf_name item;
     pf_relativePath := sf_relativePath item;
     pf_hash := hash;
     pf_hashPrefix := getHashPrefix hash;
     pf_decision := Duplicate;
     pf_schedule := duplicate ≫= pf_schedule;
     pf_candidate := duplicate ≫= pf_candidate;
     pf_reason := "sha256_duplicate";
     pf_score := default (Fin 0) (pf_score <$> duplicate);
     pf_outputPath := EmptyString;
     pf_scores := default [] (pf_scores <$> duplicate);
     pf_pdfMetrics := None;
     pf_textSample := None;
     pf_overrideApplied := None |}.

Definition overrideEntry (item : SelectedFile) (hash overrideSchedule : string)
  : ProcessedFile :=
  {| pf_name := sf_name item;
     pf_relativePath := sf_relativePath item;
     pf_hash := hash;
     pf_hashPrefix := getHashPrefix hash;
     pf_decision := Assigned;
     pf_schedule := Some overrideSchedule;
     pf_candidate := None;
     pf_reason := "review_override";
     pf_score := SCORE_FLOOR;
     pf_outputPath := EmptyString;
     pf_scores :=
       fill_scores
         (fun schedule =>
            if decide (sd_id schedule = overrideSchedule) then SCORE_FLOOR else Fin 0)
         (cc_schedules compiledConfig) [];
     pf_pdfMetrics := None;
     pf_textSample := None;
     pf_overrideApplied := Some true |}.

(** The two error entries: [pdf_parse_error] keeps the digest,
    [processing_error] has the synthetic one. *)
Definition errorEntry (item : SelectedFile) (hash reason : string) : ProcessedFile :=
  {| pf_name := sf_name item;
     pf_relativePath := sf_relativePath item;
     pf_hash := hash;
     pf_hashPrefix := getHashPrefix hash;
     pf_decision := Review;
     pf_schedule := None;
     pf_candidate := Some "Unknown";
     pf_reason := reason;
     pf_score := Fin 0;
     pf_outputPath := EmptyString;
     pf_scores := [];
     pf_pdfMetrics := None;
     pf_textSample := None;
     pf_overrideApplied := None |}.

Definition classifiedEntry (item : SelectedFile) (hash text : string)
    (pdfMetrics : option PdfTextResult) (classification : ClassificationResult)
  : ProcessedFile :=
  {| pf_name := sf_name item;
     pf_relativePath := sf_relativePath item;
     pf_hash := hash;
     pf_hashPrefix := getHashPrefix hash;
     pf_decision := file_decision (cr_decision classification);
     pf_schedule := cr_schedule classification;
     pf_candidate := cr_candidate classification;
     pf_reason := cr_reason classification;
     pf_score := cr_score classification;
     pf_outputPath := EmptyString;
     pf_scores := cr_scores classification;
     pf_pdfMetrics := pdfMetrics;
     pf_textSample :=
       match cr_decision classification with
       | review => Some (str (take 200 (chars text)))
       | assigned => None
       end;
     pf_overrideApplied := None |}.

(** The outer [catch]: a review entry under the digest [error-<index>],
    not registered in [seenHashes]. *)
Definition fallback (item : SelectedFile) (index : nat) (error : JsError)
    (store : Store) : Store :=
  push (errorEntry item ("error-" +:+ pretty index)
          ("processing_error: " +:+ error_to_string error)) None store.

(** From the call of [classifyDocument] to the end of the worker. *)
Definition classify_and_record (item : SelectedFile) (index : nat) (hash text : string)
    (pdf : bool) (pdfMetrics : option PdfTextResult) (store : Store) : Store :=
  match classifyDocument
          {| filename := sf_name item;
             text := text;
             isPdf := pdf;
             config := compiledConfig;
             pdfMetrics := scan_metrics <$> pdfMetrics;
             scannedThresholds := scanThresholds |} with
  | Normal classification =>
      push (classifiedEntry item hash text pdfMetrics classification) (Some hash) store
  | Throw error => fallback item index error store
  end.

(** The worker from the settling of [hashArrayBuffer] to its next [await]
    or its end. *)
Definition resume_hash (item : SelectedFile) (index : nat) (store : Store)
  : Store * Task :=
  match hashArrayBuffer (sf_bytes item) with
  | Throw error => (fallback item index error store, Finished)
  | Normal hash =>
      if decide (is_Some (seenHashes store !! hash)) then
        let duplicate := seenHashes store !! hash in
        (push (duplicateEntry item hash duplicate) None store, Finished)
      else
        match truthy_match (reviewOverrides !! hash) with
        | Some overrideSchedule =>
            (push (overrideEntry item hash overrideSchedule) (Some hash) store, Finished)
        | None =>
            if isPdfFile (sf_name item) then (store, AwaitExtract hash)
            else (classify_and_record item index hash EmptyString false None store,
                  Finished)
        end
  end.

(** The worker from the settling of [extractPdfText] to its end. *)
Definition resume_extract (item : SelectedFile) (index : nat) (hash : string)
    (store : Store) : Store :=
  match extractPdfText (sf_bytes item) with
  | Normal pdfMetrics =>
      classify_and_record item index hash (pt_text pdfMetrics) true (Some pdfMetrics) store
  | Throw error =>
      push (errorEntry item hash ("pdf_parse_error: " +:+ error_to_string error))
        (Some hash) store
  end.

(** *** [runWithConcurrency] *)

(** The variables of [runWithConcurrency], the abort signal, the store of
    the workers, and whether [resolve] has been called. *)
Record RunState := {
  rs_tasks : list Task;
  rs_currentIndex : nat;
  rs_active : nat;
  rs_aborted : bool;
  rs_store : Store;
  rs_resolved : bool;
}.

(** [resolve(results)]. *)
Definition resolve (st : RunState) : RunState :=
  {| rs_tasks := rs_tasks st;
     rs_currentIndex := rs_currentIndex st;
     rs_active := rs_active st;
     rs_aborted := rs_aborted st;
     rs_store := rs_store st;
     rs_resolved := true |}.

(** The [while] loop of [scheduleNext]: start workers while the run is
    not aborted, fewer than [concurrency] are in flight and items remain.
    A started worker runs to its first [await]. *)
Fixpoint start_loop (fuel : nat) (st : RunState) : RunState :=
  match fuel with
  | O => st
  | S fuel' =>
      if negb (rs_aborted st) && (rs_active st <? concurrency)%nat
         && (rs_currentIndex st <? length selectedFiles)%nat
      then
        let index := rs_currentIndex st in
        start_loop fuel'
          {| rs_tasks :=
               <[index := if rs_aborted st then Finished else AwaitBuffer]> (rs_tasks st);
             rs_currentIndex := S index;
             rs_active := S (rs_active st);
             rs_aborted := rs_aborted st;
             rs_store := rs_store st;
             rs_resolved := rs_resolved st |}
      else st
  end.

(** [scheduleNext]: the promise is resolved at once when the run is
    aborted and no worker is in flight; otherwise the loop runs, and the
    promise is resolved when every file has been started and no worker is
    in flight. *)
Definition scheduleNext (st : RunState) : RunState :=
  if rs_aborted st && (rs_active st =? 0)%nat then resolve st
  else
    let st := start_loop (length selectedFiles) st in
    if (length selectedFiles <=? rs_currentIndex st)%nat && (rs_active st =? 0)%nat
    then resolve st
    else st.

(** The promise returned by [runWithConcurrency] is resolved: [resolve]
    has been called, in [scheduleNext] or in the [finally] callback of a
    worker.  A cancellation by itself calls neither. *)
Definition resolved (st : RunState) : bool := rs_resolved st.

Inductive Event :=
| Settle (index : nat)   (* the promise awaited by worker [index] settles *)
| Abort.                 (* the user cancels *)

(** The [finally] callback of a worker that has ended. *)
Definition worker_ended (st : RunState) : RunState :=
  let st :=
    {| rs_tasks := rs_tasks st;
       rs_currentIndex := rs_currentIndex st;
       rs_active := pred (rs_active st);
       rs_aborted := rs_aborted st;
       rs_store := rs_store st;
       rs_resolved := rs_resolved st |} in
  if (length selectedFiles <=? rs_currentIndex st)%nat && (rs_active st =? 0)%nat
  then resolve st else scheduleNext st.

Definition set_task (st : RunState) (index : nat) (task : Task) (store : Store)
  : RunState :=
  let st :=
    {| rs_tasks := <[index := task]> (rs_tasks st);
       rs_currentIndex := rs_currentIndex st;
       rs_active := rs_active st;
       rs_aborted := rs_aborted st;
       rs_store := store;
       rs_resolved := rs_resolved st |} in
  match task with
  | Finished => worker_ended st
  | _ => st
  end.

(** One event; [None] when worker [index] is not suspended at an
    [await]. *)
Definition step (st : RunState) (event : Event) : option RunState :=
  match event with
  | Abort =>
      Some {| rs_tasks := rs_tasks st;
              rs_currentIndex := rs_currentIndex st;
              rs_active := rs_active st;
              rs_aborted := true;
              rs_store := rs_store st;
              rs_resolved := rs_resolved st |}
  | Settle index =>
      item ← selectedFiles !! index;
      task ← rs_tasks st !! index;
      match task with
      | AwaitBuffer => Some (set_task st index AwaitHash (rs_store st))
      | AwaitHash =>
          let '(store, task') := resume_hash item index (rs_store st) in
          Some (set_task st index task' store)
      | AwaitExtract hash =>
          Some (set_task st index Finished (resume_extract item index hash (rs_store st)))
      | Queued | Finished => None
      end
  end.

Fixpoint run (st : RunState) (events : list Event) : option RunState :=
  match events with
  | [] => Some st
  | event :: rest => st' ← step st event; run st' rest
  end.

Definition initial : RunState :=
  scheduleNext
    {| rs_tasks := replicate (length selectedFiles) Queued;
       rs_currentIndex := 0;
       rs_active := 0;
       rs_aborted := false;
       rs_store := {| processed := []; seenHashes := ∅ |};
       rs_resolved := false |}.

(** [handleRunSort] along a sequence of events: the files that it hands
    to [setProcessedFiles], with their output paths.  [None] when it does
    not get there: for an empty selection it returns at once, and otherwise
    it waits for the promise of [runWithConcurrency], which may not be
    resolved after [events]. *)
Definition handleRunSort (events : list Event) : option (list ProcessedFile) :=
  if (length selectedFiles =? 0)%nat then None
  else
    st ← run initial events;
    if resolved st then Some (assignOutputPaths (processed (rs_store st))) else None.
End Pipeline.

(** ** App.tsx: manual overrides

    [handleOverrideChange(hash, scheduleId)], on the stored overrides and
    the files on screen.  [scheduleId] is a category identifier or the
    word [clear]. *)

(** The callback of [processedFiles.map]. *)
Definition override_file (hash scheduleId : string) (file : ProcessedFile) : ProcessedFile :=
  if negb (String.eqb (pf_hash file) hash) then file
  else if String.eqb scheduleId "clear" then
    {| pf_name := pf_name file;
       pf_relativePath := pf_relativePath file;
       pf_hash := pf_hash file;
       pf_hashPrefix := pf_hashPrefix file;
       pf_decision := pf_decision file;
       pf_schedule := pf_schedule file;
       pf_candidate := pf_candidate file;
       pf_reason := pf_reason file;
       pf_score := pf_score file;
       pf_outputPath := pf_outputPath file;
       pf_scores := pf_scores file;
       pf_pdfMetrics := pf_pdfMetrics file;
       pf_textSample := pf_textSample file;
       pf_overrideApplied := Some false |}
  else
    {| pf_name := pf_name file;
       pf_relativePath := pf_relativePath file;
       pf_hash := pf_hash file;
       pf_hashPrefix := pf_hashPrefix file;
       pf_decision := Assigned;
       pf_schedule := Some scheduleId;
       pf_candidate := None;
       pf_reason := "review_override";
       pf_score := SCORE_FLOOR;
       pf_outputPath := pf_outputPath file;
       pf_scores := pf_scores file;
       pf_pdfMetrics := pf_pdfMetrics file;
       pf_textSample := pf_textSample file;
       pf_overrideApplied := Some true |}.

Record OverrideState := {
  os_reviewOverrides : gmap string string;
  os_processedFiles : list ProcessedFile;
}.

Definition handleOverrideChange (hash scheduleId : string) (state : OverrideState)
  : OverrideState :=
  let updated :=
    if String.eqb scheduleId "clear" then delete hash (os_reviewOverrides state)
    else <[hash := scheduleId]> (os_reviewOverrides state) in
  let recalculated :=
    assignOutputPaths (map (override_file hash scheduleId) (os_processedFiles state)) in
  {| os_reviewOverrides := updated; os_processedFiles := recalculated |}.

(** ** App.tsx: the entries of the export *)

Inductive ExportMode := Full | Only706 | DuplicatesOnly | ReportsOnly.

(** What goes into the archive under a path: the selected file of an
    entry, or a text. *)
Inductive ZipContent :=
| Original (entry : ProcessedFile)
| Text (content : string).

Record ZipFileInput := {
  zi_path : string;
  zi_file : ZipContent;
}.

Record ZipOptions := {
  zo_files : list ProcessedFile;
  zo_reportCsv : string;
  zo_manifestJson : string;
  zo_duplicatesCsv : string;
  zo_sourcePaths : JsObject (list string);
  zo_exportMode : ExportMode;
}.

Definition line_feed : string := String (ascii_of_N 10) EmptyString.

(** The loop [for (const file of files)]. *)
Fixpoint file_entries (include706 includeDuplicates : bool) (files : list ProcessedFile)
    (entries : list ZipFileInput) : list ZipFileInput :=
  match files with
  | [] => entries
  | file :: rest =>
      let entry := {| zi_path := pf_outputPath file; zi_file := Original file |} in
      if startsWith (chars (pf_outputPath file)) (chars "706/") then
        file_entries include706 includeDuplicates rest
          (if include706 then entries ++ [entry] else entries)
      else if startsWith (chars (pf_outputPath file)) (chars "DUPLICATES/") then
        file_entries include706 includeDuplicates rest
          (if includeDuplicates then entries ++ [entry] else entries)
      else file_entries include706 includeDuplicates rest entries
  end.

Definition source_paths_entry (e : string * list string) : ZipFileInput :=
  let '(hashPrefix, paths) := e in
  {| zi_path := "STATE/_source_paths/" +:+ hashPrefix +:+ ".txt";
     zi_file := Text (String.concat line_feed paths +:+ line_feed) |}.

Definition buildZipEntries (options : ZipOptions) : list ZipFileInput :=
  let exportMode := zo_exportMode options in
  let include706 :=
    match exportMode with Full | Only706 => true | _ => false end in
  let includeDuplicates :=
    match exportMode with Full | DuplicatesOnly => true | _ => false end in
  let includeReports :=
    match exportMode with Full | ReportsOnly => true | _ => false end in
  let entries := file_entries include706 includeDuplicates (zo_files options) [] in
  if includeReports then
    (entries
       ++ [ {| zi_path := "STATE/report.csv"; zi_file := Text (zo_reportCsv options) |};
            {| zi_path := "STATE/manifest.json";
               zi_file := Text (zo_manifestJson options) |};
            {| zi_path := "STATE/duplicates.csv";
               zi_file := Text (zo_duplicatesCsv options) |} ])
      ++ map source_paths_entry (obj_entries (zo_sourcePaths options))
  else entries.

(** ** App.tsx: the duplicates report *)

Record DuplicateGroup := {
  dg_hash : string;
  dg_hashPrefix : string;
  dg_count : nat;
  dg_sourcePaths : list string;
  dg_keptName : string;
  dg_duplicateNames : list string;
}.

(** [groups] is a [Map] from digests to arrays of files: an association
    list in insertion order.  [group_add] is the body of the first loop:
    a digest not seen yet gets an empty array, then the file is pushed to
    the array of its digest. *)
Fixpoint group_add (groups : list (string * list ProcessedFile)) (file : ProcessedFile)
  : list (string * list ProcessedFile) :=
  match groups with
  | [] => [(pf_hash file, [file])]
  | (hash, groupFiles) :: rest =>
      if String.eqb hash (pf_hash file) then (hash, groupFiles ++ [file]) :: rest
      else (hash, groupFiles) :: group_add rest file
  end.

Section DuplicateGroups.
(** [a.localeCompare(b)], which depends on the locale of the browser. *)
Variable localeCompare : string -> string -> number.

(** The body of the second loop: nothing for a digest with fewer than two
    files, otherwise the group, or the [TypeError] of [kept.hashPrefix]
    on an empty array. *)
Definition group_of (entry : string * list ProcessedFile)
  : Completion (option DuplicateGroup) :=
  let '(hash, groupFiles) := entry in
  if (length groupFiles <? 2)%nat then Normal None
  else
    let sorted :=
      array_sort (fun a b => localeCompare (pf_relativePath a) (pf_relativePath b))
        groupFiles in
    match sorted with
    | kept :: others =>
        Normal (Some {| dg_hash := hash;
                        dg_hashPrefix := pf_hashPrefix kept;
                        dg_count := length sorted;
                        dg_sourcePaths := map pf_relativePath sorted;
                        dg_keptName := pf_name kept;
                        dg_duplicateNames := map pf_name others |})
    | [] => Throw (TypeError "Cannot read properties of undefined (reading 'hashPrefix')")
    end.

Fixpoint collect_groups (entries : list (string * list ProcessedFile))
    (results : list DuplicateGroup) : Completion (list DuplicateGroup) :=
  match entries with
  | [] => Normal results
  | entry :: rest =>
      group ← group_of entry;
      collect_groups rest
        (match group with Some g => results ++ [g] | None => results end)
  end.

Definition buildDuplicatesGroups (files : list ProcessedFile)
  : Completion (list DuplicateGroup) :=
  let groups := fold_left group_add files [] in
  collect_groups groups [].
End DuplicateGroups.

(** ** pdfText.ts: the text layer of a PDF

    The document as pdf.js answers: the number of pages, and for each
    page number the items of [getTextContent] (with [content.items || []]
    applied), or the rejection of [getPage] or [getTextContent], which
    includes the timeouts.  An item is [Some str] when [item.str] is a
    string. *)

Record PdfDocument := {
  doc_numPages : number;
  doc_page : nat -> Completion (list (option string));
}.

Module pdfText.

(** [(pdf.numPages as number) || 0] *)
Definition or_zero (n : number) : number :=
  match n with
  | NaN | Fin 0 => Fin 0
  | _ => n
  end.

(** [Math.min(numPages, 6)], for a first argument that is not NaN. *)
Definition min_6 (numPages : number) : number :=
  if num_ltb (Fin 6) numPages then Fin 6 else numPages.

(** [items.map((item) => typeof item?.str === "string" ? item.str : "")
          .filter(Boolean)] *)
Definition strings (items : list (option string)) : list string :=
  filter (fun s => s <> EmptyString) (map (default EmptyString) items).

(** [strings.join(" ") + "\n"] *)
Definition page_text (items : list (option string)) : string :=
  String.concat " " (strings items) +:+ line_feed.

(** The loop [for (let i = 1; i <= pagesSampled; i++)], entered at [i];
    it runs at most six times. *)
Fixpoint read_pages (fuel : nat) (pdf : PdfDocument) (pagesSampled : number) (i : nat)
    (text : string) (textItems : nat) : Completion (string * nat) :=
  match fuel with
  | O => Normal (text, textItems)
  | S fuel' =>
      if num_ltb pagesSampled (Fin (Z.of_nat i)) then Normal (text, textItems)
      else
        items ← doc_page pdf i;
        let textItems := (textItems + length items)%nat in
        let text := text +:+ page_text items in
        if (5000 <=? String.length text)%nat then Normal (text, textItems)
        else read_pages fuel' pdf pagesSampled (S i) text textItems
  end.

(** [extractPdfText], from the document that [getDocument] delivers. *)
Definition extractPdfText (getDocument : string -> Completion PdfDocument)
    (buffer : string) : Completion PdfTextResult :=
  pdf ← getDocument buffer;
  let numPages := or_zero (doc_numPages pdf) in
  let pagesSampled := min_6 numPages in
  '(text, textItems) ← read_pages 6 pdf pagesSampled 1 EmptyString 0;
  Normal {| pt_text := text;
            pt_numPages := numPages;
            pt_pagesSampled := pagesSampled;
            pt_chars := Fin (Z.of_nat (String.length text));
            pt_textItems := Fin (Z.of_nat textItems) |}.
End pdfText.

(** ** App.tsx: the CSV reports *)

(** The [replace] of every double quote of the value by two double
    quotes, on code units. *)
Fixpoint double_quotes (l : list ascii) : list ascii :=
  match l with
  | [] => []
  | c :: r =>
      if ascii_dec c (ascii_of_N 34) then ascii_of_N 34 :: ascii_of_N 34 :: double_quotes r
      else c :: double_quotes r
  end.

(** The callback of [row.map]: the value between quotes, its quotes
    doubled. *)
Definition csv_value (value : string) : string :=
  quoted (str (double_quotes (chars value))).

Definition buildCsv (rows : list (list string)) : string :=
  String.concat line_feed (map (fun row => String.concat "," (map csv_value row)) rows).

(** * Statements and example inputs *)

(** [rule] is the first rule, in declaration order, whose pattern matches
    [name]. *)
Definition first_matching_rule (name : string) (rules : list FilenameRule)
    (rule : FilenameRule) : Prop :=
  exists before after,
    rules = before ++ rule :: after
    /\ Forall (fun r => fr_pattern r name = false) before
    /\ fr_pattern rule name = true.

Definition schedule_ids (config : CompiledScheduleConfig) : list string :=
  map sd_id (cc_schedules config).

(** The outcome that the filename-rule step is specified to have: an
    assignment to the target of [rule] with the floor score, the vector
    giving the floor to the target and 0 to every other configured
    category. *)
Definition filename_rule_outcome (options : ClassifyOptions) (rule : FilenameRule) : Prop :=
  exists r,
    classifyDocument options = Normal r
    /\ cr_decision r = assigned
    /\ cr_schedule r = Some (fr_schedule rule)
    /\ cr_reason r = "filename_rule"
    /\ cr_score r = SCORE_FLOOR
    /\ obj_get (cr_scores r) (fr_schedule rule) = Some SCORE_FLOOR
    /\ forall k, k ∈ schedule_ids (config options) -> k <> fr_schedule rule ->
                 obj_get (cr_scores r) k = Some (Fin 0).

(** A pattern without metacharacters, as [test] answers on it. *)
Definition includes (needle : string) (s : string) : bool :=
  match find_at (chars s) (chars needle) with
  | Some _ => true
  | None => false
  end.

Definition term (t : string) (w : Z) : WeightedTerm :=
  {| wt_term := t; wt_weight := Fin w |}.

Definition default_thresholds : ScannedDetectionThresholds :=
  {| minChars := Fin 250; minTextItems := Fin 30 |}.

Definition stocks : ScheduleDefinition :=
  {| sd_id := "B_Stocks_Bonds";
     sd_label := "Schedule B - Stocks & Bonds";
     sd_keywords := [term "brokerage statement" 20];
     sd_smallTerms := [term "dividend" 3] |}.

Definition real_estate : ScheduleDefinition :=
  {| sd_id := "A_Real_Estate";
     sd_label := "Schedule A - Real Estate";
     sd_keywords := [term "warranty deed" 20];
     sd_smallTerms := [term "parcel" 3] |}.

Definition deed_rule : FilenameRule :=
  {| fr_pattern := includes "deed"; fr_schedule := "A_Real_Estate" |}.

(** A rule whose target is not among the configured categories. *)
Definition unconfigured_target_input : ClassifyOptions :=
  {| filename := "Deed_123_Main_St.pdf";
     text := "brokerage statement";
     isPdf := false;
     config := {| cc_schedules := [stocks]; cc_filenameRules := [deed_rule] |};
     pdfMetrics := None;
     scannedThresholds := default_thresholds |}.

Definition full_config : CompiledScheduleConfig :=
  {| cc_schedules := [real_estate; stocks]; cc_filenameRules := [deed_rule] |}.

Definition deed_input : ClassifyOptions :=
  {| filename := "Deed_123_Main_St.pdf";
     text := "brokerage statement brokerage statement dividend";
     isPdf := false;
     config := full_config;
     pdfMetrics := None;
     scannedThresholds := default_thresholds |}.

(** A rule whose target is the empty string (validation rejects it). *)
Definition blank_rule : FilenameRule :=
  {| fr_pattern := includes "deed"; fr_schedule := EmptyString |}.

Definition blank_target_input : ClassifyOptions :=
  {| filename := "Deed_123_Main_St.pdf";
     text := "warranty deed";
     isPdf := false;
     config := {| cc_schedules := [real_estate; stocks]; cc_filenameRules := [blank_rule] |};
     pdfMetrics := None;
     scannedThresholds := default_thresholds |}.

(** No category, no rule, some text. *)
Definition no_categories_input : ClassifyOptions :=
  {| filename := "notes.png";
     text := "hello";
     isPdf := false;
     config := {| cc_schedules := []; cc_filenameRules := [] |};
     pdfMetrics := None;
     scannedThresholds := default_thresholds |}.

Definition no_rule_matches (options : ClassifyOptions) : Prop :=
  Forall (fun r => fr_pattern r (normalizeText (filename options)) = false)
    (cc_filenameRules (config options)).

(** The result has the fields that go with its decision. *)
Definition shape_consistent (r : ClassificationResult) : Prop :=
  match cr_decision r with
  | assigned => is_Some (cr_schedule r) /\ cr_candidate r = None
  | review => is_Some (cr_candidate r) /\ cr_schedule r = None
  end.

(** The outcome specified for a PDF whose sampled text is too small. *)
Definition scanned_outcome (options : ClassifyOptions) : Prop :=
  exists r rest,
    classifyDocument options = Normal r
    /\ cr_decision r = review
    /\ cr_candidate r = Some "Unknown"
    /\ cr_score r = Fin 0
    /\ cr_reason r = "likely_scanned_pdf" +:+ rest.

Definition sparse_metrics : PdfScanMetrics :=
  {| pm_chars := Fin 40; pm_textItems := Fin 55; pm_pagesSampled := Fin 1 |}.

(** A sparse PDF whose name matches a filename rule. *)
Definition sparse_deed_input : ClassifyOptions :=
  {| filename := "Deed_123_Main_St.pdf";
     text := "warranty deed";
     isPdf := true;
     config := full_config;
     pdfMetrics := Some sparse_metrics;
     scannedThresholds := default_thresholds |}.

(** A sparse PDF that matches no rule and whose text scores 23 for real
    estate. *)
Definition sparse_scan_input : ClassifyOptions :=
  {| filename := "scan0001.pdf";
     text := "warranty deed parcel";
     isPdf := true;
     config := full_config;
     pdfMetrics := Some sparse_metrics;
     scannedThresholds := default_thresholds |}.

(** *** Keyword scoring, as specified *)

Definition weightZ (t : WeightedTerm) : Z :=
  match wt_weight t with
  | Fin z => z
  | _ => 0
  end.

(** Sum over the terms of (occurrences in the text) × weight. *)
Definition sum_weighted (text : string) (terms : list WeightedTerm) : Z :=
  foldr (fun t acc => Z.of_nat (countTermOccurrences text (wt_term t)) * weightZ t + acc)
    0 terms.

(** The score of a category: the sum over its keywords plus its small
    terms. *)
Definition score_sum (text : string) (schedule : ScheduleDefinition) : Z :=
  sum_weighted text (sd_keywords schedule ++ sd_smallTerms schedule).

(** The categories with their scores, in declaration order. *)
Definition declared_scores (options : ClassifyOptions) : list (string * Z) :=
  map (fun s => (sd_id s, score_sum (text options) s)) (cc_schedules (config options)).

(** [ranked] lists the entries of [declared] by score, descending, entries
    of equal score staying in the order of [declared]. *)
Definition ranked_by_score (declared ranked : list (string * Z)) : Prop :=
  (forall v, filter (fun e => snd e = v) ranked = filter (fun e => snd e = v) declared)
  /\ StronglySorted (fun a b => snd b <= snd a) ranked.

Definition as_numbers (l : list (string * Z)) : JsObject number :=
  map (fun e => (fst e, Fin (snd e))) l.

(** The decision taken from a ranking: [best] is the top score, the margin
    is [best] minus the second score (0 when there is no second). *)
Definition keyword_decision (declared ranked : list (string * Z))
  : option ClassificationResult :=
  match ranked with
  | [] => None
  | (top, best) :: rest =>
      let runnerUp := match rest with [] => 0 | second :: _ => snd second end in
      let margin := best - runnerUp in
      Some (if decide (best < 18 \/ margin < 6) then
              {| cr_decision := review;
                 cr_schedule := None;
                 cr_candidate := Some top;
                 cr_reason := "low_confidence";
                 cr_score := Fin best;
                 cr_scores := as_numbers declared |}
            else
              {| cr_decision := assigned;
                 cr_schedule := Some top;
                 cr_candidate := None;
                 cr_reason := "keyword_score";
                 cr_score := Fin best;
                 cr_scores := as_numbers declared |})
  end.

(** The outcome specified for the keyword step. *)
Definition keyword_outcome (options : ClassifyOptions) : Prop :=
  exists ranked r,
    ranked_by_score (declared_scores options) ranked
    /\ keyword_decision (declared_scores options) ranked = Some r
    /\ classifyDocument options = Normal r.

Definition finite_weights (schedule : ScheduleDefinition) : Prop :=
  Forall (fun t => is_finite (wt_weight t)) (sd_keywords schedule ++ sd_smallTerms schedule).

(** The sum over the terms of (occurrences in the text) × |weight|. *)
Definition sum_magnitudes (text : string) (terms : list WeightedTerm) : Z :=
  foldr (fun t acc =>
           Z.of_nat (countTermOccurrences text (wt_term t)) * Z.abs (weightZ t) + acc)
    0 terms.

(** An integer of magnitude at most 2^53: each of these is a
    double-precision number. *)
Definition exact_integer (v : number) : Prop := exists z, v = Fin z /\ Z.abs z <= 2 ^ 53.

(** The categories whose score [scoreSchedule] computes without rounding
    on [text].  The source multiplies and adds double-precision numbers;
    the weights are integers of magnitude at most 2^53, and the occurrences
    times the magnitudes of the weights sum to at most 2^52, so that every
    product, every partial sum and the difference of two scores is an
    integer of magnitude at most 2^53, which the double-precision
    operations give exactly. *)
Definition exact_weights (text : string) (schedule : ScheduleDefinition) : Prop :=
  Forall (fun t => exact_integer (wt_weight t))
    (sd_keywords schedule ++ sd_smallTerms schedule)
  /\ sum_magnitudes text (sd_keywords schedule ++ sd_smallTerms schedule) <= 2 ^ 52.

(** Identifiers that a plain object keeps as written and in insertion
    order. *)
Definition plain_key (k : string) : Prop :=
  k <> "__proto__" /\ array_index k = None.

(** Insertion of an entry below the entries of greater score, and the
    ranking it builds. *)
Fixpoint insert_desc (x : string * Z) (l : list (string * Z)) : list (string * Z) :=
  match l with
  | [] => [x]
  | y :: r => if decide (snd x < snd y) then y :: insert_desc x r else x :: l
  end.

Definition rank (l : list (string * Z)) : list (string * Z) := foldr insert_desc [] l.

(** Two categories with array-index identifiers and equal scores. *)
Definition year_schedule (year : string) : ScheduleDefinition :=
  {| sd_id := year;
     sd_label := "Tax year " +:+ year;
     sd_keywords := [term "form 1099" 20];
     sd_smallTerms := [] |}.

Definition years_input : ClassifyOptions :=
  {| filename := "scan0001.png";
     text := "Form 1099";
     isPdf := false;
     config := {| cc_schedules := [year_schedule "2025"; year_schedule "2024"];
                  cc_filenameRules := [] |};
     pdfMetrics := None;
     scannedThresholds := default_thresholds |}.

(** Two categories under one identifier. *)
Definition real_estate_again : ScheduleDefinition :=
  {| sd_id := "A_Real_Estate";
     sd_label := "Schedule A - Real Estate (continued)";
     sd_keywords := [];
     sd_smallTerms := [] |}.

Definition repeated_id_input : ClassifyOptions :=
  {| filename := "scan0001.png";
     text := "Warranty deed";
     isPdf := false;
     config := {| cc_schedules := [real_estate; real_estate_again];
                  cc_filenameRules := [] |};
     pdfMetrics := None;
     scannedThresholds := default_thresholds |}.

(** The example of the specification: A scores 20, B scores 16. *)
Definition close_call_input : ClassifyOptions :=
  {| filename := "scan0001.png";
     text := "Warranty deed. Dividend dividend dividend dividend dividend, parcel.";
     isPdf := false;
     config := {| cc_schedules :=
                    [ {| sd_id := "A_Real_Estate";
                         sd_label := "Schedule A - Real Estate";
                         sd_keywords := [term "warranty deed" 20];
                         sd_smallTerms := [] |};
                      {| sd_id := "B_Stocks_Bonds";
                         sd_label := "Schedule B - Stocks & Bonds";
                         sd_keywords := [term "brokerage statement" 20];
                         sd_smallTerms := [term "dividend" 3; term "parcel" 1] |} ];
                  cc_filenameRules := [] |};
     pdfMetrics := None;
     scannedThresholds := default_thresholds |}.

(** *** A valid configuration, as specified *)

Definition is_string (v : JsVal) : Prop := exists s, v = VString s.

Definition is_nonempty_string (v : JsVal) : Prop :=
  exists s, v = VString s /\ s <> EmptyString.

(** A weight accepted by the code: a number other than NaN. *)
Definition is_weight (v : JsVal) : Prop := exists n, v = VNumber n /\ n <> NaN.

(** A weight as the specification wants it: a finite number. *)
Definition is_finite_weight (v : JsVal) : Prop := exists z, v = VNumber (Fin z).

Definition is_array_of (P : JsVal -> Prop) (v : JsVal) : Prop :=
  exists items, v = VArray items /\ Forall P items.

Definition valid_term (t : JsVal) : Prop :=
  is_string (read t "term") /\ is_weight (read t "weight").

Definition valid_schedule (s : JsVal) : Prop :=
  is_nonempty_string (read s "id")
  /\ is_nonempty_string (read s "label")
  /\ is_array_of valid_term (read s "keywords")
  /\ is_array_of valid_term (read s "smallTerms").

(** What the loop over a term list requires of the value it is given. *)
Definition terms_ok (v : JsVal) : Prop :=
  match v with
  | VUndefined | VNull => True
  | VArray items => Forall valid_term items
  | _ => False
  end.

Section ValidConfig.
Variable regexp_error : string -> option string.

Definition valid_rule (r : JsVal) : Prop :=
  (exists p, read r "pattern" = VString p /\ p <> EmptyString /\ regexp_error p = None)
  /\ is_nonempty_string (read r "schedule").

Definition valid_config (raw : JsVal) : Prop :=
  is_array_of valid_schedule (read raw "schedules")
  /\ is_array_of valid_rule (read raw "filenameRules").

(** What a check may do with the list of errors: add nothing exactly when
    the checked part is valid, add something or throw otherwise. *)
Definition checks (c : Completion (list string)) (errors : list string) (valid : Prop)
  : Prop :=
  match c with
  | Normal errors' => exists extra, errors' = errors ++ extra /\ (extra = [] <-> valid)
  | Throw _ => ~ valid
  end.
End ValidConfig.

(** An engine that accepts every pattern except an unbalanced bracket. *)
Definition sample_regexp_error (pattern : string) : option string :=
  if includes "[" pattern && negb (includes "]" pattern)
  then Some "SyntaxError: Invalid regular expression: missing /"
  else None.

Definition json_term (t : string) (w : number) : JsVal :=
  VObject [("term", VString t); ("weight", VNumber w)].

Definition json_schedule (keywords : JsVal) : JsVal :=
  VObject [("id", VString "A_Real_Estate");
           ("label", VString "Schedule A - Real Estate");
           ("keywords", keywords);
           ("smallTerms", VArray [])].

Definition json_config (keywords : JsVal) : JsVal :=
  VObject [("schedules", VArray [json_schedule keywords]);
           ("filenameRules",
            VArray [VObject [("pattern", VString "deed");
                             ("schedule", VString "A_Real_Estate")]])].

(** ["weight": 1e999] parses to [Infinity]. *)
Definition infinite_weight_config : JsVal :=
  json_config (VArray [json_term "warranty deed" (Infinity false)]).

(** ["keywords": "warranty deed"]: a string where an array is expected. *)
Definition keywords_string_config : JsVal :=
  json_config (VString "warranty deed").

(** ["keywords": [null]] *)
Definition null_keyword_config : JsVal :=
  json_config (VArray [VNull]).

(** *** Output paths, as specified *)

Definition contains_char (c : ascii) (s : string) : Prop := c ∈ chars s.

(** [name] is [base] followed by its extension [ext]: the part from the
    last dot on, or nothing when there is no dot. *)
Definition splits_at_extension (name base ext : string) : Prop :=
  name = base +:+ ext
  /\ ((ext = EmptyString /\ ~ contains_char "."%char name)
      \/ exists rest, ext = "." +:+ rest /\ ~ contains_char "."%char rest).

(** What [ensureUniqueFilename] is specified to answer on [name] and the
    names used so far: the name itself when it is free; otherwise the name
    with [__dup<N>] before its extension, for the first [N] from 1 on that
    gives a free name.  In both cases the answer joins the used names. *)
Definition disambiguates (name : string) (usedNames : gset string)
    (result : string * gset string) : Prop :=
  (fst result ∉ usedNames)
  /\ snd result = {[fst result]} ∪ usedNames
  /\ (name ∉ usedNames -> fst result = name)
  /\ (name ∈ usedNames ->
      exists base ext N,
        splits_at_extension name base ext
        /\ (1 <= N)%nat
        /\ fst result = base +:+ "__dup" +:+ pretty N +:+ ext
        /\ forall i, (1 <= i < N)%nat -> base +:+ "__dup" +:+ pretty i +:+ ext ∈ usedNames).

(** The path written for a name in a folder. *)
Definition path_in (dir name : string) : string :=
  if (0 <? String.length dir)%nat then dir +:+ "/" +:+ name else name.

(** What [assignOutputPaths] does with one file, given the names used so
    far in each folder: the base path is [dir/filename], and the file gets
    the path made of [dir] and the answer of [ensureUniqueFilename] on
    [filename] and the names used in [dir], which become the names used in
    [dir]. *)
Definition assigns_in_folder (usedNamesByFolder : gmap string (gset string))
    (file : ProcessedFile) (result : gmap string (gset string) * ProcessedFile) : Prop :=
  exists dir filename,
    let used := default ∅ (usedNamesByFolder !! dir) in
    buildBaseOutputPath file = dir +:+ "/" +:+ filename
    /\ ~ contains_char "/"%char filename
    /\ pf_outputPath (snd result) = path_in dir (fst (ensureUniqueFilename filename used))
    /\ fst result = <[dir := snd (ensureUniqueFilename filename used)]> usedNamesByFolder.

Definition blank_file (name : string) (decision : FileDecision) (schedule : option string)
  : ProcessedFile :=
  {| pf_name := name;
     pf_relativePath := name;
     pf_hash := "0123456789abcdef";
     pf_hashPrefix := "0123456789";
     pf_decision := decision;
     pf_schedule := schedule;
     pf_candidate := None;
     pf_reason := "keyword_score";
     pf_score := Fin 20;
     pf_outputPath := EmptyString;
     pf_scores := [];
     pf_pdfMetrics := None;
     pf_textSample := None;
     pf_overrideApplied := None |}.

(** *** Review clusters, as specified *)

(** Two entries of the file's token list occur in the cluster's tokens;
    a token written twice in the file's list counts twice. *)
Definition two_entries_shared (tokens cluster_tokens : list string) : Prop :=
  exists i j a b,
    (i < j)%nat /\ tokens !! i = Some a /\ tokens !! j = Some b
    /\ a ∈ cluster_tokens /\ b ∈ cluster_tokens.

(** Two different tokens occur in both lists. *)
Definition two_tokens_shared (tokens cluster_tokens : list string) : Prop :=
  exists a b,
    a <> b /\ a ∈ tokens /\ b ∈ tokens /\ a ∈ cluster_tokens /\ b ∈ cluster_tokens.

(** The union of the tokens of the members, in order of first occurrence,
    capped. *)
Definition capped_union (items : list ProcessedFile) : list string :=
  take maxTokens (set_add_all [] (concat (map file_tokens items))).

(** The cluster after [file], with [tokens], joined it. *)
Definition joined (cluster : Cluster) (tokens : list string) (file : ProcessedFile)
  : Cluster :=
  {| cl_id := cl_id cluster;
     cl_tokens := take maxTokens (set_add_all [] (cl_tokens cluster ++ tokens));
     cl_items := cl_items cluster ++ [file] |}.

(** One step of the greedy pass, with [shares] as the test for joining:
    a file without token starts a cluster; another file joins the first
    cluster, in creation order, that passes the test, or starts a cluster
    when none does. *)
Definition greedy_step (shares : list string -> list string -> Prop)
    (clusters : list Cluster) (file : ProcessedFile) (clusters' : list Cluster) : Prop :=
  let tokens := file_tokens file in
  (tokens = [] /\ clusters' = clusters ++ [new_cluster clusters [] file])
  \/ (tokens <> []
      /\ exists before cluster after,
          clusters = before ++ cluster :: after
          /\ Forall (fun c => ~ shares tokens (cl_tokens c)) before
          /\ shares tokens (cl_tokens cluster)
          /\ clusters' = before ++ joined cluster tokens file :: after)
  \/ (tokens <> []
      /\ Forall (fun c => ~ shares tokens (cl_tokens c)) clusters
      /\ clusters' = clusters ++ [new_cluster clusters tokens file]).

(** What holds of every cluster during the pass. *)
Definition cluster_ok (c : Cluster) : Prop :=
  exists f rest,
    cl_items c = f :: rest
    /\ (rest = [] -> cl_tokens c = file_tokens f)
    /\ (rest <> [] ->
        cl_tokens c = capped_union (cl_items c)
        /\ Forall (fun g => file_tokens g <> []) (cl_items c)).

Definition review_file (name sample : string) : ProcessedFile :=
  {| pf_name := name;
     pf_relativePath := name;
     pf_hash := name;
     pf_hashPrefix := name;
     pf_decision := Review;
     pf_schedule := None;
     pf_candidate := Some "Unknown";
     pf_reason := "low_confidence";
     pf_score := Fin 0;
     pf_outputPath := EmptyString;
     pf_scores := [];
     pf_pdfMetrics := None;
     pf_textSample := Some sample;
     pf_overrideApplied := None |}.

Definition deed_alpha : ProcessedFile := review_file "a.png" "Deed alpha".
Definition deed_deed : ProcessedFile := review_file "b.png" "Deed, deed".

(** *** Entries of a run, as specified *)

(** A weight that is finite and at least 0. *)
Definition nonneg (v : number) : Prop := exists z, v = Fin z /\ 0 <= z.

Definition nonneg_weights (schedule : ScheduleDefinition) : Prop :=
  Forall (fun t => nonneg (wt_weight t)) (sd_keywords schedule ++ sd_smallTerms schedule).

(** A score that is at least 0: not NaN, and not below 0. *)
Definition at_least_zero (v : number) : Prop :=
  match v with
  | NaN => False
  | Infinity negative => negative = false
  | Fin z => 0 <= z
  end.

(** One entry per configured category, each at least 0. *)
Definition one_entry_per_category (config : CompiledScheduleConfig)
    (scores : JsObject number) : Prop :=
  keys scores = schedule_ids config /\ Forall (fun e => at_least_zero (snd e)) scores.

(** An entry as C5 states it. *)
Definition entry_as_specified (config : CompiledScheduleConfig) (e : ProcessedFile) : Prop :=
  (pf_decision e = Assigned \/ pf_decision e = Review)
  /\ one_entry_per_category config (pf_scores e).

(** The configurations for which the score vectors have one entry per
    category, each at least 0: the identifiers are pairwise distinct, none
    of them is [__proto__], and the weights are finite and at least 0. *)
Definition plain_config (config : CompiledScheduleConfig) : Prop :=
  NoDup (schedule_ids config)
  /\ ("__proto__" ∉ schedule_ids config)
  /\ Forall nonneg_weights (cc_schedules config).

(** The entry written when the extraction of a PDF rejects, or by the
    outer [catch]: a review with the candidate [Unknown] and the score 0. *)
Definition error_entry (e : ProcessedFile) : Prop :=
  pf_decision e = Review
  /\ pf_schedule e = None
  /\ pf_candidate e = Some "Unknown"
  /\ pf_score e = Fin 0
  /\ (String.prefix "pdf_parse_error: " (pf_reason e) = true
      \/ String.prefix "processing_error: " (pf_reason e) = true).

(** The third decision goes with the reason [sha256_duplicate], and with
    no other. *)
Definition decision_matches_reason (e : ProcessedFile) : Prop :=
  pf_decision e = Duplicate <-> pf_reason e = "sha256_duplicate".

(** What each entry satisfies when it is made: an empty vector is that
    of an error entry or of a duplicate. *)
Definition entry_well_formed (config : CompiledScheduleConfig) (e : ProcessedFile) : Prop :=
  decision_matches_reason e
  /\ (plain_config config ->
      one_entry_per_category config (pf_scores e)
      \/ (pf_scores e = [] /\ (error_entry e \/ pf_decision e = Duplicate))).

Definition store_well_formed (config : CompiledScheduleConfig) (store : Store) : Prop :=
  Forall (entry_well_formed config) (processed store)
  /\ map_Forall (fun _ e => entry_well_formed config e) (seenHashes store).

(** The entries of a run, as the run builds them.  Whatever the
    configuration, the decision [duplicate] goes exactly with the reason
    [sha256_duplicate].  For a plain configuration the score vector of an
    entry has one entry per category, each at least 0, or is empty; and it
    is empty only for an error entry and for a duplicate of an error
    entry, which comes earlier in the list and has the same digest. *)
Definition entries_well_formed (config : CompiledScheduleConfig)
    (entries : list ProcessedFile) : Prop :=
  forall j e,
    entries !! j = Some e ->
    decision_matches_reason e
    /\ (plain_config config ->
        one_entry_per_category config (pf_scores e)
        \/ (pf_scores e = []
            /\ (error_entry e
                \/ (pf_decision e = Duplicate
                    /\ exists i kept,
                         (i < j)%nat /\ entries !! i = Some kept
                         /\ pf_hash kept = pf_hash e /\ error_entry kept)))).

(** *** A sample run *)

Definition sample_digest (bytes : string) : Completion string :=
  Normal ("sha256-of-" +:+ bytes).

Definition sample_extract (bytes : string) : Completion PdfTextResult :=
  if includes "%PDF" bytes then
    Normal {| pt_text := bytes;
              pt_numPages := Fin 2;
              pt_pagesSampled := Fin 2;
              pt_chars := Fin 900;
              pt_textItems := Fin 120 |}
  else Throw (Error "Invalid PDF structure").

Definition sample_config : CompiledScheduleConfig :=
  {| cc_schedules := [real_estate; stocks]; cc_filenameRules := [] |}.

Definition deed_pdf (name : string) : SelectedFile :=
  {| sf_name := name;
     sf_bytes := "%PDF warranty deed, parcel 12";
     sf_relativePath := "estate/" +:+ name |}.

Definition broken_pdf : SelectedFile :=
  {| sf_name := "broken.pdf"; sf_bytes := "not a pdf"; sf_relativePath := "estate/broken.pdf" |}.

(** The run of the sample configuration over [files], two workers at a
    time, along [events]. *)
Definition sample_run (files : list SelectedFile) (events : list Event)
  : option (list ProcessedFile) :=
  handleRunSort sample_digest sample_extract sample_config default_thresholds ∅
    files 2 events.

(** Both workers pass every [await] in turn. *)
Definition interleaved : list Event :=
  [Settle 0; Settle 1; Settle 0; Settle 1; Settle 0; Settle 1].

(** The first worker ends before the second resumes. *)
Definition one_after_the_other : list Event :=
  [Settle 0; Settle 0; Settle 0; Settle 1; Settle 1].

(** Three files: a PDF, a copy of it, and a file that is not a PDF. *)
Definition three_files : list SelectedFile :=
  [deed_pdf "a.pdf"; deed_pdf "copy of a.pdf"; broken_pdf].

Definition three_files_events : list Event :=
  [Settle 0; Settle 0; Settle 0; Settle 1; Settle 1; Settle 2; Settle 2; Settle 2].

(** A category with a negative weight, which validation accepts. *)
Definition penalized : ScheduleDefinition :=
  {| sd_id := "A_Real_Estate";
     sd_label := "Schedule A - Real Estate";
     sd_keywords := [term "warranty deed" 20; term "void" (-30)];
     sd_smallTerms := [] |}.

Definition void_deed_input : ClassifyOptions :=
  {| filename := "scan0001.png";
     text := "VOID - warranty deed";
     isPdf := false;
     config := {| cc_schedules := [penalized; stocks]; cc_filenameRules := [] |};
     pdfMetrics := None;
     scannedThresholds := default_thresholds |}.

(** An image without text and without matching rule. *)
Definition blank_image_input : ClassifyOptions :=
  {| filename := "IMG_0001.png";
     text := "   ";
     isPdf := false;
     config := full_config;
     pdfMetrics := None;
     scannedThresholds := default_thresholds |}.

(** *** The normal form of a text *)

(** [spaced prev l]: every character of [l] is in [a-z0-9] or is a space,
    and no space follows a space; [prev] tells that a space precedes [l]. *)
Fixpoint spaced (prev : bool) (l : list ascii) : Prop :=
  match l with
  | [] => True
  | c :: r =>
      if is_alnum c then spaced false r
      else c = " "%char /\ prev = false /\ spaced true r
  end.

(** [spaced], and moreover [l] does not end with a space (nor is empty
    right after a space). *)
Fixpoint closed (prev : bool) (l : list ascii) : Prop :=
  match l with
  | [] => prev = false
  | c :: r =>
      if is_alnum c then closed false r
      else c = " "%char /\ prev = false /\ closed true r
  end.

(** Words of [a-z0-9] separated by single spaces, without space at either
    end. *)
Definition canonical (l : list ascii) : Prop :=
  match l with
  | [] => True
  | _ :: _ => closed true l
  end.

(** [text.includes(term)] *)
Definition occurs_in (term text : list ascii) : Prop := find_at text term <> None.

(** *** Output paths: the tree of a decision *)

(** The top of the output tree for a file: duplicates go under
    [DUPLICATES/], review files under [706/ReviewNeeded/], assigned files
    under [706/]. *)
Definition root_folder (file : ProcessedFile) : string :=
  match pf_decision file with
  | Duplicate => "DUPLICATES/"
  | Review => "706/ReviewNeeded/"
  | Assigned => "706/"
  end.

(** *** The run, as the scheduler sees it *)

(** The worker waits at an [await]. *)
Definition suspended (task : Task) : bool :=
  match task with
  | AwaitBuffer | AwaitHash | AwaitExtract _ => true
  | Queued | Finished => false
  end.

(** The number of workers that wait at an [await]. *)
Definition in_flight (tasks : list Task) : nat :=
  sum_list_with (fun task => if suspended task then 1%nat else 0%nat) tasks.

(** The [await]s that a worker may still pass. *)
Definition awaits_left (task : Task) : nat :=
  match task with
  | Queued | AwaitBuffer => 3
  | AwaitHash => 2
  | AwaitExtract _ => 1
  | Finished => 0
  end.

Definition work_left (st : RunState) : nat := sum_list_with awaits_left (rs_tasks st).

(** The files whose worker has ended, in the order of the selection. *)
Fixpoint ended (tasks : list Task) (files : list SelectedFile) : list SelectedFile :=
  match tasks, files with
  | task :: tasks, file :: files =>
      match task with
      | Finished => file :: ended tasks files
      | _ => ended tasks files
      end
  | _, _ => []
  end.

Definition entry_source (e : ProcessedFile) : string * string :=
  (pf_name e, pf_relativePath e).

Definition file_source (item : SelectedFile) : string * string :=
  (sf_name item, sf_relativePath item).

Definition is_settle (event : Event) : bool :=
  match event with
  | Settle _ => true
  | Abort => false
  end.

Definition settles (events : list Event) : nat :=
  length (filter (fun event => is_settle event = true) events).

(** What [runWithConcurrency] maintains between two events: one task per
    file; the workers are started in the order of the files, so that the
    files from [currentIndex] on are the queued ones; [active] counts the
    workers that wait at an [await] and never exceeds [concurrency]; and
    the scheduler does not idle: unless the run is aborted, all the
    [concurrency] slots are taken or every file has been started. *)
Definition scheduler_ok (selectedFiles : list SelectedFile) (concurrency : nat)
    (st : RunState) : Prop :=
  length (rs_tasks st) = length selectedFiles
  /\ (rs_currentIndex st <= length selectedFiles)%nat
  /\ (forall i, (i < length selectedFiles)%nat ->
        rs_tasks st !! i = Some Queued <-> (rs_currentIndex st <= i)%nat)
  /\ rs_active st = in_flight (rs_tasks st)
  /\ (rs_active st <= concurrency)%nat
  /\ (rs_aborted st = true
      \/ rs_active st = concurrency
      \/ rs_currentIndex st = length selectedFiles).

(** The digest of an entry made by the outer [catch]. *)
Definition error_hash (hash : string) : bool :=
  startsWith (chars hash) (chars "error-").

(** A duplicate entry takes its classification from the entry [kept]. *)
Definition copies (e kept : ProcessedFile) : Prop :=
  pf_schedule e = pf_schedule kept
  /\ pf_candidate e = pf_candidate kept
  /\ pf_score e = pf_score kept
  /\ pf_scores e = pf_scores kept.

(** The three ways in which a worker records an entry, given the digests
    seen so far: as a duplicate of the entry kept for its digest; as the
    entry kept for its digest; or, in the outer [catch], under a
    synthetic digest that is not registered. *)
Definition recorded (seen : gmap string ProcessedFile) (e : ProcessedFile)
    (register : option string) : Prop :=
  (register = None /\ pf_decision e = Duplicate
   /\ exists kept, seen !! pf_hash e = Some kept /\ copies e kept)
  \/ (register = Some (pf_hash e) /\ pf_decision e <> Duplicate)
  \/ (register = None /\ pf_decision e = Review /\ error_hash (pf_hash e) = true).

(** Every digest that is registered belongs to a recorded entry that is
    not a duplicate, and every recorded entry with a real digest has its
    digest registered. *)
Definition registry_ok (store : Store) : Prop :=
  (forall hash kept,
     seenHashes store !! hash = Some kept ->
     pf_hash kept = hash /\ pf_decision kept <> Duplicate
     /\ exists i, processed store !! i = Some kept)
  /\ (forall e,
        e ∈ processed store -> error_hash (pf_hash e) = false ->
        is_Some (seenHashes store !! pf_hash e)).

(** Every duplicate entry follows an entry with the same digest that is
    not a duplicate, and has its classification. *)
Definition duplicates_have_originals (entries : list ProcessedFile) : Prop :=
  forall j e,
    entries !! j = Some e -> pf_decision e = Duplicate ->
    exists i kept,
      (i < j)%nat /\ entries !! i = Some kept
      /\ pf_hash kept = pf_hash e /\ pf_decision kept <> Duplicate /\ copies e kept.

(** Of two entries with the same real digest, the later one is a
    duplicate. *)
Definition copies_are_detected (entries : list ProcessedFile) : Prop :=
  forall i j e e',
    (i < j)%nat -> entries !! i = Some e -> entries !! j = Some e' ->
    pf_hash e = pf_hash e' -> error_hash (pf_hash e) = false ->
    pf_decision e' = Duplicate.

#[global] Instance Task_eq_dec : EqDecision Task.
Proof. solve_decision. Defined.

#[global] Instance Event_eq_dec : EqDecision Event.
Proof. solve_decision. Defined.

(** *** Overrides, as the entries show them *)

(** What a file whose digest is overridden looks like afterwards, given
    what it was: assigned to the category, with the floor score; the
    score vector and the rest are those of before. *)
Definition overridden (scheduleId : string) (file file' : ProcessedFile) : Prop :=
  pf_decision file' = Assigned
  /\ pf_schedule file' = Some scheduleId
  /\ pf_candidate file' = None
  /\ pf_reason file' = "review_override"
  /\ pf_score file' = SCORE_FLOOR
  /\ pf_overrideApplied file' = Some true
  /\ pf_scores file' = pf_scores file
  /\ entry_source file' = entry_source file
  /\ pf_hash file' = pf_hash file
  /\ startsWith (chars (pf_outputPath file')) (chars "706/") = true.

(** The classification of a file: all that the run decided about it. *)
Definition classification (file : ProcessedFile) :=
  (pf_decision file, pf_schedule file, pf_candidate file, pf_reason file, pf_score file,
   pf_scores file).

Definition duplicate_copy (name : string) : ProcessedFile :=
  blank_file name Duplicate (Some "A_Real_Estate").

(** *** The export, by decision *)

Definition include706 (mode : ExportMode) : bool :=
  match mode with Full | Only706 => true | _ => false end.

Definition includeDuplicates (mode : ExportMode) : bool :=
  match mode with Full | DuplicatesOnly => true | _ => false end.

Definition includeReports (mode : ExportMode) : bool :=
  match mode with Full | ReportsOnly => true | _ => false end.

(** The file is wanted in the export: a duplicate when the duplicates
    are, any other file when the [706] tree is. *)
Definition wanted (mode : ExportMode) (file : ProcessedFile) : bool :=
  match pf_decision file with
  | Duplicate => includeDuplicates mode
  | Review | Assigned => include706 mode
  end.

Definition file_entry (file : ProcessedFile) : ZipFileInput :=
  {| zi_path := pf_outputPath file; zi_file := Original file |}.

(** The three reports and one listing per digest prefix. *)
Definition report_entries (options : ZipOptions) : list ZipFileInput :=
  [ {| zi_path := "STATE/report.csv"; zi_file := Text (zo_reportCsv options) |};
    {| zi_path := "STATE/manifest.json"; zi_file := Text (zo_manifestJson options) |};
    {| zi_path := "STATE/duplicates.csv"; zi_file := Text (zo_duplicatesCsv options) |} ]
  ++ map source_paths_entry (obj_entries (zo_sourcePaths options)).

Definition sample_export (mode : ExportMode) : ZipOptions :=
  {| zo_files :=
       assignOutputPaths [blank_file "deed.pdf" Assigned (Some "A_Real_Estate");
                          duplicate_copy "deed.pdf"];
     zo_reportCsv := "name";
     zo_manifestJson := "{}";
     zo_duplicatesCsv := "hashPrefix";
     zo_sourcePaths := [("0123456789", ["estate/deed.pdf"; "estate/copy/deed.pdf"])];
     zo_exportMode := mode |}.

(** *** The duplicates report, as an account of the digests *)

(** The files with a digest, in the order of the list. *)
Definition same_digest (hash : string) (files : list ProcessedFile) : list ProcessedFile :=
  filter (fun file => pf_hash file = hash) files.

(** The digests of the files, each once, in the order of their first
    occurrence. *)
Definition digests (files : list ProcessedFile) : list string :=
  set_add_all [] (map pf_hash files).

(** The group reports the files of its digest: their number, their
    relative paths, and their names, of which one is given as kept, with
    the digest prefix of that file. *)
Definition group_accounts_for (files : list ProcessedFile) (g : DuplicateGroup) : Prop :=
  let group := same_digest (dg_hash g) files in
  dg_count g = length group
  /\ dg_sourcePaths g ≡ₚ map pf_relativePath group
  /\ dg_keptName g :: dg_duplicateNames g ≡ₚ map pf_name group
  /\ exists kept,
       kept ∈ group /\ dg_keptName g = pf_name kept /\ dg_hashPrefix g = pf_hashPrefix kept.

(** *** The text layer, page by page *)

(** The text and the number of items that a sequence of pages gives. *)
Definition pages_text (pages : list (list (option string))) : string :=
  foldr (fun items text => pdfText.page_text items +:+ text) EmptyString pages.

Definition pages_items (pages : list (list (option string))) : nat :=
  sum_list_with length pages.

(** What [extractPdfText] has read when it answers [r] on [pdf]: the
    items [pages] of the pages 1, 2, ..., none of them beyond the sampled
    ones; it stopped at the first page with which the text reached 5000
    characters, or after the last sampled page. *)
Definition samples (pdf : PdfDocument) (pages : list (list (option string)))
    (r : PdfTextResult) : Prop :=
  pt_numPages r = pdfText.or_zero (doc_numPages pdf)
  /\ pt_pagesSampled r = pdfText.min_6 (pt_numPages r)
  /\ (forall j items,
        pages !! j = Some items ->
        doc_page pdf (S j) = Normal items
        /\ num_ltb (pt_pagesSampled r) (Fin (Z.of_nat (S j))) = false)
  /\ pt_text r = pages_text pages
  /\ pt_chars r = Fin (Z.of_nat (String.length (pt_text r)))
  /\ pt_textItems r = Fin (Z.of_nat (pages_items pages))
  /\ (forall k, (k < length pages)%nat ->
                (String.length (pages_text (take k pages)) < 5000)%nat)
  /\ ((5000 <= String.length (pt_text r))%nat
      \/ num_ltb (pt_pagesSampled r) (Fin (Z.of_nat (S (length pages)))) = true).

(** A document of [n] pages without any text item: a scan. *)
Definition image_only (n : Z) : PdfDocument :=
  {| doc_numPages := Fin n; doc_page := fun _ => Normal [] |}.

(** A document of two pages, the first with two items, one of them
    without text. *)
Definition two_page_document : PdfDocument :=
  {| doc_numPages := Fin 2;
     doc_page := fun i => if (i =? 1)%nat then Normal [Some "Warranty"; None; Some "Deed"]
                          else Normal [Some "Parcel 12"] |}.

(** A page without text: none of its items has a non-empty string. *)
Definition page_without_text (pdf : PdfDocument) (i : nat) : Prop :=
  exists items, doc_page pdf i = Normal items /\ pdfText.strings items = [].

Definition scan_pdf : SelectedFile :=
  {| sf_name := "scan0001.pdf"; sf_bytes := "%PDF image"; sf_relativePath := "scan0001.pdf" |}.

(** *** App.tsx: the review views

    The memos [reviewItems], [filteredReviewItems] and [reviewClusters],
    as functions of the files on screen. *)

Inductive ReviewFilter := FilterAll | FilterScanned | FilterPdfError | FilterLowConfidence.

Definition reviewItems (processedFiles : list ProcessedFile) : list ProcessedFile :=
  filter (fun file => pf_decision file = Review) processedFiles.

Definition eqb_opt (o : option string) (s : string) : bool :=
  match o with
  | Some s' => String.eqb s' s
  | None => false
  end.

Definition filteredReviewItems (reviewSearch : string) (reviewFilter : ReviewFilter)
    (processedFiles : list ProcessedFile) : list ProcessedFile :=
  filter
    (fun file =>
       (let matchesSearch :=
          if String.eqb reviewSearch EmptyString then true
          else includes (str (toLowerCase (chars reviewSearch)))
                 (str (toLowerCase (chars (pf_name file)))) in
        if negb matchesSearch then false
        else match reviewFilter with
             | FilterAll => true
             | FilterScanned =>
                 startsWith (chars (pf_reason file)) (chars "likely_scanned_pdf")
             | FilterPdfError =>
                 startsWith (chars (pf_reason file)) (chars "pdf_parse_error")
             | FilterLowConfidence =>
                 String.eqb (pf_reason file) "low_confidence"
                 || eqb_opt (pf_candidate file) "Unknown"
             end) = true)
    (reviewItems processedFiles).

Definition reviewClusters (processedFiles : list ProcessedFile) : list Cluster :=
  let unknownItems :=
    filter
      (fun file =>
         (eqb_opt (pf_candidate file) "Unknown"
          || String.eqb (pf_reason file) "low_confidence") = true)
      (reviewItems processedFiles) in
  buildReviewClusters unknownItems.

(** A file in review has no candidate category, or one that did not
    score well enough. *)
Definition review_is_unknown_or_unsure (e : ProcessedFile) : Prop :=
  pf_decision e = Review ->
  pf_candidate e = Some "Unknown" \/ pf_reason e = "low_confidence".

(** *** Reading a CSV value back *)

(** The value that starts after an opening quote, and what follows its
    closing quote: a quote followed by a quote stands for a quote, any
    other quote closes the value. *)
Fixpoint read_value (l : list ascii) : option (list ascii * list ascii) :=
  match l with
  | [] => None
  | c :: r =>
      if ascii_dec c (ascii_of_N 34) then
        match r with
        | c' :: r' =>
            if ascii_dec c' (ascii_of_N 34) then
              match read_value r' with
              | Some (v, rest) => Some (ascii_of_N 34 :: v, rest)
              | None => None
              end
            else Some ([], r)
        | [] => Some ([], [])
        end
      else
        match read_value r with
        | Some (v, rest) => Some (c :: v, rest)
        | None => None
        end
  end.

(** The code units of a row, and of what follows a row when [rows] come
    after it. *)
Fixpoint row_chars (row : list string) : list ascii :=
  match row with
  | [] => []
  | [value] => chars (csv_value value)
  | value :: rest => chars (csv_value value) ++ ","%char :: row_chars rest
  end.

Fixpoint more_rows (rows : list (list string)) : list ascii :=
  match rows with
  | [] => []
  | row :: rest => ascii_of_N 10 :: row_chars row ++ more_rows rest
  end.

(** A row of the report with a quote, a comma and a line feed in the
    name. *)
Definition awkward_row : list string :=
  [quoted "a,b" +:+ line_feed +:+ ".pdf"; "706/A/x.pdf"; EmptyString].

(** *** Where an entry comes from *)

(** The digest of the file at [index] is [hash]. *)
Definition digest_of (hashArrayBuffer : string -> Completion string)
    (selectedFiles : list SelectedFile) (index : nat) (hash : string) : Prop :=
  exists item,
    selectedFiles !! index = Some item /\ hashArrayBuffer (sf_bytes item) = Normal hash.

(** The entry [e] was made for the file at [index]; when it is a
    duplicate, its digest is the digest of that file and of another
    selected file. *)
Definition made_for (hashArrayBuffer : string -> Completion string)
    (selectedFiles : list SelectedFile) (e : ProcessedFile) (index : nat) : Prop :=
  (exists item, selectedFiles !! index = Some item /\ entry_source e = file_source item)
  /\ (pf_decision e = Duplicate ->
      digest_of hashArrayBuffer selectedFiles index (pf_hash e)
      /\ exists other,
           other <> index /\ digest_of hashArrayBuffer selectedFiles other (pf_hash e)).

(** The entries in the order [order] of the files they were made for. *)
Definition origins_ok (hashArrayBuffer : string -> Completion string)
    (selectedFiles : list SelectedFile) (st : RunState) (order : list nat) : Prop :=
  NoDup order
  /\ Forall2 (made_for hashArrayBuffer selectedFiles) (processed (rs_store st)) order
  /\ (forall i, i ∈ order -> rs_tasks st !! i = Some Finished)
  /\ (forall i hash, rs_tasks st !! i = Some (AwaitExtract hash) ->
                     digest_of hashArrayBuffer selectedFiles i hash)
  /\ (forall hash kept, seenHashes (rs_store st) !! hash = Some kept ->
                        exists i, i ∈ order
                                  /\ digest_of hashArrayBuffer selectedFiles i hash).

(** When [resolve] has been called, as the variables of the run show it:
    no worker is in flight, and every file has been started or the run is
    aborted; the latter only if a worker could be started at all, since
    [resolve] is called by [scheduleNext] and by the [finally] callback of
    a worker, never by the cancellation itself. *)
Definition resolution_ok (selectedFiles : list SelectedFile) (concurrency : nat)
    (st : RunState) : Prop :=
  rs_resolved st = true
  <-> rs_active st = 0%nat
      /\ ((length selectedFiles <= rs_currentIndex st)%nat
          \/ (rs_aborted st = true /\ (0 < concurrency)%nat)).

(** *** The order in which the workers end *)

(** The worker that ends with [event], which led to [st']: the worker
    whose awaited promise settled, when its task is finished afterwards. *)
Definition ends (st' : RunState) (event : Event) : list nat :=
  match event with
  | Settle index =>
      if decide (rs_tasks st' !! index = Some Finished) then [index] else []
  | Abort => []
  end.

Section Endings.
Variable hashArrayBuffer : string -> Completion string.
Variable extractPdfText : string -> Completion PdfTextResult.
Variable compiledConfig : CompiledScheduleConfig.
Variable scanThresholds : ScannedDetectionThresholds.
Variable reviewOverrides : gmap string string.
Variable selectedFiles : list SelectedFile.
Variable concurrency : nat.

(** The indices of the workers that end along [events] from [st], in the
    order in which they end. *)
Fixpoint endings (st : RunState) (events : list Event) : list nat :=
  match events with
  | [] => []
  | event :: rest =>
      match step hashArrayBuffer extractPdfText compiledConfig scanThresholds
              reviewOverrides selectedFiles concurrency st event with
      | Some st' => ends st' event ++ endings st' rest
      | None => []
      end
  end.
End Endings.

(** The entry [e] has the name and the relative path of the file at
    [index]. *)
Definition entry_of (selectedFiles : list SelectedFile) (e : ProcessedFile) (index : nat)
  : Prop :=
  exists item, selectedFiles !! index = Some item /\ entry_source e = file_source item.

(** The worker of the copy ends first: it passes its three [await]s
    before the worker of the first file resumes. *)
Definition copy_first_events : list Event :=
  [Settle 1; Settle 1; Settle 1; Settle 0; Settle 0; Settle 2; Settle 2; Settle 2].

(** A PDF, a file that is no PDF under a PDF name, and a copy of the
    latter. *)
Definition broken_twice : list SelectedFile :=
  [deed_pdf "a.pdf"; broken_pdf;
   {| sf_name := "broken (1).pdf"; sf_bytes := "not a pdf";
      sf_relativePath := "estate/broken (1).pdf" |}].

Definition broken_twice_events : list Event :=
  [Settle 0; Settle 0; Settle 0; Settle 1; Settle 1; Settle 1; Settle 2; Settle 2].

(** *** Scores of assigned results *)

(** A score that is not below the floor: 18 or more, or +Infinity. *)
Definition reaches_floor (v : number) : Prop :=
  match v with
  | NaN => False
  | Infinity negative => negative = false
  | Fin z => 18 <= z
  end.

(** A text that scores 23 for real estate and 0 for stocks. *)
Definition clear_deed_input : ClassifyOptions :=
  {| filename := "scan0002.png";
     text := "Warranty deed for parcel 12";
     isPdf := false;
     config := full_config;
     pdfMetrics := None;
     scannedThresholds := default_thresholds |}.

(** A weight that is infinite (validation accepts it) on a term that does
    not occur in the text. *)
Definition infinite_weight_input : ClassifyOptions :=
  {| filename := "scan0003.png";
     text := "warranty deed";
     isPdf := false;
     config := {| cc_schedules :=
                    [ {| sd_id := "M_Mortgages";
                         sd_label := "Schedule M - Mortgages";
                         sd_keywords := [ {| wt_term := "lien";
                                             wt_weight := Infinity false |} ];
                         sd_smallTerms := [] |} ];
                  cc_filenameRules := [] |};
     pdfMetrics := None;
     scannedThresholds := default_thresholds |}.

(** *** Scanned documents *)

(** The pages that [extractPdfText] may read: from 1 to the minimum of
    [numPages] and 6. *)
Definition sampled_page (pdf : PdfDocument) (i : nat) : Prop :=
  (1 <= i)%nat
  /\ num_ltb (pdfText.min_6 (pdfText.or_zero (doc_numPages pdf))) (Fin (Z.of_nat i)) = false.

(** A scan of [n] pages: no page has a text item, and [getPage] rejects
    outside 1..[n]. *)
Definition scanned_document (n : nat) : PdfDocument :=
  {| doc_numPages := Fin (Z.of_nat n);
     doc_page := fun i => if (1 <=? i)%nat && (i <=? n)%nat then Normal []
                          else Throw (Error "Invalid page request.") |}.

(** A category with the identifier [__proto__], which validation accepts,
    beside real estate; the name matches the rule for deeds. *)
Definition proto_category_input : ClassifyOptions :=
  {| filename := "Deed_123_Main_St.pdf";
     text := "warranty deed";
     isPdf := false;
     config := {| cc_schedules :=
                    [ real_estate;
                      {| sd_id := "__proto__";
                         sd_label := "Prototype";
                         sd_keywords := [term "prototype" 20];
                         sd_smallTerms := [] |} ];
                  cc_filenameRules := [deed_rule] |};
     pdfMetrics := None;
     scannedThresholds := default_thresholds |}.

(** * Properties *)

(** ** Counting occurrences *)

Lemma startsWith_length l p : startsWith l p = true -> (length p <= length l)%nat.
Proof.
  revert l. induction p as [|a p IH]; intros l; [simpl; lia|].
  destruct l as [|b l]; simpl; [done|]. destruct (ascii_dec a b); [|done].
  intros H%IH. lia.
Qed.

Lemma find_at_unfold hay needle :
  find_at hay needle =
  if startsWith hay needle then Some 0%nat
  else match hay with
       | [] => None
       | _ :: r => S <$> find_at r needle
       end.
Proof. by destruct hay. Qed.

Lemma find_at_bound hay needle k :
  find_at hay needle = Some k -> (k + length needle <= length hay)%nat.
Proof.
  revert k. induction hay as [|c hay IH]; intros k; rewrite find_at_unfold.
  - destruct (startsWith [] needle) eqn:Hs; [|done].
    intros [= <-]. by apply startsWith_length in Hs.
  - destruct (startsWith (c :: hay) needle) eqn:Hs.
    + intros [= <-]. by apply startsWith_length in Hs.
    + destruct (find_at hay needle) as [k'|]; [|done].
      intros [= <-]. specialize (IH k' eq_refl). simpl. lia.
Qed.

Lemma indexOf_bound hay needle from i :
  indexOf hay needle from = Some i ->
  (Nat.min from (length hay) <= i /\ i + length needle <= length hay)%nat.
Proof.
  unfold indexOf. destruct (find_at _ needle) as [k|] eqn:Hk; [|done].
  intros [= <-]. apply find_at_bound in Hk. rewrite length_drop in Hk. lia.
Qed.

(** The loop of [countTermOccurrences] never uses up its fuel: above
    [length text + 1] turns, more fuel changes nothing. *)
Lemma occurrence_loop_fuel text term index count extra :
  term <> [] ->
  (forall i, index = Some i -> (i + length term <= length text)%nat) ->
  occurrence_loop (S (length text) + extra) text term index count
  = occurrence_loop (S (length text)) text term index count.
Proof.
  intros Hterm.
  assert (Hlen : (0 < length term)%nat) by (destruct term; [done | simpl; lia]).
  assert (H : forall f1 f2 index count,
             (forall i, index = Some i ->
                (i + length term <= length text
                 /\ length text - i < f1 /\ length text - i < f2)%nat) ->
             occurrence_loop f1 text term index count
             = occurrence_loop f2 text term index count).
  { induction f1 as [|f1 IH]; intros f2 idx cnt Hidx.
    - destruct idx as [i|]; [|by destruct f2].
      destruct (Hidx i eq_refl) as (_ & ? & _). lia.
    - destruct idx as [i|]; [|by destruct f2].
      destruct (Hidx i eq_refl) as (Hi & Hf1 & Hf2).
      destruct f2 as [|f2]; [lia|]. simpl. apply IH.
      intros i' Hi'. apply indexOf_bound in Hi'. lia. }
  intros Hindex. apply H. intros i Hi. specialize (Hindex i Hi). lia.
Qed.

(** ** Objects *)

Lemma eqb_decide (a b : string) : String.eqb a b = bool_decide (a = b).
Proof.
  destruct (String.eqb_spec a b);
    [rewrite bool_decide_true | rewrite bool_decide_false]; done.
Qed.

Lemma obj_has_keys {V} (o : JsObject V) k : obj_has o k = true <-> k ∈ keys o.
Proof.
  unfold obj_has, keys. rewrite existsb_exists, list_elem_of_fmap.
  split.
  - intros (p & Hp & He). apply String.eqb_eq in He. exists p.
    split; [done | by apply list_elem_of_In].
  - intros (p & -> & Hp). exists p. split; [by apply list_elem_of_In | apply String.eqb_refl].
Qed.

Lemma obj_get_None {V} (o : JsObject V) k : obj_get o k = None <-> k ∉ keys o.
Proof.
  unfold keys. induction o as [|[k' v] o IH]; simpl.
  - split; [intros _; apply not_elem_of_nil | done].
  - rewrite not_elem_of_cons. destruct (String.eqb_spec k' k) as [->|Hne]; simpl.
    + split; [done | intros [? _]; done].
    + rewrite IH. split; [intros ?; split; congruence | tauto].
Qed.

Lemma keys_obj_set {V} (o : JsObject V) k v :
  keys (obj_set o k v) =
  if decide (k = "__proto__" \/ k ∈ keys o) then keys o else keys o ++ [k].
Proof.
  unfold obj_set. rewrite eqb_decide.
  destruct (decide (k = "__proto__")) as [->|Hp].
  { rewrite bool_decide_true by done. rewrite decide_True; auto. }
  rewrite bool_decide_false by done.
  destruct (obj_has o k) eqn:Hh.
  - apply obj_has_keys in Hh. rewrite decide_True by auto.
    unfold keys. rewrite map_map. apply map_ext. intros [k' v']; simpl.
    by destruct (String.eqb_spec k' k).
  - assert (k ∉ keys o) by (rewrite <- obj_has_keys; congruence).
    rewrite decide_False by tauto. unfold keys. by rewrite map_app.
Qed.

Lemma obj_get_map_set {V} (o : JsObject V) k v k' :
  obj_get (map (fun p => if String.eqb (fst p) k then (k, v) else p) o) k' =
  if decide (k = k' /\ k ∈ keys o) then Some v else obj_get o k'.
Proof.
  unfold keys. induction o as [|[k1 v1] o IH]; simpl.
  - rewrite decide_False; [done | intros [_ H]; by apply elem_of_nil in H].
  - destruct (String.eqb_spec k1 k) as [->|Hne]; simpl.
    + destruct (String.eqb_spec k k') as [->|Hne'].
      * rewrite decide_True; [done | split; [done | left]].
      * rewrite IH. rewrite !decide_False; tauto.
    + destruct (String.eqb_spec k1 k') as [->|Hne'].
      * rewrite decide_False; [done | intros [? _]; congruence].
      * rewrite IH. destruct (decide (k = k' /\ k ∈ map fst o)) as [[? ?]|Hn].
        -- rewrite decide_True; [done | split; [done | by right]].
        -- rewrite decide_False; [done |].
           intros [? [?|?]%elem_of_cons]; [congruence | tauto].
Qed.

Lemma obj_get_app {V} (o1 o2 : JsObject V) k :
  obj_get (o1 ++ o2) k = match obj_get o1 k with Some v => Some v | None => obj_get o2 k end.
Proof.
  induction o1 as [|[k1 v1] o1 IH]; simpl; [done|].
  by destruct (String.eqb k1 k).
Qed.

Lemma obj_get_set {V} (o : JsObject V) k v k' :
  obj_get (obj_set o k v) k' =
  if decide (k = "__proto__") then obj_get o k'
  else if decide (k = k') then Some v else obj_get o k'.
Proof.
  unfold obj_set. rewrite eqb_decide.
  destruct (decide (k = "__proto__")) as [->|Hp].
  { by rewrite bool_decide_true. }
  rewrite bool_decide_false by done.
  destruct (obj_has o k) eqn:Hh.
  - apply obj_has_keys in Hh. rewrite obj_get_map_set.
    destruct (decide (k = k')) as [->|?].
    + by rewrite decide_True.
    + rewrite decide_False; tauto.
  - assert (Hn : k ∉ keys o) by (rewrite <- obj_has_keys; congruence).
    rewrite obj_get_app. simpl.
    destruct (decide (k = k')) as [->|?].
    + apply obj_get_None in Hn. rewrite Hn. by rewrite String.eqb_refl.
    + destruct (obj_get o k'); [done|].
      by destruct (String.eqb_spec k k').
Qed.

Lemma fill_scores_get (g : string -> number) schedules o k :
  obj_get (fill_scores (fun s => g (sd_id s)) schedules o) k =
  if decide (k ∈ map sd_id schedules /\ k <> "__proto__") then Some (g k)
  else obj_get o k.
Proof.
  unfold fill_scores. revert o.
  induction schedules as [|s schedules IH]; intros o; cbn [fold_left map].
  - case_decide as H; [destruct H as [H _]; by apply elem_of_nil in H | done].
  - rewrite IH, obj_get_set.
    destruct (decide (k ∈ map sd_id schedules /\ k <> "__proto__")) as [[Hin Hp]|Hn].
    + rewrite decide_True; [done | split; [by apply elem_of_cons; right | done]].
    + destruct (decide (sd_id s = "__proto__")) as [Hs|Hs].
      * rewrite decide_False; [done|]. intros [Hin Hp].
        apply elem_of_cons in Hin as [->|Hin]; [done | tauto].
      * destruct (decide (sd_id s = k)) as [<-|Hk].
        -- rewrite decide_True; [done | split; [apply elem_of_cons; by left | done]].
        -- rewrite decide_False; [done|]. intros [Hin Hp].
           apply elem_of_cons in Hin as [->|Hin]; [done | tauto].
Qed.

Lemma first_matching_rule_applies name rules rule :
  first_matching_rule name rules rule ->
  applyFilenameRules_loop name rules = Some (fr_schedule rule).
Proof.
  intros (before & after & -> & Hb & Hm).
  induction Hb as [|r before Hr _ IH]; simpl.
  - by rewrite Hm.
  - by rewrite Hr.
Qed.

(** ** C1 *)

(** C1, as amended.  When [rule] is the first filename rule matching the
    normalized filename and its target is a non-empty string, the result is
    an assignment to that target with reason [filename_rule] and score
    [SCORE_FLOOR], whatever the text.  The score vector has an entry for
    every configured identifier other than [__proto__], the floor when the
    identifier is the target and 0 otherwise, and no other entry: a
    category with the identifier [__proto__], which validation accepts,
    gets no entry, since an assignment to that key creates no property. *)
Theorem filename_rule_is_authoritative (options : ClassifyOptions) (rule : FilenameRule) :
  first_matching_rule (normalizeText (filename options))
    (cc_filenameRules (config options)) rule ->
  fr_schedule rule <> EmptyString ->
  exists scores,
    classifyDocument options =
      Normal {| cr_decision := assigned;
                cr_schedule := Some (fr_schedule rule);
                cr_candidate := None;
                cr_reason := "filename_rule";
                cr_score := SCORE_FLOOR;
                cr_scores := scores |}
    /\ forall k,
        obj_get scores k =
        if decide (k ∈ schedule_ids (config options) /\ k <> "__proto__")
        then Some (if decide (k = fr_schedule rule) then SCORE_FLOOR else Fin 0)
        else None.
Proof.
  intros Hfirst Hne.
  apply first_matching_rule_applies in Hfirst.
  unfold classifyDocument, applyFilenameRules. rewrite Hfirst. simpl.
  rewrite decide_False by done.
  eexists. split; [reflexivity|].
  intros k.
  pose proof (fill_scores_get
                (fun i : string =>
                   if decide (i = fr_schedule rule) then SCORE_FLOOR else Fin 0)
                (cc_schedules (config options)) [] k) as H.
  exact H.
Qed.

Lemma filename_rule_is_authoritative_witness :
  exists scores,
    classifyDocument deed_input =
      Normal {| cr_decision := assigned;
                cr_schedule := Some "A_Real_Estate";
                cr_candidate := None;
                cr_reason := "filename_rule";
                cr_score := SCORE_FLOOR;
                cr_scores := scores |}
    /\ forall k,
        obj_get scores k =
        if decide (k ∈ schedule_ids full_config /\ k <> "__proto__")
        then Some (if decide (k = "A_Real_Estate") then SCORE_FLOOR else Fin 0)
        else None.
Proof.
  apply (filename_rule_is_authoritative deed_input deed_rule).
  - exists [], []. split; [reflexivity|]. split; [constructor | vm_compute; reflexivity].
  - discriminate.
Defined.

(** C1 as stated fails where the target of the matching rule is not a
    configured category: the vector then has no entry for it.  It also
    fails where the target is the empty string, which is falsy: the rule is
    then ignored. *)
Lemma filename_rule_outcome_fails :
  (first_matching_rule (normalizeText (filename unconfigured_target_input))
     (cc_filenameRules (config unconfigured_target_input)) deed_rule
   /\ ~ filename_rule_outcome unconfigured_target_input deed_rule)
  /\ (first_matching_rule (normalizeText (filename blank_target_input))
        (cc_filenameRules (config blank_target_input)) blank_rule
      /\ ~ filename_rule_outcome blank_target_input blank_rule).
Proof.
  split; split.
  - exists [], []. split; [reflexivity|]. split; [constructor | vm_compute; reflexivity].
  - intros (r & Hr & _ & _ & _ & _ & Hget & _).
    vm_compute in Hr. injection Hr as <-. vm_compute in Hget. discriminate.
  - exists [], []. split; [reflexivity|]. split; [constructor | vm_compute; reflexivity].
  - intros (r & Hr & _ & Hs & _).
    vm_compute in Hr. injection Hr as <-. vm_compute in Hs. discriminate.
Qed.

Lemma no_rule_matches_None name rules :
  Forall (fun r => fr_pattern r name = false) rules ->
  applyFilenameRules_loop name rules = None.
Proof. induction 1 as [|r rules Hr _ IH]; simpl; [done | by rewrite Hr]. Qed.

(** ** C2 *)

(** C2 describes a total function; the code is not one.  With no category
    configured, no rule matching, the scanned check silent and some text,
    [sorted[0]] is [undefined] and its destructuring throws. *)
Theorem classify_without_categories_throws (options : ClassifyOptions) :
  cc_schedules (config options) = [] ->
  no_rule_matches options ->
  scanned_check options = None ->
  trim (chars (text options)) <> [] ->
  classifyDocument options = Throw (TypeError "undefined is not iterable").
Proof.
  intros Hs Hr Hc Ht. unfold classifyDocument, applyFilenameRules.
  rewrite (no_rule_matches_None _ _ Hr), Hc, Hs. simpl.
  destruct (trim (chars (text options))); [done | reflexivity].
Qed.

Lemma classify_without_categories_throws_witness :
  classifyDocument no_categories_input = Throw (TypeError "undefined is not iterable").
Proof.
  apply (classify_without_categories_throws no_categories_input).
  - reflexivity.
  - constructor.
  - reflexivity.
  - vm_compute. discriminate.
Defined.

(** ** C4 *)

(** C4, as amended.  A PDF with metrics, at least one sampled page and a
    sampled character count below the minimum goes to review with candidate
    [Unknown], score 0 and a reason that starts with [likely_scanned_pdf]
    and prints the three metrics, whatever its text, provided that no
    filename rule matches.  The score vector has a zero for every
    configured identifier other than [__proto__], and no other entry: a
    category with the identifier [__proto__], which validation accepts,
    gets no entry. *)
Theorem sparse_pdf_goes_to_review (options : ClassifyOptions) (m : PdfScanMetrics) :
  no_rule_matches options ->
  isPdf options = true ->
  pdfMetrics options = Some m ->
  num_ltb (Fin 0) (pm_pagesSampled m) = true ->
  num_ltb (pm_chars m) (minChars (scannedThresholds options)) = true ->
  exists scores,
    classifyDocument options =
      Normal {| cr_decision := review;
                cr_schedule := None;
                cr_candidate := Some "Unknown";
                cr_reason :=
                  "likely_scanned_pdf" +:+ ": low_text_layer (chars="
                  +:+ num_to_string (pm_chars m)
                  +:+ ", textItems=" +:+ num_to_string (pm_textItems m)
                  +:+ ", sampled=" +:+ num_to_string (pm_pagesSampled m) +:+ ")";
                cr_score := Fin 0;
                cr_scores := scores |}
    /\ forall k,
        obj_get scores k =
        if decide (k ∈ schedule_ids (config options) /\ k <> "__proto__")
        then Some (Fin 0) else None.
Proof.
  intros Hr Hpdf Hm Hpages Hchars.
  unfold classifyDocument, applyFilenameRules.
  rewrite (no_rule_matches_None _ _ Hr). simpl.
  unfold scanned_check. rewrite Hpdf, Hm, Hpages, Hchars. simpl.
  eexists. split; [reflexivity|].
  intros k.
  exact (fill_scores_get (fun _ => Fin 0) (cc_schedules (config options)) [] k).
Qed.

Lemma sparse_pdf_goes_to_review_witness :
  exists scores,
    classifyDocument sparse_scan_input =
      Normal {| cr_decision := review;
                cr_schedule := None;
                cr_candidate := Some "Unknown";
                cr_reason :=
                  "likely_scanned_pdf: low_text_layer (chars=40, textItems=55, sampled=1)";
                cr_score := Fin 0;
                cr_scores := scores |}
    /\ forall k,
        obj_get scores k =
        if decide (k ∈ schedule_ids full_config /\ k <> "__proto__")
        then Some (Fin 0) else None.
Proof.
  apply (sparse_pdf_goes_to_review sparse_scan_input sparse_metrics).
  - repeat constructor.
  - reflexivity.
  - reflexivity.
  - reflexivity.
  - reflexivity.
Defined.

(** C4 as stated fails for a sparse PDF whose name matches a filename
    rule: the rule wins and the document is assigned. *)
Lemma sparse_pdf_with_matching_rule :
  isPdf sparse_deed_input = true
  /\ pdfMetrics sparse_deed_input = Some sparse_metrics
  /\ num_ltb (pm_chars sparse_metrics) (minChars (scannedThresholds sparse_deed_input)) = true
  /\ ~ scanned_outcome sparse_deed_input.
Proof.
  repeat split.
  intros (r & rest & Hr & Hd & _).
  vm_compute in Hr. injection Hr as <-. discriminate.
Qed.

(** ** C10 *)

(** C10.  Whatever the input, a returned result has the schedule and not
    the candidate when it assigns, the candidate and not the schedule when
    it sends to review.  (No result is returned only where the keyword step
    has scored no entry at all.) *)
Theorem result_shape_follows_decision (options : ClassifyOptions) :
  match classifyDocument options with
  | Normal r => shape_consistent r
  | Throw _ =>
      obj_entries (fill_scores (scoreSchedule (text options))
                     (cc_schedules (config options)) []) = []
  end.
Proof.
  unfold classifyDocument, shape_consistent.
  destruct (truthy_match _); simpl; [by eauto|].
  destruct (scanned_check _); simpl; [by eauto|].
  destruct (trim _); simpl; [by eauto|].
  destruct (array_sort _ _) as [|[best bestScore] rest] eqn:Hsorted.
  - unfold array_sort in Hsorted.
    destruct (obj_entries _) as [|e es]; [done|].
    simpl in Hsorted. destruct (foldr _ _ es) as [|y r']; simpl in Hsorted; [done|].
    destruct (num_sign _); done.
  - destruct (_ || _); simpl; by eauto.
Qed.

(** ** Scores of a well-formed configuration *)

Lemma score_terms_finite text terms a :
  Forall (fun t => is_finite (wt_weight t)) terms ->
  score_terms text terms (Fin a) = Fin (a + sum_weighted text terms).
Proof.
  unfold score_terms. intros H. revert a.
  induction H as [|t terms Ht _ IH]; intros a; simpl.
  - f_equal. lia.
  - unfold weightZ. destruct (wt_weight t) as [| |w]; try done. simpl.
    rewrite IH. f_equal. lia.
Qed.

Lemma sum_weighted_app text l1 l2 :
  sum_weighted text (l1 ++ l2) = sum_weighted text l1 + sum_weighted text l2.
Proof. unfold sum_weighted. induction l1 as [|t l1 IH]; simpl; [done | rewrite IH; lia]. Qed.

Lemma scoreSchedule_finite text schedule :
  finite_weights schedule ->
  scoreSchedule text schedule = Fin (score_sum text schedule).
Proof.
  unfold finite_weights, scoreSchedule, score_sum.
  intros [Hk Hs]%Forall_app.
  rewrite (score_terms_finite _ _ 0 Hk), (score_terms_finite _ _ _ Hs).
  rewrite sum_weighted_app. f_equal.
Qed.

Lemma fill_scores_fresh value schedules o :
  NoDup (keys o ++ map sd_id schedules) ->
  "__proto__" ∉ map sd_id schedules ->
  fill_scores value schedules o = o ++ map (fun s => (sd_id s, value s)) schedules.
Proof.
  unfold fill_scores. revert o.
  induction schedules as [|s schedules IH]; intros o Hnd Hp; cbn [fold_left map].
  - by rewrite app_nil_r.
  - apply not_elem_of_cons in Hp as [Hp1 Hp2].
    assert (Hfresh : sd_id s ∉ keys o).
    { apply NoDup_app in Hnd as (_ & Hd & _). intros Hin. apply (Hd _ Hin). left. }
    assert (Hset : obj_set o (sd_id s) (value s) = o ++ [(sd_id s, value s)]).
    { unfold obj_set. rewrite eqb_decide, bool_decide_false by done.
      destruct (obj_has o (sd_id s)) eqn:Hh; [|done].
      by apply obj_has_keys in Hh. }
    rewrite Hset, IH; [by rewrite <- app_assoc | | done].
    unfold keys in *. rewrite map_app. simpl. by rewrite <- app_assoc.
Qed.

Lemma index_entries_plain {V} (o : JsObject V) :
  Forall (fun k => array_index k = None) (keys o) -> index_entries o = [].
Proof.
  induction o as [|e o IH]; simpl; [done|].
  intros [He Ho]%Forall_cons. rewrite He. auto.
Qed.

Lemma obj_entries_plain {V} (o : JsObject V) :
  Forall (fun k => array_index k = None) (keys o) -> obj_entries o = o.
Proof.
  intros H. unfold obj_entries. rewrite (index_entries_plain o H).
  cbn [map app]. unfold keys in H.
  induction o as [|e o IH]; [done|].
  apply Forall_cons in H as [He Ho].
  rewrite filter_cons_True by done. f_equal. auto.
Qed.

(** ** The ranking *)

Lemma by_score_desc_sign (x y : string * Z) :
  num_sign (by_score_desc (fst x, Fin (snd x)) (fst y, Fin (snd y))) =
  if decide (snd x < snd y) then Positive
  else if decide (snd y < snd x) then Negative else Zero.
Proof.
  unfold by_score_desc, num_sub, num_sign. simpl.
  repeat case_decide.
  - replace (snd y + - snd x <? 0) with false by (symmetry; apply Z.ltb_ge; lia).
    by replace (0 <? snd y + - snd x) with true by (symmetry; apply Z.ltb_lt; lia).
  - by replace (snd y + - snd x <? 0) with true by (symmetry; apply Z.ltb_lt; lia).
  - replace (snd y + - snd x <? 0) with false by (symmetry; apply Z.ltb_ge; lia).
    by replace (0 <? snd y + - snd x) with false by (symmetry; apply Z.ltb_ge; lia).
Qed.

Lemma array_sort_rank (l : list (string * Z)) :
  array_sort by_score_desc (as_numbers l) = as_numbers (rank l).
Proof.
  unfold array_sort, as_numbers, rank.
  induction l as [|x l IH]; simpl; [done|].
  rewrite IH. generalize (foldr insert_desc [] l). clear IH.
  intros r. induction r as [|y r IH]; simpl; [done|].
  rewrite (by_score_desc_sign x y).
  destruct (decide (snd x < snd y)) as [Hlt|Hge].
  - simpl. by rewrite IH.
  - by destruct (decide (snd y < snd x)).
Qed.

Lemma insert_desc_filter x l v :
  filter (fun e => snd e = v) (insert_desc x l) = filter (fun e => snd e = v) (x :: l).
Proof.
  induction l as [|y l IH]; simpl; [done|].
  destruct (decide (snd x < snd y)) as [Hlt|Hge]; [|done].
  rewrite (filter_cons _ y (insert_desc x l)), IH.
  rewrite !(filter_cons _ x), !(filter_cons _ y).
  repeat case_decide; try done; lia.
Qed.

Lemma insert_desc_elem x l e : e ∈ insert_desc x l <-> e = x \/ e ∈ l.
Proof.
  induction l as [|y l IH]; simpl.
  - rewrite list_elem_of_singleton, elem_of_nil. tauto.
  - destruct (decide (snd x < snd y)).
    + rewrite !elem_of_cons, IH. tauto.
    + by rewrite elem_of_cons.
Qed.

Lemma insert_desc_sorted x l :
  StronglySorted (fun a b => snd b <= snd a) l ->
  StronglySorted (fun a b => snd b <= snd a) (insert_desc x l).
Proof.
  induction 1 as [|y l Hs IH Hy]; simpl.
  - repeat constructor.
  - destruct (decide (snd x < snd y)) as [Hlt|Hge].
    + constructor; [done|].
      apply Forall_forall. intros e [->|He]%insert_desc_elem; [lia|].
      by apply (proj1 (Forall_forall _ _) Hy).
    + constructor; [by constructor|].
      constructor; [lia|].
      eapply Forall_impl; [exact Hy|]. simpl. intros; lia.
Qed.

Lemma rank_is_ranking (l : list (string * Z)) : ranked_by_score l (rank l).
Proof.
  split.
  - intros v. unfold rank. induction l as [|x l IH]; simpl; [done|].
    rewrite insert_desc_filter, !(filter_cons _ x), IH. done.
  - unfold rank. induction l as [|x l IH]; simpl; [constructor|].
    by apply insert_desc_sorted.
Qed.

Lemma ranking_head declared top best rest :
  ranked_by_score declared ((top, best) :: rest) ->
  head (filter (fun e => snd e = best) declared) = Some (top, best)
  /\ forall e, e ∈ declared -> snd e <= best.
Proof.
  intros [Hf Hs]. split.
  - rewrite <- Hf. by rewrite filter_cons_True.
  - intros e He.
    assert (Hin : e ∈ (top, best) :: rest).
    { apply (list_elem_of_filter (fun x => snd x = snd e)). rewrite Hf.
      by apply list_elem_of_filter. }
    apply StronglySorted_inv in Hs as [_ Hall].
    apply elem_of_cons in Hin as [->|Hin]; [simpl; lia|].
    exact (proj1 (Forall_forall _ _) Hall e Hin).
Qed.

(** ** C3 *)

(** The weights of a given configuration are in the exact range. *)
Ltac exact_weights_by_computation :=
  repeat match goal with
         | |- Forall _ _ => constructor
         | |- exact_weights _ _ => split
         | |- exact_integer _ => eexists; split; [reflexivity|]
         | |- (_ <= _)%Z => vm_compute; discriminate
         end.

Lemma exact_weights_finite text schedule :
  exact_weights text schedule -> finite_weights schedule.
Proof.
  intros [Hsafe _]. unfold finite_weights. eapply Forall_impl; [exact Hsafe|].
  intros t (z & -> & _). done.
Qed.

(** C3, as amended.  With at least one category, pairwise distinct
    identifiers that are neither array indices nor [__proto__], and integer
    weights for which the scores are computed without rounding (weights of
    magnitude at most 2^53; in every category the occurrences times the
    magnitudes of the weights sum to at most 2^52): when no filename rule matches, the scanned check does not
    fire and the text is not blank, every category gets the sum of
    (occurrences × weight) over its keywords and small terms, the categories
    are ranked by score, descending, ties in declaration order, and the
    result is a review with reason [low_confidence] and the top category as
    candidate when the top score is below 18 or exceeds the second score (0
    if there is none) by less than 6, an assignment to the top category with
    reason [keyword_score] otherwise; the score is the top score. *)
Theorem keyword_scoring_decides (options : ClassifyOptions) :
  no_rule_matches options ->
  scanned_check options = None ->
  trim (chars (text options)) <> [] ->
  cc_schedules (config options) <> [] ->
  NoDup (schedule_ids (config options)) ->
  Forall plain_key (schedule_ids (config options)) ->
  Forall (exact_weights (text options)) (cc_schedules (config options)) ->
  keyword_outcome options.
Proof.
  intros Hr Hc Ht Hne Hnd Hplain Hexact.
  assert (Hfin : Forall finite_weights (cc_schedules (config options))).
  { eapply Forall_impl; [exact Hexact|]. apply exact_weights_finite. }
  exists (rank (declared_scores options)).
  assert (Hscores :
    fill_scores (scoreSchedule (text options)) (cc_schedules (config options)) []
    = as_numbers (declared_scores options)).
  { rewrite fill_scores_fresh; [| exact Hnd |].
    - unfold as_numbers, declared_scores. rewrite map_map. simpl.
      apply map_ext_in. intros s Hs. simpl.
      rewrite scoreSchedule_finite; [done|].
      exact (proj1 (Forall_forall _ _) Hfin s (proj2 (list_elem_of_In _ _) Hs)).
    - intros Hin. apply (proj1 (Forall_forall _ _) Hplain) in Hin as [? _]. done. }
  assert (Hentries :
    obj_entries (as_numbers (declared_scores options))
    = as_numbers (declared_scores options)).
  { apply obj_entries_plain. unfold keys, as_numbers, declared_scores.
    rewrite !map_map. simpl. eapply Forall_impl; [exact Hplain|].
    by intros k [_ ?]. }
  destruct (rank (declared_scores options)) as [|[top best] rest] eqn:Hrank.
  { exfalso. unfold declared_scores, rank in Hrank.
    destruct (cc_schedules (config options)) as [|s ss]; [done|].
    simpl in Hrank. destruct (foldr insert_desc [] _); simpl in Hrank; [done|].
    by destruct (decide _). }
  eexists. split; [rewrite <- Hrank; apply rank_is_ranking|].
  split; [reflexivity|].
  unfold classifyDocument, applyFilenameRules.
  rewrite (no_rule_matches_None _ _ Hr), Hc. simpl.
  destruct (trim (chars (text options))); [done|].
  rewrite Hscores, Hentries, array_sort_rank, Hrank. simpl.
  assert (Hrunner :
    match as_numbers rest with [] => Fin 0 | second :: _ => snd second end
    = Fin (match rest with [] => 0 | second :: _ => snd second end)).
  { by destruct rest. }
  rewrite Hrunner. simpl.
  destruct (decide (best < 18 \/ _)) as [Hlow|Hhigh].
  - replace (_ || _) with true; [done|].
    symmetry. apply orb_true_iff. rewrite !Z.ltb_lt. lia.
  - replace (_ || _) with false; [done|].
    symmetry. apply orb_false_iff. rewrite !Z.ltb_ge. lia.
Qed.

Lemma keyword_scoring_decides_witness : keyword_outcome close_call_input.
Proof.
  apply keyword_scoring_decides.
  - constructor.
  - reflexivity.
  - vm_compute. discriminate.
  - discriminate.
  - apply (bool_decide_unpack _). vm_compute. exact I.
  - repeat constructor; vm_compute; (discriminate || reflexivity).
  - exact_weights_by_computation.
Defined.

(** C3 as stated fails for identifiers that are array indices, which an
    object lists in ascending order whatever the order of insertion (the
    tie goes to the category declared last), and for an identifier
    declared twice, whose entry keeps the last score only. *)
Lemma keyword_outcome_fails :
  (no_rule_matches years_input
   /\ scanned_check years_input = None
   /\ trim (chars (text years_input)) <> []
   /\ ~ keyword_outcome years_input)
  /\ (no_rule_matches repeated_id_input
      /\ scanned_check repeated_id_input = None
      /\ trim (chars (text repeated_id_input)) <> []
      /\ ~ keyword_outcome repeated_id_input).
Proof.
  split; (split; [constructor|]); (split; [reflexivity|]);
    (split; [vm_compute; discriminate|]).
  - intros (ranked & r & Hrank & Hdec & Hr).
    vm_compute in Hr. injection Hr as <-.
    destruct ranked as [|[top best] rest]; [done|].
    apply ranking_head in Hrank as [Hhead _].
    simpl in Hdec. injection Hdec as Hdec.
    assert (Hc : Some top = Some "2024" /\ Fin best = Fin 20).
    { destruct (decide _); by inversion Hdec. }
    destruct Hc as [Htop Hbest]. injection Hbest as ->.
    vm_compute in Hhead. congruence.
  - intros (ranked & r & Hrank & Hdec & Hr).
    vm_compute in Hr. injection Hr as <-.
    destruct ranked as [|[top best] rest]; [done|].
    apply ranking_head in Hrank as [_ Hmax].
    simpl in Hdec. injection Hdec as Hdec.
    assert (Hb : Fin best = Fin 0).
    { destruct (decide _); by inversion Hdec. }
    injection Hb as ->.
    specialize (Hmax ("A_Real_Estate", 20)).
    assert (("A_Real_Estate", 20) ∈ declared_scores repeated_id_input) as Hin.
    { vm_compute. left. }
    apply Hmax in Hin. simpl in Hin. lia.
Qed.

(** ** Validation *)

Lemma checks_bind c1 (k : list string -> Completion (list string)) errors V1 V2 :
  checks c1 errors V1 ->
  (forall errors1, checks (k errors1) errors1 V2) ->
  checks (errors1 ← c1; k errors1) errors (V1 /\ V2).
Proof.
  unfold checks. intros H1 H2.
  destruct c1 as [errors1|e]; simpl; [|tauto].
  destruct H1 as (e1 & -> & He1). specialize (H2 (errors ++ e1)).
  unfold mbind, Completion_bind, cbind.
  destruct (k (errors ++ e1)) as [errors2|e]; [|tauto].
  destruct H2 as (e2 & -> & He2). exists (e1 ++ e2).
  split; [by rewrite app_assoc|].
  rewrite <- He1, <- He2. split.
  - by intros [-> ->]%app_eq_nil.
  - by intros [-> ->].
Qed.

Lemma checks_iff c errors V1 V2 : (V1 <-> V2) -> checks c errors V1 -> checks c errors V2.
Proof.
  unfold checks. intros HV. destruct c as [errors'|e]; [|tauto].
  intros (extra & -> & H). exists extra. split; [done | tauto].
Qed.

Lemma checks_pure (bad : bool) errors message V :
  (bad = false <-> V) ->
  checks (Normal (if bad then errors ++ [message] else errors)) errors V.
Proof.
  intros HV. destruct bad; simpl.
  - exists [message]. split; [done|]. split; [done|].
    intros HVt. apply HV in HVt. done.
  - exists []. split; [by rewrite app_nil_r|]. split; [|done]. intros _. by apply HV.
Qed.

Lemma checks_report (bad : bool) (sid : Completion string) (message : string -> string)
    errors V :
  (bad = false <-> V) ->
  checks (if bad then s ← sid; Normal (errors ++ [message s]) else Normal errors) errors V.
Proof.
  intros HV. destruct bad.
  - assert (HnV : ~ V) by (intros HVt; apply HV in HVt; done).
    unfold mbind, Completion_bind, cbind. destruct sid as [s|e]; simpl; [|done].
    exists [message s]. split; [done|]. split; [done | tauto].
  - simpl. exists []. split; [by rewrite app_nil_r|]. split; [|done]. intros _. by apply HV.
Qed.

Lemma typeof_string v : negb (String.eqb (typeof v) "string") = false <-> is_string v.
Proof.
  unfold is_string. destruct v; simpl; split; try done; try (intros [? ?]; done).
  intros _. eauto.
Qed.

Lemma weight_check v :
  negb (String.eqb (typeof v) "number") || isNaN v = false <-> is_weight v.
Proof.
  unfold is_weight. destruct v as [| | |n| | |]; simpl; split; try done;
    try (intros (? & ? & ?); done).
  - destruct n; simpl; try done; intros _; eexists; split; done.
  - intros (n' & [= <-] & Hn). by destruct n.
Qed.

Lemma nonempty_string_check v : negb (nonempty_string v) = false <-> is_nonempty_string v.
Proof.
  unfold nonempty_string, is_nonempty_string.
  destruct v as [| | | |s| |]; simpl; split; try done; try (intros (? & ? & ?); done).
  - rewrite negb_false_iff, negb_true_iff. intros H%String.eqb_neq. eauto.
  - intros (s' & [= <-] & Hs). rewrite negb_false_iff, negb_true_iff.
    by apply String.eqb_neq.
Qed.

Lemma check_terms_checks kind schedule termIndex terms errors :
  checks (check_terms kind schedule termIndex terms errors) errors (Forall valid_term terms).
Proof.
  revert termIndex errors.
  induction terms as [|keyword rest IH]; intros termIndex errors.
  - simpl. exists []. split; [by rewrite app_nil_r | done].
  - cbn [check_terms].
    destruct (nullish keyword) eqn:Hnull.
    { assert (Hinv : ~ valid_term keyword).
      { intros [[s Hs] _]. destruct keyword; done. }
      destruct keyword; try done; simpl; by intros [? _]%Forall_cons. }
    assert (Hget : forall name, get_prop keyword name = Normal (read keyword name)).
    { intros name. by destruct keyword. }
    rewrite !Hget. unfold mbind at 1, Completion_bind at 1, cbind at 1.
    eapply checks_iff;
      [| apply (checks_bind _ _ errors (is_string (read keyword "term"))
                  (is_weight (read keyword "weight") /\ Forall valid_term rest))].
    + rewrite Forall_cons. unfold valid_term. tauto.
    + apply (checks_report _ _
               (fun sid => "Schedule " +:+ quoted sid +:+ " " +:+ kind +:+ " "
                           +:+ pretty termIndex +:+ " term must be a string.")).
      apply typeof_string.
    + intros errors1. unfold mbind at 1, Completion_bind at 1, cbind at 1.
      apply checks_bind; [|intros errors2; apply IH].
      apply (checks_report _ _
               (fun sid => "Schedule " +:+ quoted sid +:+ " " +:+ kind +:+ " "
                           +:+ pretty termIndex +:+ " weight must be a number.")).
      apply weight_check.
Qed.

Lemma check_entries_checks kind schedule v errors :
  checks (terms ← entries_or_empty v; check_terms kind schedule 0 terms errors)
    errors (terms_ok v).
Proof.
  destruct v; simpl; try tauto; try (exists []; split; [by rewrite app_nil_r | done]).
  apply check_terms_checks.
Qed.

Lemma isArray_check v : negb (isArray v) = false <-> exists items, v = VArray items.
Proof.
  destruct v; simpl; split; try done; try (intros [? ?]; done). intros _. eauto.
Qed.

Lemma array_terms_ok v :
  (exists items, v = VArray items) /\ terms_ok v <-> is_array_of valid_term v.
Proof.
  unfold is_array_of. split.
  - intros [[items ->] H]. eauto.
  - intros (items & -> & H). eauto.
Qed.

(** [check_schedule] with its two plain assignments written as steps. *)
Lemma check_schedule_steps regexp_index schedule errors :
  check_schedule regexp_index schedule errors =
  if negb (truthy schedule) || negb (String.eqb (typeof schedule) "object") then
    Normal (errors ++ ["Schedule at index " +:+ pretty regexp_index
                         +:+ " must be an object."])
  else
    errors ←
      Normal (if negb (nonempty_string (read schedule "id")) then
                errors ++ ["Schedule at index " +:+ pretty regexp_index
                             +:+ " is missing a valid id."]
              else errors);
    errors ←
      Normal (if negb (nonempty_string (read schedule "label")) then
                errors ++ ["Schedule at index " +:+ pretty regexp_index
                             +:+ " is missing a valid label."]
              else errors);
    errors ←
      (if negb (isArray (read schedule "keywords")) then
         sid ← to_string (read schedule "id");
         Normal (errors ++ ["Schedule " +:+ quoted sid +:+ " keywords must be an array."])
       else Normal errors);
    errors ←
      (if negb (isArray (read schedule "smallTerms")) then
         sid ← to_string (read schedule "id");
         Normal (errors ++ ["Schedule " +:+ quoted sid +:+ " smallTerms must be an array."])
       else Normal errors);
    errors ← (keywords ← entries_or_empty (read schedule "keywords");
              check_terms "keyword" schedule 0 keywords errors);
    smallTerms ← entries_or_empty (read schedule "smallTerms");
    check_terms "smallTerm" schedule 0 smallTerms errors.
Proof.
  unfold check_schedule. destruct (_ || _); [done|].
  unfold mbind, Completion_bind, cbind.
  repeat (destruct (negb _)); simpl; repeat case_match; done.
Qed.

Lemma check_schedule_checks index schedule errors :
  checks (check_schedule index schedule errors) errors (valid_schedule schedule).
Proof.
  rewrite check_schedule_steps.
  destruct (negb (truthy schedule) || negb (String.eqb (typeof schedule) "object")) eqn:Hobj.
  { exists ["Schedule at index " +:+ pretty index +:+ " must be an object."].
    split; [done|]. split; [done|].
    intros [(s & Hs & _) _]. destruct schedule; done. }
  eapply checks_iff; [| apply checks_bind; [apply checks_pure, nonempty_string_check|] ].
  2:{ intros errors1.
      apply checks_bind; [apply checks_pure, nonempty_string_check|].
      intros errors2.
      apply checks_bind.
      { apply (checks_report _ _
                 (fun sid => "Schedule " +:+ quoted sid +:+ " keywords must be an array.")).
        apply isArray_check. }
      intros errors3. apply checks_bind.
      { apply (checks_report _ _
                 (fun sid => "Schedule " +:+ quoted sid +:+ " smallTerms must be an array.")).
        apply isArray_check. }
      intros errors4.
      apply checks_bind; [apply check_entries_checks|].
      intros errors5. apply check_entries_checks. }
  unfold valid_schedule.
  rewrite <- (array_terms_ok (read schedule "keywords")),
    <- (array_terms_ok (read schedule "smallTerms")).
  tauto.
Qed.

Lemma check_schedules_checks index schedules errors :
  checks (check_schedules index schedules errors) errors (Forall valid_schedule schedules).
Proof.
  revert index errors.
  induction schedules as [|schedule rest IH]; intros index errors; cbn [check_schedules].
  - exists []. split; [by rewrite app_nil_r | done].
  - eapply checks_iff; [| apply checks_bind; [apply check_schedule_checks|] ].
    + symmetry. apply Forall_cons.
    + intros errors1. apply IH.
Qed.

Section ValidateProperties.
Variable regexp_error : string -> option string.

Lemma check_rule_checks index rule errors :
  checks (Normal (check_rule regexp_error index rule errors)) errors
    (valid_rule regexp_error rule).
Proof.
  unfold check_rule.
  destruct (negb (truthy rule) || negb (String.eqb (typeof rule) "object")) eqn:Hobj.
  { exists ["Filename rule at index " +:+ pretty index +:+ " must be an object."].
    split; [done|]. split; [done|].
    intros [_ (s & Hs & _)]. destruct rule; done. }
  pose proof (checks_bind
    (Normal (match read rule "pattern" with
             | VString pattern =>
                 if String.eqb pattern EmptyString then
                   errors ++ ["Filename rule at index " +:+ pretty index
                                +:+ " pattern must be a string."]
                 else
                   match regexp_error pattern with
                   | Some error =>
                       errors ++ ["Filename rule " +:+ quoted pattern
                                    +:+ " is not a valid regex: " +:+ error]
                   | None => errors
                   end
             | _ =>
                 errors ++ ["Filename rule at index " +:+ pretty index
                              +:+ " pattern must be a string."]
             end))
    (fun errors1 =>
       Normal (if negb (nonempty_string (read rule "schedule")) then
                 errors1 ++ ["Filename rule at index " +:+ pretty index
                               +:+ " schedule must be a string."]
               else errors1))
    errors
    (exists p, read rule "pattern" = VString p /\ p <> EmptyString /\ regexp_error p = None)
    (is_nonempty_string (read rule "schedule"))) as Hb.
  apply Hb; clear Hb.
  - destruct (read rule "pattern") as [| | | |p| |];
      try (eexists [_]; split; [done|]; split; [done | intros (? & ? & _); done]).
    destruct (String.eqb_spec p EmptyString) as [->|Hp].
    { eexists [_]. split; [done|]. split; [done|].
      intros (? & [= <-] & ? & _). done. }
    destruct (regexp_error p) as [error|] eqn:Hre.
    { eexists [_]. split; [done|]. split; [done|].
      intros (? & [= <-] & _ & ?). congruence. }
    exists []. split; [by rewrite app_nil_r|]. split; [|done]. intros _. eauto.
  - intros errors1. apply checks_pure, nonempty_string_check.
Qed.

Lemma check_rules_checks index rules errors :
  checks (Normal (check_rules regexp_error index rules errors)) errors
    (Forall (valid_rule regexp_error) rules).
Proof.
  revert index errors.
  induction rules as [|rule rest IH]; intros index errors; cbn [check_rules].
  - exists []. split; [by rewrite app_nil_r | done].
  - eapply checks_iff; [symmetry; apply Forall_cons|].
    exact (checks_bind _ (fun errors1 => Normal (check_rules regexp_error (S index) rest errors1))
             errors _ _ (check_rule_checks index rule errors)
             (fun errors1 => IH (S index) errors1)).
Qed.

Lemma array_or_empty_valid (P : JsVal -> Prop) v :
  negb (isArray v) = false /\ Forall P (array_or_empty v) <-> is_array_of P v.
Proof.
  unfold is_array_of. destruct v; simpl; split; try (intros [? ?]; done);
    try (intros (? & ? & ?); done).
  - intros [_ H]. eauto.
  - intros (items' & [= <-] & H). done.
Qed.

(** ** C8 *)

(** C8, as amended.  Whenever [validateScheduleConfig] returns, it returns
    either the input itself as configuration with no error, exactly when
    the input is structurally valid, or no configuration and at least one
    error.  Valid means: both arrays present, every category with a
    non-empty id and label and two arrays of terms, every term with a string
    and a weight that is a number other than NaN (an infinite weight
    passes), every rule with a non-empty pattern that compiles and a
    non-empty target.  On a valid input it does return; an error thrown
    while checking arises on invalid inputs only and adopts nothing. *)
Theorem validation_is_all_or_nothing (raw : JsVal) :
  match validateScheduleConfig regexp_error raw with
  | Normal r =>
      (valid_config regexp_error raw /\ r = {| vr_config := Some raw; vr_errors := [] |})
      \/ (~ valid_config regexp_error raw /\ vr_config r = None /\ vr_errors r <> [])
  | Throw _ => ~ valid_config regexp_error raw
  end.
Proof.
  unfold validateScheduleConfig.
  destruct (negb (truthy raw) || negb (String.eqb (typeof raw) "object")) eqn:Hobj.
  { right. split; [|done]. intros [(items & Hr & _) _]. destruct raw; done. }
  pose proof (checks_bind
    (Normal ((if negb (isArray (read raw "schedules"))
              then [] ++ ["Config.schedules must be an array."] else [])))
    (fun errors0 =>
       errors1 ← Normal (if negb (isArray (read raw "filenameRules"))
                          then errors0 ++ ["Config.filenameRules must be an array."]
                          else errors0);
       errors2 ← check_schedules 0 (array_or_empty (read raw "schedules")) errors1;
       Normal (check_rules regexp_error 0 (array_or_empty (read raw "filenameRules")) errors2))
    [] _ _
    (checks_pure _ [] _ _ (reflexivity _))
    (fun errors0 =>
       checks_bind _ _ errors0 _ _
         (checks_pure _ errors0 _ _ (reflexivity _))
         (fun errors1 =>
            checks_bind _ _ errors1 _ _
              (check_schedules_checks 0 _ errors1)
              (fun errors2 => check_rules_checks 0 _ errors2)))) as H.
  unfold mbind at 1 2, Completion_bind at 1 2, cbind at 1 2 in H.
  assert (Hvalid :
    negb (isArray (read raw "schedules")) = false
    /\ negb (isArray (read raw "filenameRules")) = false
    /\ Forall valid_schedule (array_or_empty (read raw "schedules"))
    /\ Forall (valid_rule regexp_error) (array_or_empty (read raw "filenameRules"))
    <-> valid_config regexp_error raw).
  { unfold valid_config.
    rewrite <- (array_or_empty_valid valid_schedule),
      <- (array_or_empty_valid (valid_rule regexp_error)). tauto. }
  apply (checks_iff _ _ _ _ Hvalid) in H. clear Hvalid.
  unfold mbind, Completion_bind, cbind in *. simpl in H.
  destruct (check_schedules _ _ _) as [errors2|e]; [|done].
  simpl in H. destruct H as (extra & Hextra & Hiff). simpl in Hextra.
  rewrite Hextra.
  destruct extra as [|m extra]; simpl.
  - left. split; [by apply Hiff | done].
  - right. split; [|done]. intros Hv. apply Hiff in Hv. done.
Qed.
End ValidateProperties.

(** C8 as stated fails in two ways: a configuration with an infinite
    weight passes every check and is returned, and a keyword list that is a
    string, or contains [null], makes the validator throw a [TypeError]
    instead of returning errors. *)
Lemma validation_accepts_infinity_and_throws :
  validateScheduleConfig sample_regexp_error infinite_weight_config
  = Normal {| vr_config := Some infinite_weight_config; vr_errors := [] |}
  /\ ~ is_finite_weight (VNumber (Infinity false))
  /\ validateScheduleConfig sample_regexp_error keywords_string_config
     = Throw (TypeError "(intermediate value).entries is not a function")
  /\ validateScheduleConfig sample_regexp_error null_keyword_config
     = Throw (TypeError "Cannot read properties of null").
Proof.
  split; [vm_compute; reflexivity|].
  split; [intros [z Hz]; discriminate|].
  split; vm_compute; reflexivity.
Qed.

(** ** Strings *)

Lemma str_chars s : str (chars s) = s.
Proof. apply string_of_list_ascii_of_string. Qed.

Lemma chars_str l : chars (str l) = l.
Proof. apply list_ascii_of_string_of_list_ascii. Qed.

Lemma chars_app a b : chars (a +:+ b) = chars a ++ chars b.
Proof. induction a as [|c a IH]; simpl; [done | by rewrite IH]. Qed.

Lemma chars_inj a b : chars a = chars b -> a = b.
Proof. intros H. by rewrite <- (str_chars a), <- (str_chars b), H. Qed.

Lemma chars_nil s : chars s = [] <-> s = EmptyString.
Proof. destruct s; simpl; split; done. Qed.

Lemma string_app_inv_tail a b c : a +:+ c = b +:+ c -> a = b.
Proof.
  intros H. apply chars_inj. apply (f_equal chars) in H.
  rewrite !chars_app in H. by apply app_inv_tail in H.
Qed.

Lemma dup_candidate_inj base ext : Inj (=) (=) (dup_candidate base ext).
Proof.
  intros n m H. unfold dup_candidate in H.
  apply (inj (String.app base)) in H.
  apply (inj (String.app "__dup")) in H.
  apply string_app_inv_tail in H. by apply (inj pretty) in H.
Qed.

Lemma pretty_N_go_no_slash x s :
  "/"%char ∉ chars s -> "/"%char ∉ chars (pretty_N_go x s).
Proof.
  revert s. induction (N.lt_wf_0 x) as [x _ IH]; intros s Hs.
  assert (x = 0 \/ 0 < x)%N as [->|Hx] by lia.
  - by rewrite pretty_N_go_0.
  - rewrite pretty_N_go_step by done. apply IH.
    { by apply N.div_lt. }
    simpl. apply not_elem_of_cons. split; [|done].
    unfold pretty_N_char. by repeat case_match.
Qed.

Lemma pretty_nat_no_slash (n : nat) : "/"%char ∉ chars (pretty n).
Proof.
  unfold pretty, pretty_nat, pretty, pretty_N.
  case_decide.
  - simpl. rewrite not_elem_of_cons. split; [done | apply not_elem_of_nil].
  - apply pretty_N_go_no_slash. apply not_elem_of_nil.
Qed.

(** ** Unique file names *)

Lemma dup_loop_spec fuel base ext usedNames counter :
  let c := dup_loop fuel base ext usedNames counter in
  (counter <= c)%nat
  /\ (forall i, (counter <= i < c)%nat -> dup_candidate base ext i ∈ usedNames)
  /\ (dup_candidate base ext c ∉ usedNames \/ c = (counter + fuel)%nat).
Proof.
  revert counter. induction fuel as [|fuel IH]; intros counter; simpl.
  - split; [lia|]. split; [intros; lia | right; lia].
  - destruct (decide (dup_candidate base ext counter ∈ usedNames)) as [Hin|Hout].
    + specialize (IH (S counter)) as (Hle & Hused & Hend).
      split; [lia|]. split.
      * intros i Hi. destruct (decide (i = counter)) as [->|?]; [done|].
        apply Hused. lia.
      * destruct Hend as [? | ->]; [by left | right; lia].
    + split; [lia|]. split; [intros; lia | by left].
Qed.

Lemma dup_loop_free base ext usedNames :
  dup_candidate base ext (dup_loop (S (size usedNames)) base ext usedNames 1) ∉ usedNames.
Proof.
  pose proof (dup_loop_spec (S (size usedNames)) base ext usedNames 1) as (_ & Hused & Hend).
  cbv zeta in Hused, Hend.
  destruct Hend as [?|Hc]; [done|]. exfalso.
  set (l := dup_candidate base ext <$> seq 1 (S (size usedNames))).
  assert (Hnd : NoDup l).
  { apply (@NoDup_fmap_2 _ _ _ (dup_candidate_inj base ext)). apply NoDup_seq. }
  assert (Hsub : list_to_set l ⊆ usedNames).
  { intros x Hx. apply elem_of_list_to_set in Hx.
    apply list_elem_of_fmap in Hx as (i & -> & Hi).
    apply elem_of_seq in Hi. apply Hused. lia. }
  apply subseteq_size in Hsub. rewrite size_list_to_set in Hsub by done.
  unfold l in Hsub. rewrite length_fmap, length_seq in Hsub. lia.
Qed.

Lemma lastIndexOf_None l c : lastIndexOf l c = None -> c ∉ l.
Proof.
  induction l as [|a l IH]; simpl; [intros _; apply not_elem_of_nil|].
  destruct (lastIndexOf l c); [done|].
  destruct (ascii_dec a c); [done|]. intros _.
  apply not_elem_of_cons. split; [congruence | by apply IH].
Qed.

Lemma lastIndexOf_Some l c i :
  lastIndexOf l c = Some i -> exists rest, drop i l = c :: rest /\ c ∉ rest.
Proof.
  revert i. induction l as [|a l IH]; intros i; simpl; [done|].
  destruct (lastIndexOf l c) as [j|] eqn:Hl.
  - intros [= <-]. simpl. by apply IH.
  - destruct (ascii_dec a c) as [->|]; [|done].
    intros [= <-]. exists l. split; [done | by apply lastIndexOf_None].
Qed.

Lemma ensureUniqueFilename_disambiguates name usedNames :
  disambiguates name usedNames (ensureUniqueFilename name usedNames).
Proof.
  unfold ensureUniqueFilename, disambiguates.
  destruct (decide (name ∈ usedNames)) as [Hin|Hout]; cbn [fst snd].
  2:{ repeat split; done. }
  split; [apply dup_loop_free|]. split; [done|]. split; [done|]. intros _.
  pose proof (dup_loop_spec (S (size usedNames))
    (match lastIndexOf (chars name) "." with
     | Some i => str (take i (chars name)) | None => name end)
    (match lastIndexOf (chars name) "." with
     | Some i => str (drop i (chars name)) | None => EmptyString end)
    usedNames 1) as (Hle & Hused & _).
  cbv zeta in Hle, Hused.
  eexists _, _, _. split; [|split; [exact Hle | split; [reflexivity | exact Hused]]].
  unfold splits_at_extension, contains_char.
  destruct (lastIndexOf (chars name) ".") as [i|] eqn:Hdot.
  - split.
    + apply chars_inj. by rewrite chars_app, !chars_str, take_drop.
    + right. apply lastIndexOf_Some in Hdot as (rest & Hdrop & Hrest).
      exists (str rest). rewrite Hdrop, chars_str. split; [|done].
      apply chars_inj. by rewrite chars_app, !chars_str.
  - split.
    + apply chars_inj. by rewrite chars_app, app_nil_r.
    + left. split; [done | by apply lastIndexOf_None].
Qed.

Lemma ensureUniqueFilename_no_slash name usedNames :
  "/"%char ∉ chars name ->
  "/"%char ∉ chars (fst (ensureUniqueFilename name usedNames)).
Proof.
  intros Hname. unfold ensureUniqueFilename.
  destruct (decide (name ∈ usedNames)); cbn [fst]; [|done].
  unfold dup_candidate. rewrite !chars_app, !not_elem_of_app.
  assert (Hparts : forall i,
             ("/"%char ∉ take i (chars name)) /\ ("/"%char ∉ drop i (chars name))).
  { intros i. rewrite <- (take_drop i (chars name)) in Hname.
    by apply not_elem_of_app in Hname. }
  split; [|split; [|split]].
  - destruct (lastIndexOf _ _) as [i|]; [|done]. rewrite chars_str. apply Hparts.
  - vm_compute. intros H. repeat (apply elem_of_cons in H as [H|H]; [done|]).
    by apply elem_of_nil in H.
  - apply pretty_nat_no_slash.
  - destruct (lastIndexOf _ _) as [i|]; [|apply not_elem_of_nil].
    rewrite chars_str. apply Hparts.
Qed.

(** ** Folders and paths *)

Lemma split_on_segments sep l :
  split_on sep l <> [] /\ Forall (fun segment => sep ∉ segment) (split_on sep l).
Proof.
  induction l as [|c l [Hne Hall]]; simpl.
  - split; [done|]. repeat constructor. apply not_elem_of_nil.
  - destruct (ascii_dec c sep) as [->|Hc].
    + split; [done|]. constructor; [apply not_elem_of_nil | done].
    + destruct (split_on sep l) as [|h t]; [done|].
      split; [done|]. apply Forall_cons in Hall as [Hh Ht].
      constructor; [|done]. apply not_elem_of_cons. split; [congruence | done].
Qed.

Lemma pop_nonempty {A} (l : list A) :
  l <> [] -> exists x rest, pop l = (Some x, rest) /\ x ∈ l.
Proof.
  induction l as [|a l IH]; [done|]. intros _.
  destruct l as [|b l].
  - exists a, []. split; [done | left].
  - destruct IH as (x & rest & Hpop & Hx); [done|].
    exists x, (a :: rest). split; [|by right].
    change (pop (a :: b :: l)) with (let '(o, r') := pop (b :: l) in (o, a :: r')).
    by rewrite Hpop.
Qed.

Lemma path_in_inj dir1 name1 dir2 name2 :
  "/"%char ∉ chars name1 -> "/"%char ∉ chars name2 ->
  path_in dir1 name1 = path_in dir2 name2 -> dir1 = dir2 /\ name1 = name2.
Proof.
  intros H1 H2. unfold path_in.
  assert (Hlen : forall d, (0 <? String.length d)%nat = false -> d = EmptyString).
  { intros [|c d]; [done|]. simpl. done. }
  assert (Hslash : forall d n, "/"%char ∈ chars (d +:+ "/" +:+ n)).
  { intros d n. rewrite !chars_app. apply elem_of_app. right. left. }
  destruct (0 <? String.length dir1)%nat eqn:Hd1, (0 <? String.length dir2)%nat eqn:Hd2.
  - intros H. apply (f_equal chars) in H. rewrite !chars_app in H. simpl in H.
    apply not_elem_of_app_cons_inv_r in H as (Hd & _ & Hn); [|done..].
    split; by apply chars_inj.
  - intros <-. by destruct (H2 (Hslash _ _)).
  - intros ->. by destruct (H1 (Hslash _ _)).
  - intros ->. by rewrite (Hlen _ Hd1), (Hlen _ Hd2).
Qed.

Lemma join_split sep l : join_with sep (split_on sep l) = l.
Proof.
  induction l as [|c l IH]; simpl; [done|].
  destruct (split_on_segments sep l) as [Hne _].
  destruct (ascii_dec c sep) as [->|Hc].
  - destruct (split_on sep l) as [|h t]; [done|].
    change (join_with sep ([] :: h :: t)) with ([] ++ sep :: join_with sep (h :: t)).
    by rewrite IH.
  - destruct (split_on sep l) as [|h t]; [done|].
    destruct t as [|h' t]; [simpl in *; by rewrite IH|].
    change (join_with sep ((c :: h) :: h' :: t))
      with (c :: (h ++ sep :: join_with sep (h' :: t))).
    change (join_with sep (h :: h' :: t))
      with (h ++ sep :: join_with sep (h' :: t)) in IH.
    by rewrite IH.
Qed.

Lemma pop_join sep (segments : list (list ascii)) f rest :
  pop segments = (Some f, rest) ->
  join_with sep segments =
  match rest with
  | [] => f
  | _ :: _ => join_with sep rest ++ sep :: f
  end.
Proof.
  revert rest. induction segments as [|h t IH]; intros rest; [done|].
  destruct t as [|h' t].
  - simpl. by intros [= <- <-].
  - change (pop (h :: h' :: t)) with (let '(o, r') := pop (h' :: t) in (o, h :: r')).
    destruct (pop (h' :: t)) as [o r'] eqn:Hpop. intros [= -> <-].
    specialize (IH r' eq_refl).
    change (join_with sep (h :: h' :: t)) with (h ++ sep :: join_with sep (h' :: t)).
    rewrite IH. destruct r' as [|r1 r']; [done|].
    change (join_with sep (h :: r1 :: r')) with (h ++ sep :: join_with sep (r1 :: r')).
    by rewrite <- app_assoc.
Qed.

Lemma base_path_has_folder file : "/"%char ∈ chars (buildBaseOutputPath file).
Proof.
  unfold buildBaseOutputPath.
  destruct (pf_decision file); rewrite chars_app; apply elem_of_app; left;
    vm_compute; repeat (try (left; fail); right).
Qed.

(** What one call of the callback does: the path is [path_in dir name] for
    a name without slash that was free in the folder and is used after. *)
(** What one call of the callback does. *)
Lemma assign_one_step usedNamesByFolder file :
  assigns_in_folder usedNamesByFolder file (assign_one usedNamesByFolder file).
Proof.
  unfold assigns_in_folder, assign_one.
  destruct (split_on_segments "/" (chars (buildBaseOutputPath file))) as [Hne Hall].
  destruct (pop_nonempty _ Hne) as (f & segments & Hpop & Hf).
  rewrite Hpop.
  assert (Hslash : "/"%char ∉ f) by exact (proj1 (Forall_forall _ _) Hall f Hf).
  exists (str (join_with "/" segments)), (str f).
  destruct (ensureUniqueFilename (str f) _) as [uniqueName used] eqn:Hunique.
  cbn [fst snd]. split; [|split; [|split]]; try done.
  - apply chars_inj. rewrite !chars_app, !chars_str. simpl.
    rewrite <- (join_split "/" (chars (buildBaseOutputPath file))) at 1.
    rewrite (pop_join _ _ _ _ Hpop).
    destruct segments; [|done].
    exfalso. pose proof (base_path_has_folder file) as Hin.
    rewrite <- (join_split "/" (chars (buildBaseOutputPath file))) in Hin.
    rewrite (pop_join _ _ _ _ Hpop) in Hin. done.
  - unfold contains_char. by rewrite chars_str.
Qed.

Lemma assign_one_spec usedNamesByFolder file :
  exists dir name,
    pf_outputPath (snd (assign_one usedNamesByFolder file)) = path_in dir name
    /\ ("/"%char ∉ chars name)
    /\ (name ∉ default ∅ (usedNamesByFolder !! dir))
    /\ fst (assign_one usedNamesByFolder file)
       = <[dir := {[name]} ∪ default ∅ (usedNamesByFolder !! dir)]> usedNamesByFolder.
Proof.
  destruct (assign_one_step usedNamesByFolder file)
    as (dir & filename & _ & Hslash & Hpath & Hmap).
  pose proof (ensureUniqueFilename_disambiguates filename
                (default ∅ (usedNamesByFolder !! dir))) as (Hfree & Hused & _).
  pose proof (ensureUniqueFilename_no_slash filename
                (default ∅ (usedNamesByFolder !! dir)) Hslash) as Hname.
  exists dir, (fst (ensureUniqueFilename filename (default ∅ (usedNamesByFolder !! dir)))).
  rewrite Hused in Hmap. done.
Qed.

Lemma assign_loop_fresh usedNamesByFolder files :
  NoDup (map pf_outputPath (assign_loop usedNamesByFolder files))
  /\ forall p, p ∈ assign_loop usedNamesByFolder files ->
       exists dir name,
         pf_outputPath p = path_in dir name
         /\ ("/"%char ∉ chars name)
         /\ (name ∉ default ∅ (usedNamesByFolder !! dir)).
Proof.
  revert usedNamesByFolder.
  induction files as [|file rest IH]; intros m; cbn [assign_loop].
  { split; [constructor | intros p Hp; by apply elem_of_nil in Hp]. }
  destruct (assign_one_spec m file) as (dir & name & Hpath & Hslash & Hfree & Hm').
  destruct (assign_one m file) as [m' file']. cbn [fst snd] in *. subst m'.
  specialize (IH (<[dir := {[name]} ∪ default ∅ (m !! dir)]> m)) as [Hnd Hrest].
  split.
  - cbn [map]. constructor; [|done].
    intros Hin. apply list_elem_of_In, in_map_iff in Hin as (p & Hp & Hin).
    apply list_elem_of_In, Hrest in Hin as (dir' & name' & Hpath' & Hslash' & Hfree').
    rewrite <- Hp, Hpath' in Hpath. symmetry in Hpath.
    apply path_in_inj in Hpath as [-> ->]; [|done..].
    apply Hfree'. rewrite lookup_insert_eq. simpl. set_solver.
  - intros p [->|Hp]%elem_of_cons; [by eauto|].
    apply Hrest in Hp as (dir' & name' & Hpath' & Hslash' & Hfree').
    exists dir', name'. repeat split; [done..|].
    intros Hin. apply Hfree'.
    destruct (decide (dir = dir')) as [->|Hne].
    + rewrite lookup_insert_eq. simpl. set_solver.
    + by rewrite lookup_insert_ne.
Qed.

(** ** C7 *)


(** ** Sets of tokens *)

Lemma set_add_all_app set l1 l2 :
  set_add_all set (l1 ++ l2) = set_add_all (set_add_all set l1) l2.
Proof. revert set. induction l1 as [|x l1 IH]; intros set; simpl; [done | apply IH]. Qed.

Lemma set_add_all_extends set l : exists more, set_add_all set l = set ++ more.
Proof.
  revert set. induction l as [|x l IH]; intros set; simpl.
  - exists []. by rewrite app_nil_r.
  - destruct (decide (x ∈ set)); [apply IH|].
    destruct (IH (set ++ [x])) as [more ->]. exists (x :: more). by rewrite <- app_assoc.
Qed.

Lemma set_add_all_elem set l t : t ∈ set_add_all set l <-> t ∈ set \/ t ∈ l.
Proof.
  revert set. induction l as [|x l IH]; intros set; simpl.
  - rewrite elem_of_nil. tauto.
  - rewrite IH, elem_of_cons. destruct (decide (x ∈ set)) as [Hx|Hx].
    + split; [tauto|]. intros [?|[->|?]]; tauto.
    + rewrite elem_of_app, list_elem_of_singleton. tauto.
Qed.

Lemma set_add_all_NoDup set l : NoDup set -> NoDup (set_add_all set l).
Proof.
  revert set. induction l as [|x l IH]; intros set Hset; simpl; [done|].
  apply IH. destruct (decide (x ∈ set)); [done|].
  apply NoDup_app. split; [done|]. split; [|apply NoDup_singleton].
  intros y Hy ->%list_elem_of_singleton. done.
Qed.

Lemma set_add_all_distinct set l : NoDup (set ++ l) -> set_add_all set l = set ++ l.
Proof.
  revert set. induction l as [|x l IH]; intros set Hnd; simpl.
  - by rewrite app_nil_r.
  - assert (x ∉ set).
    { apply NoDup_app in Hnd as (_ & Hd & _). intros Hx. apply (Hd x Hx). left. }
    rewrite decide_False by done. rewrite IH; rewrite <- app_assoc; done.
Qed.

Lemma set_add_all_length l : (length (set_add_all [] l) <= length l)%nat.
Proof.
  assert (H : forall set, (length (set_add_all set l) <= length set + length l)%nat).
  { induction l as [|x l IH]; intros set; simpl; [lia|].
    destruct (decide (x ∈ set)).
    - specialize (IH set). lia.
    - specialize (IH (set ++ [x])). rewrite length_app in IH. simpl in IH. lia. }
  apply (H []).
Qed.

Lemma capped_join n a b :
  take n (set_add_all [] (take n (set_add_all [] a) ++ b))
  = take n (set_add_all [] (a ++ b)).
Proof.
  rewrite !set_add_all_app.
  set (D := set_add_all [] a).
  assert (HD : NoDup D) by (apply set_add_all_NoDup; constructor).
  assert (Htake : set_add_all [] (take n D) = take n D).
  { apply (set_add_all_distinct []). simpl.
    rewrite <- (take_drop n D) in HD. by apply NoDup_app in HD as [? _]. }
  rewrite Htake.
  destruct (decide (length D <= n)%nat) as [Hle|Hgt].
  - by rewrite (take_ge D n Hle).
  - destruct (set_add_all_extends (take n D) b) as [m1 ->].
    destruct (set_add_all_extends D b) as [m2 ->].
    rewrite !take_app_le; [| lia | rewrite length_take; lia].
    by rewrite take_take, Nat.min_id.
Qed.

(** ** The test for joining a cluster *)

Lemma overlap_one tokens ct :
  (1 <= length (overlap tokens ct))%nat <-> exists j a, tokens !! j = Some a /\ a ∈ ct.
Proof.
  unfold overlap. split.
  - intros Hlen. destruct (filter _ tokens) as [|a r] eqn:Hf; [simpl in Hlen; lia|].
    assert (Ha : a ∈ filter (fun token => token ∈ ct) tokens) by (rewrite Hf; left).
    apply list_elem_of_filter in Ha as [Hct Hin].
    apply list_elem_of_lookup in Hin as [j Hj]. eauto.
  - intros (j & a & Hj & Ha).
    assert (Hin : a ∈ filter (fun token => token ∈ ct) tokens).
    { apply list_elem_of_filter. split; [done|]. by eapply list_elem_of_lookup_2. }
    destruct (filter _ tokens); [by apply elem_of_nil in Hin | simpl; lia].
Qed.

Lemma overlap_two tokens ct :
  (2 <= length (overlap tokens ct))%nat <-> two_entries_shared tokens ct.
Proof.
  unfold two_entries_shared.
  induction tokens as [|x tokens IH].
  - split; [simpl; lia|]. intros (i & j & a & b & _ & Hi & _). done.
  - unfold overlap in *. rewrite filter_cons. destruct (decide (x ∈ ct)) as [Hx|Hx].
    + simpl. rewrite <- Nat.succ_le_mono.
      fold (overlap tokens ct). rewrite overlap_one. split.
      * intros (j & b & Hj & Hb). exists 0%nat, (S j), x, b. repeat split; [lia|done..].
      * intros (i & j & a & b & Hij & Hi & Hj & Ha & Hb).
        destruct j as [|j]; [lia|]. simpl in Hj. eauto.
    + rewrite IH. split.
      * intros (i & j & a & b & Hij & Hi & Hj & Ha & Hb).
        exists (S i), (S j), a, b. repeat split; [lia|done..].
      * intros (i & j & a & b & Hij & Hi & Hj & Ha & Hb).
        destruct i as [|i]; [simpl in Hi; congruence|].
        destruct j as [|j]; [lia|].
        exists i, j, a, b. repeat split; [lia|done..].
Qed.

Lemma join_cluster_Some tokens file clusters clusters' :
  join_cluster tokens file clusters = Some clusters' ->
  exists before cluster after,
    clusters = before ++ cluster :: after
    /\ Forall (fun c => ~ two_entries_shared tokens (cl_tokens c)) before
    /\ two_entries_shared tokens (cl_tokens cluster)
    /\ cl_tokens cluster <> []
    /\ clusters' = before ++ joined cluster tokens file :: after.
Proof.
  revert clusters'. induction clusters as [|c clusters IH]; intros clusters'; simpl; [done|].
  assert (Hrec : (cons c <$> join_cluster tokens file clusters) = Some clusters' ->
                 ~ two_entries_shared tokens (cl_tokens c) ->
                 exists before cluster after,
                   c :: clusters = before ++ cluster :: after
                   /\ Forall (fun c => ~ two_entries_shared tokens (cl_tokens c)) before
                   /\ two_entries_shared tokens (cl_tokens cluster)
                   /\ cl_tokens cluster <> []
                   /\ clusters' = before ++ joined cluster tokens file :: after).
  { intros Hj Hc. destruct (join_cluster tokens file clusters) as [r|]; [|done].
    injection Hj as <-.
    destruct (IH r eq_refl) as (before & cluster & after & -> & Hb & Hs & Hne & ->).
    exists (c :: before), cluster, after. repeat split; try done. by constructor. }
  destruct (decide (length (cl_tokens c) = 0%nat)) as [Hz|Hnz].
  - intros Hj. apply Hrec; [done|].
    intros (i & j & a & b & _ & _ & _ & Ha & _).
    destruct (cl_tokens c); [by apply elem_of_nil in Ha | done].
  - destruct (decide (2 <= length (overlap tokens (cl_tokens c)))%nat) as [Ho|Ho].
    + intros [= <-]. exists [], c, clusters. repeat split; try done.
      * by apply overlap_two.
      * intros Hnil. by rewrite Hnil in Hnz.
    + intros Hj. apply Hrec; [done|]. by rewrite <- overlap_two.
Qed.

Lemma join_cluster_None tokens file clusters :
  join_cluster tokens file clusters = None ->
  Forall (fun c => ~ two_entries_shared tokens (cl_tokens c)) clusters.
Proof.
  induction clusters as [|c clusters IH]; simpl; [constructor|].
  assert (Hc : (length (cl_tokens c) = 0%nat
                \/ ~ (2 <= length (overlap tokens (cl_tokens c)))%nat) ->
               ~ two_entries_shared tokens (cl_tokens c)).
  { intros [Hz|Ho]; [|by rewrite <- overlap_two].
    intros (i & j & a & b & _ & _ & _ & Ha & _).
    destruct (cl_tokens c); [by apply elem_of_nil in Ha | done]. }
  destruct (decide (length (cl_tokens c) = 0%nat)) as [Hz|Hnz].
  - destruct (join_cluster tokens file clusters); [done|]. intros _.
    constructor; [apply Hc; by left | by apply IH].
  - destruct (decide (2 <= length (overlap tokens (cl_tokens c)))%nat) as [Ho|Ho]; [done|].
    destruct (join_cluster tokens file clusters); [done|]. intros _.
    constructor; [apply Hc; by right | by apply IH].
Qed.

Lemma cluster_step_greedy clusters file :
  greedy_step two_entries_shared clusters file (cluster_step clusters file).
Proof.
  unfold greedy_step, cluster_step.
  destruct (decide (length (file_tokens file) = 0%nat)) as [Hz|Hnz].
  { left. destruct (file_tokens file); done. }
  assert (file_tokens file <> []) by (intros Hnil; by rewrite Hnil in Hnz).
  right. destruct (join_cluster _ _ _) as [clusters'|] eqn:Hj.
  - left. split; [done|].
    apply join_cluster_Some in Hj as (before & cluster & after & ? & ? & ? & ? & ?).
    by exists before, cluster, after.
  - right. split; [done|]. split; [|done]. by apply (join_cluster_None _ file).
Qed.

(** ** The pass over the files *)

Lemma buildReviewClusters_snoc files file :
  buildReviewClusters (files ++ [file]) = cluster_step (buildReviewClusters files) file.
Proof. unfold buildReviewClusters. by rewrite fold_left_app. Qed.

Lemma file_tokens_length file : (length (file_tokens file) <= maxTokens)%nat.
Proof. unfold file_tokens. rewrite length_take. lia. Qed.

Lemma new_cluster_ok clusters file :
  cluster_ok (new_cluster clusters (file_tokens file) file).
Proof. exists file, []. repeat split; done. Qed.

Lemma joined_ok cluster file :
  cluster_ok cluster ->
  cl_tokens cluster <> [] ->
  file_tokens file <> [] ->
  cluster_ok (joined cluster (file_tokens file) file).
Proof.
  intros (f & rest & Hitems & Hone & Hmany) Hne Hfile.
  exists f, (rest ++ [file]). simpl. rewrite Hitems.
  split; [done|]. split; [by destruct rest|]. intros _.
  unfold capped_union.
  destruct rest as [|g rest].
  - rewrite (Hone eq_refl) in *. simpl. rewrite app_nil_r.
    split; [done|]. by repeat constructor.
  - destruct Hmany as [Htokens Hall]; [done|].
    rewrite Htokens, Hitems. unfold capped_union.
    rewrite capped_join.
    change (f :: (g :: rest) ++ [file]) with ((f :: g :: rest) ++ [file]).
    rewrite map_app, concat_app. simpl. rewrite app_nil_r.
    split; [done|]. rewrite Hitems in Hall.
    change (f :: g :: rest ++ [file]) with ((f :: g :: rest) ++ [file]).
    apply Forall_app. split; [done | by repeat constructor].
Qed.

Lemma cluster_step_ok clusters file :
  Forall cluster_ok clusters -> Forall cluster_ok (cluster_step clusters file).
Proof.
  intros Hok.
  destruct (cluster_step_greedy clusters file)
    as [[Ht ->] | [[Hne (before & c & after & -> & _ & Hs & ->)] | [Hne [_ ->]]]].
  - apply Forall_app. split; [done|]. constructor; [|done].
    rewrite <- Ht. apply new_cluster_ok.
  - apply Forall_app in Hok as [Hb [Hc Ha]%Forall_cons].
    apply Forall_app. split; [done|]. constructor; [|done].
    apply joined_ok; [done | | done].
    destruct Hs as (i & j & a & b & _ & _ & _ & Ha' & _).
    intros Hnil. rewrite Hnil in Ha'. by apply elem_of_nil in Ha'.
  - apply Forall_app. split; [done|]. constructor; [|done]. apply new_cluster_ok.
Qed.

Lemma cluster_step_items clusters file :
  concat (map cl_items (cluster_step clusters file))
  ≡ₚ concat (map cl_items clusters) ++ [file].
Proof.
  destruct (cluster_step_greedy clusters file)
    as [[Ht ->] | [[Hne (before & c & after & -> & _ & Hs & ->)] | [Hne [_ ->]]]].
  - rewrite map_app, concat_app. simpl. done.
  - rewrite !map_app, !concat_app. simpl.
    rewrite <- !app_assoc. apply Permutation_app_head, Permutation_app_head.
    apply Permutation_app_comm.
  - rewrite map_app, concat_app. simpl. done.
Qed.

Lemma buildReviewClusters_ok files : Forall cluster_ok (buildReviewClusters files).
Proof.
  induction files as [|file files IH] using rev_ind; [constructor|].
  rewrite buildReviewClusters_snoc. by apply cluster_step_ok.
Qed.

(** ** C9 *)

(** C9, as amended.  [buildReviewClusters] is a greedy single pass: each
    file, in input order, with its tokens (the normalized tokens longer than
    3 characters, at most 12), joins the first cluster, in creation order,
    whose token list contains at least two entries of the file's token list
    (a token that occurs twice in the file's list counts twice), and starts
    a cluster otherwise; a file without token always starts a cluster.
    Every file ends in exactly one cluster; a file without token is alone in
    its cluster; a cluster holds at most 12 tokens, namely the union of its
    members' tokens, in order of first occurrence, capped at 12. *)
Theorem review_clusters_are_greedy :
  buildReviewClusters [] = []
  /\ (forall files file,
        greedy_step two_entries_shared (buildReviewClusters files) file
          (buildReviewClusters (files ++ [file])))
  /\ (forall files, concat (map cl_items (buildReviewClusters files)) ≡ₚ files)
  /\ (forall files c,
        c ∈ buildReviewClusters files ->
        (length (cl_tokens c) <= maxTokens)%nat
        /\ (forall t, t ∈ cl_tokens c <-> t ∈ capped_union (cl_items c))
        /\ (forall f, f ∈ cl_items c -> file_tokens f = [] -> cl_items c = [f])).
Proof.
  split; [done|]. split; [|split].
  - intros files file. rewrite buildReviewClusters_snoc. apply cluster_step_greedy.
  - intros files. induction files as [|file files IH] using rev_ind; [done|].
    rewrite buildReviewClusters_snoc, cluster_step_items. by rewrite IH.
  - intros files c Hc.
    pose proof (proj1 (Forall_forall _ _) (buildReviewClusters_ok files) c Hc)
      as (f & rest & Hitems & Hone & Hmany).
    destruct rest as [|g rest].
    + specialize (Hone eq_refl). rewrite Hone, Hitems.
      split; [apply file_tokens_length|]. split.
      * intros t. unfold capped_union. simpl. rewrite app_nil_r.
        rewrite take_ge.
        -- rewrite set_add_all_elem, elem_of_nil. tauto.
        -- etrans; [apply set_add_all_length | apply file_tokens_length].
      * intros f' Hf' _. apply list_elem_of_singleton in Hf'. by subst.
    + destruct Hmany as [Htokens Hall]; [done|].
      split; [rewrite Htokens; unfold capped_union; rewrite length_take; lia|].
      split; [by rewrite Htokens|].
      intros f' Hf' Hnil.
      by destruct (proj1 (Forall_forall _ _) Hall f' Hf').
Qed.

(** C9 as stated fails when a token is repeated in the file's list: the
    second file shares the single token [deed] with the first cluster, and
    joins it. *)
Lemma repeated_token_joins :
  file_tokens deed_alpha = ["deed"; "alpha"]
  /\ file_tokens deed_deed = ["deed"; "deed"]
  /\ map cl_items (buildReviewClusters [deed_alpha; deed_deed]) = [[deed_alpha; deed_deed]]
  /\ ~ two_tokens_shared (file_tokens deed_deed)
         (cl_tokens (new_cluster [] (file_tokens deed_alpha) deed_alpha))
  /\ ~ greedy_step two_tokens_shared (buildReviewClusters [deed_alpha]) deed_deed
         (buildReviewClusters ([deed_alpha] ++ [deed_deed])).
Proof.
  assert (Hnot : ~ two_tokens_shared ["deed"; "deed"] ["deed"; "alpha"]).
  { intros (a & b & Hab & Ha & Hb & _).
    apply elem_of_cons in Ha as [->|Ha]; apply elem_of_cons in Hb as [->|Hb];
      try done;
      repeat match goal with
             | H : _ ∈ [_] |- _ => apply list_elem_of_singleton in H; subst
             end; done. }
  split; [vm_compute; reflexivity|]. split; [vm_compute; reflexivity|].
  split; [vm_compute; reflexivity|]. split; [exact Hnot|].
  intros [[Ht _] | [[_ (before & c & after & Hcl & _ & Hs & _)] | [_ [_ Heq]]]].
  - vm_compute in Ht. discriminate.
  - assert (Hc : buildReviewClusters [deed_alpha]
                 = [new_cluster [] (file_tokens deed_alpha) deed_alpha]) by reflexivity.
    rewrite Hc in Hcl.
    destruct before as [|c0 before].
    + injection Hcl as <- _. apply Hnot. exact Hs.
    + injection Hcl as _ Hcl. by destruct before.
  - apply (f_equal length) in Heq. vm_compute in Heq. discriminate.
Qed.

(** ** C6 *)

(** C6 does not hold of the code.  Two PDFs with the same bytes, two
    workers: when both workers pass the test [seenHashes.has(hash)] before
    either reaches [seenHashes.set], which the [await] of the text
    extraction allows, both are classified on their own and none is a
    duplicate; with the other order of the same events the second is a
    duplicate. *)
Theorem same_digest_documents_both_first_seen :
  (exists a b,
     sample_run [deed_pdf "a.pdf"; deed_pdf "b.pdf"] interleaved = Some [a; b]
     /\ pf_hash a = pf_hash b
     /\ pf_decision a = Assigned /\ pf_reason a = "keyword_score"
     /\ pf_decision b = Assigned /\ pf_reason b = "keyword_score")
  /\ (exists a b,
        sample_run [deed_pdf "a.pdf"; deed_pdf "b.pdf"] one_after_the_other = Some [a; b]
        /\ pf_hash a = pf_hash b
        /\ pf_decision a = Assigned /\ pf_reason a = "keyword_score"
        /\ pf_decision b = Duplicate /\ pf_reason b = "sha256_duplicate"
        /\ pf_schedule b = pf_schedule a /\ pf_scores b = pf_scores a).
Proof.
  split.
  - eexists _, _. split; [vm_compute; reflexivity|]. repeat split.
  - eexists _, _. split; [vm_compute; reflexivity|]. repeat split.
Qed.

(** ** Entries of a run *)

Lemma sum_weighted_nonneg text terms :
  Forall (fun t => nonneg (wt_weight t)) terms -> 0 <= sum_weighted text terms.
Proof.
  unfold sum_weighted. induction 1 as [|t terms (z & Hz & Hpos) _ IH]; simpl; [lia|].
  unfold weightZ. rewrite Hz.
  apply Z.add_nonneg_nonneg; [apply Z.mul_nonneg_nonneg; lia | exact IH].
Qed.

Lemma scoreSchedule_nonneg text schedule :
  nonneg_weights schedule -> at_least_zero (scoreSchedule text schedule).
Proof.
  intros Hw. rewrite scoreSchedule_finite.
  - by apply sum_weighted_nonneg.
  - eapply Forall_impl; [exact Hw|]. intros t (z & -> & _). done.
Qed.

Section EntriesOfARun.
Variable hashArrayBuffer : string -> Completion string.
Variable extractPdfText : string -> Completion PdfTextResult.
Variable compiledConfig : CompiledScheduleConfig.
Variable scanThresholds : ScannedDetectionThresholds.
Variable reviewOverrides : gmap string string.
Variable selectedFiles : list SelectedFile.
Variable concurrency : nat.

Lemma fill_scores_entries value :
  plain_config compiledConfig ->
  (forall s, s ∈ cc_schedules compiledConfig -> at_least_zero (value s)) ->
  one_entry_per_category compiledConfig (fill_scores value (cc_schedules compiledConfig) []).
Proof.
  intros (distinct_ids & no_proto_id & _) Hvalue.
  rewrite fill_scores_fresh; [| exact distinct_ids | exact no_proto_id].
  unfold one_entry_per_category, keys, schedule_ids. simpl. split.
  - rewrite map_map. done.
  - apply Forall_map. apply Forall_forall. intros s Hs. simpl. by apply Hvalue.
Qed.

Lemma floor_or_zero_scores scheduleId :
  plain_config compiledConfig ->
  one_entry_per_category compiledConfig
    (fill_scores
       (fun schedule => if decide (sd_id schedule = scheduleId) then SCORE_FLOOR else Fin 0)
       (cc_schedules compiledConfig) []).
Proof.
  intros Hplain. apply fill_scores_entries; [done|]. intros s _.
  destruct (decide (sd_id s = scheduleId)); simpl; unfold SCORE_FLOOR; lia.
Qed.

Lemma classified_scores options r :
  config options = compiledConfig ->
  classifyDocument options = Normal r ->
  (plain_config compiledConfig -> one_entry_per_category compiledConfig (cr_scores r))
  /\ cr_reason r <> "sha256_duplicate".
Proof.
  intros Hconfig. unfold classifyDocument. rewrite Hconfig.
  assert (Hzero : plain_config compiledConfig ->
                  one_entry_per_category compiledConfig
                    (fill_scores (fun _ => Fin 0) (cc_schedules compiledConfig) [])).
  { intros Hplain. apply fill_scores_entries; [done|]. intros s _. simpl. lia. }
  destruct (truthy_match _) as [m|].
  { intros [= <-]. simpl. split; [|done]. apply floor_or_zero_scores. }
  destruct (scanned_check _) as [m|].
  { intros [= <-]. simpl. split; [done|]. unfold scanned_reason. discriminate. }
  destruct (trim _).
  { intros [= <-]. simpl. split; done. }
  assert (Hscored : plain_config compiledConfig ->
                    one_entry_per_category compiledConfig
                      (fill_scores (scoreSchedule (text options))
                         (cc_schedules compiledConfig) [])).
  { intros Hplain. apply fill_scores_entries; [done|]. intros s Hs.
    apply scoreSchedule_nonneg. destruct Hplain as (_ & _ & weights_nonneg).
    exact (proj1 (Forall_forall _ _) weights_nonneg s Hs). }
  destruct (array_sort _ _) as [|[best bestScore] rest]; [done|].
  destruct (_ || _); intros [= <-]; simpl; split; done.
Qed.

Lemma push_well_formed entry register store :
  store_well_formed compiledConfig store ->
  entry_well_formed compiledConfig entry ->
  store_well_formed compiledConfig (push entry register store).
Proof.
  intros [Hp Hs] He. unfold push. split; simpl.
  - apply Forall_app. split; [done | by constructor].
  - destruct register as [hash|]; [|done]. by apply map_Forall_insert_2.
Qed.

Lemma errorEntry_is_error item hash kind detail :
  kind = "pdf_parse_error: " \/ kind = "processing_error: " ->
  error_entry (errorEntry item hash (kind +:+ detail))
  /\ entry_well_formed compiledConfig (errorEntry item hash (kind +:+ detail)).
Proof.
  intros Hkind.
  assert (Herror : error_entry (errorEntry item hash (kind +:+ detail))).
  { unfold error_entry. cbn [errorEntry pf_decision pf_schedule pf_candidate pf_score
                             pf_reason].
    do 4 (split; [done|]).
    destruct Hkind as [-> | ->]; [left | right]; vm_compute; by destruct detail. }
  split; [exact Herror|]. split.
  - unfold decision_matches_reason. cbn [errorEntry pf_decision pf_reason].
    split; [done|]. destruct Hkind as [-> | ->]; intros [=].
  - intros _. right. split; [done | by left].
Qed.

Lemma fallback_well_formed item index error store :
  store_well_formed compiledConfig store ->
  store_well_formed compiledConfig (fallback item index error store).
Proof.
  intros Hs. unfold fallback. apply push_well_formed; [done|].
  apply (errorEntry_is_error item _ "processing_error: "). by right.
Qed.

Lemma classify_and_record_well_formed item index hash text pdf pdfMetrics store :
  store_well_formed compiledConfig store ->
  store_well_formed compiledConfig
    (classify_and_record compiledConfig scanThresholds item index hash text pdf
       pdfMetrics store).
Proof.
  intros Hs. unfold classify_and_record.
  destruct (classifyDocument _) as [r|e] eqn:Hr; [|by apply fallback_well_formed].
  apply classified_scores in Hr as [Hscores Hreason]; [|done].
  apply push_well_formed; [done|]. split.
  - unfold decision_matches_reason. simpl. split; [by destruct (cr_decision r) | done].
  - intros Hplain. left. by apply Hscores.
Qed.

Lemma resume_hash_well_formed item index store :
  store_well_formed compiledConfig store ->
  store_well_formed compiledConfig
    (fst (resume_hash hashArrayBuffer compiledConfig scanThresholds reviewOverrides
            item index store)).
Proof.
  intros Hs. unfold resume_hash.
  destruct (hashArrayBuffer _) as [hash|e]; [|by apply fallback_well_formed].
  destruct (decide (is_Some (seenHashes store !! hash))) as [[first Hfirst]|Hnew].
  { simpl. apply push_well_formed; [done|]. rewrite Hfirst. split; [done|]. simpl.
    intros Hplain. destruct Hs as [_ Hseen].
    destruct (proj2 (Hseen hash first Hfirst) Hplain) as [? | [? _]];
      [by left | right; by split; [|right]]. }
  destruct (truthy_match _) as [overrideSchedule|].
  { simpl. apply push_well_formed; [done|]. split; [done|]. intros Hplain. left. simpl.
    by apply floor_or_zero_scores. }
  destruct (isPdfFile _); [done|].
  by apply classify_and_record_well_formed.
Qed.

Lemma resume_extract_well_formed item index hash store :
  store_well_formed compiledConfig store ->
  store_well_formed compiledConfig
    (resume_extract extractPdfText compiledConfig scanThresholds item index hash store).
Proof.
  intros Hs. unfold resume_extract.
  destruct (extractPdfText _) as [m|e]; [by apply classify_and_record_well_formed|].
  apply push_well_formed; [done|].
  apply (errorEntry_is_error item _ "pdf_parse_error: "). by left.
Qed.

Lemma start_loop_store fuel st :
  rs_store (start_loop selectedFiles concurrency fuel st) = rs_store st.
Proof.
  revert st. induction fuel as [|fuel IH]; intros st; simpl; [done|].
  destruct (_ && _); [|done]. by rewrite IH.
Qed.

Lemma scheduleNext_store st :
  rs_store (scheduleNext selectedFiles concurrency st) = rs_store st.
Proof.
  unfold scheduleNext. destruct (_ && _); [done|]. cbn zeta.
  destruct (_ && _); cbn [resolve rs_store]; apply start_loop_store.
Qed.

Lemma set_task_store st index task store :
  rs_store (set_task selectedFiles concurrency st index task store) = store.
Proof.
  unfold set_task, worker_ended.
  destruct task; try done. cbn [rs_currentIndex rs_active].
  destruct (_ && _); [done|]. by rewrite scheduleNext_store.
Qed.

#[local] Arguments set_task : simpl never.

Lemma step_well_formed st event st' :
  store_well_formed compiledConfig (rs_store st) ->
  step hashArrayBuffer extractPdfText compiledConfig scanThresholds reviewOverrides
    selectedFiles concurrency st event = Some st' ->
  store_well_formed compiledConfig (rs_store st').
Proof.
  intros Hs. destruct event as [index|]; simpl; [|by intros [= <-]].
  destruct (selectedFiles !! index) as [item|]; simpl; [|done].
  destruct (rs_tasks st !! index) as [task|]; simpl; [|done].
  destruct task; try done.
  - intros [= <-]. by rewrite set_task_store.
  - pose proof (resume_hash_well_formed item index (rs_store st) Hs) as Hh.
    destruct (resume_hash _ _ _ _ _ _ _) as [store task'].
    intros [= <-]. by rewrite set_task_store.
  - intros [= <-]. rewrite set_task_store. by apply resume_extract_well_formed.
Qed.

Lemma run_well_formed events st st' :
  store_well_formed compiledConfig (rs_store st) ->
  run hashArrayBuffer extractPdfText compiledConfig scanThresholds reviewOverrides
    selectedFiles concurrency st events = Some st' ->
  store_well_formed compiledConfig (rs_store st').
Proof.
  revert st. induction events as [|event events IH]; intros st Hs; simpl.
  - by intros [= <-].
  - destruct (step _ _ _ _ _ _ _ st event) as [st1|] eqn:Hstep; simpl; [|done].
    apply IH. by eapply step_well_formed.
Qed.

Lemma reachable_well_formed events st :
  run hashArrayBuffer extractPdfText compiledConfig scanThresholds reviewOverrides
    selectedFiles concurrency (initial selectedFiles concurrency) events = Some st ->
  Forall (entry_well_formed compiledConfig) (processed (rs_store st)).
Proof.
  intros Hrun. apply run_well_formed in Hrun as [Hp _]; [done|].
  unfold initial. rewrite scheduleNext_store. simpl.
  split; [constructor | apply map_Forall_empty].
Qed.
End EntriesOfARun.

(** ** Examples of the specification *)

(** The category [__proto__] has no entry in the score vector. *)
Example proto_category_gets_no_entry :
  classifyDocument proto_category_input =
    Normal {| cr_decision := assigned;
              cr_schedule := Some "A_Real_Estate";
              cr_candidate := None;
              cr_reason := "filename_rule";
              cr_score := Fin 18;
              cr_scores := [("A_Real_Estate", Fin 18)] |}.
Proof. vm_compute. reflexivity. Qed.

Example normalize_filename :
  normalizeText "Deed_123_Main_St.pdf" = "deed 123 main st pdf".
Proof. vm_compute. reflexivity. Qed.

Example count_non_overlapping : countTermOccurrences "aaaaa AA" "aa" = 3%nat.
Proof. vm_compute. reflexivity. Qed.

Example blank_text_goes_to_review :
  classifyDocument blank_image_input =
    Normal {| cr_decision := review;
              cr_schedule := None;
              cr_candidate := Some "Unknown";
              cr_reason := "no_text_or_filename_rule";
              cr_score := Fin 0;
              cr_scores := [("A_Real_Estate", Fin 0); ("B_Stocks_Bonds", Fin 0)] |}.
Proof. vm_compute. reflexivity. Qed.

Example close_call_goes_to_review :
  classifyDocument close_call_input =
    Normal {| cr_decision := review;
              cr_schedule := None;
              cr_candidate := Some "A_Real_Estate";
              cr_reason := "low_confidence";
              cr_score := Fin 20;
              cr_scores := [("A_Real_Estate", Fin 20); ("B_Stocks_Bonds", Fin 16)] |}.
Proof. vm_compute. reflexivity. Qed.

Example colliding_names_get_dup_suffixes :
  map pf_outputPath
    (assignOutputPaths
       [blank_file "deed.pdf" Assigned (Some "A_Real_Estate");
        blank_file "deed.pdf" Assigned (Some "A_Real_Estate");
        blank_file "deed__dup1.pdf" Assigned (Some "A_Real_Estate");
        blank_file "deed.pdf" Assigned (Some "A_Real_Estate");
        blank_file "deed.pdf" Duplicate (Some "A_Real_Estate");
        blank_file "README" Review None;
        blank_file "README" Review None])
  = ["706/A_Real_Estate/deed.pdf";
     "706/A_Real_Estate/deed__dup1.pdf";
     "706/A_Real_Estate/deed__dup1__dup1.pdf";
     "706/A_Real_Estate/deed__dup2.pdf";
     "DUPLICATES/0123456789/deed.pdf";
     "706/ReviewNeeded/Unknown/README";
     "706/ReviewNeeded/Unknown/README__dup1"].
Proof. vm_compute. reflexivity. Qed.

(** * Further properties *)

(** ** The normalizer *)

Lemma alnum_not_space c : is_alnum c = true -> is_space c = false.
Proof.
  destruct c as [[] [] [] [] [] [] [] []]; vm_compute; intros H; (done || discriminate).
Qed.

Lemma alnum_lower c : is_alnum c = true -> toLowerCase_char c = c.
Proof.
  destruct c as [[] [] [] [] [] [] [] []]; vm_compute; intros H; (done || discriminate).
Qed.

Lemma space_is_space : is_space " "%char = true /\ is_alnum " "%char = false.
Proof. by vm_compute. Qed.

Lemma replace_runs_spaced b x :
  spaced b (replace_runs (fun c => negb (is_alnum c)) b x).
Proof.
  revert b. induction x as [|c x IH]; intros b; simpl; [done|].
  destruct (is_alnum c) eqn:Hc; simpl.
  - rewrite Hc. apply IH.
  - destruct b; [apply IH|]. simpl. repeat split; [done.. | apply IH].
Qed.

Lemma replace_runs_fixed (C : ascii -> bool) p b l :
  (forall c, is_alnum c = true -> C c = false) ->
  C " "%char = true ->
  spaced p l -> (b = true -> p = true) ->
  replace_runs C b l = l.
Proof.
  intros Halnum Hspace. revert p b.
  induction l as [|c l IH]; intros p b Hl Hb; simpl; [done|].
  simpl in Hl. destruct (is_alnum c) eqn:Hc.
  - rewrite (Halnum c Hc). f_equal. by apply (IH false false).
  - destruct Hl as (-> & -> & Hl). rewrite Hspace.
    destruct b; [by discriminate (Hb eq_refl)|].
    f_equal. by apply (IH true true).
Qed.

Lemma closed_spaced p l : closed p l -> spaced p l.
Proof.
  revert p. induction l as [|c l IH]; intros p; simpl; [done|].
  destruct (is_alnum c); [apply IH|]. intros (? & ? & ?). auto.
Qed.

Lemma spaced_weaken p l : spaced p l -> spaced false l.
Proof.
  destruct l as [|c l]; simpl; [done|].
  destruct (is_alnum c); [done|]. intros (? & ? & ?). auto.
Qed.

(** A spaced list is closed, or is closed once its final space is removed. *)
Lemma spaced_ends p l :
  spaced p l ->
  l = [] \/ closed p l
  \/ exists body, l = body ++ [" "%char] /\ (body = [] \/ closed p body).
Proof.
  revert p. induction l as [|c l IH]; intros p; simpl; [by left|].
  intros Hl. right.
  destruct (is_alnum c) eqn:Hc.
  - destruct (IH false Hl) as [-> | [Hcl | (body & -> & Hbody)]].
    + left. simpl. done.
    + by left.
    + right. exists (c :: body). split; [done|]. right. simpl. rewrite Hc.
      destruct Hbody as [-> | ?]; done.
  - destruct Hl as (-> & -> & Hl).
    destruct (IH true Hl) as [-> | [Hcl | (body & -> & Hbody)]].
    + right. exists []. split; [done | by left].
    + left. repeat split; done.
    + destruct Hbody as [-> | Hbody].
      * simpl in Hl. by destruct Hl as (_ & ? & _).
      * right. exists (" "%char :: body). split; [done|]. right.
        simpl. repeat split; done.
Qed.

Lemma closed_last p l :
  closed p l -> l <> [] -> exists body c, l = body ++ [c] /\ is_alnum c = true.
Proof.
  revert p. induction l as [|c l IH]; intros p Hl Hne; [done|].
  simpl in Hl. destruct (is_alnum c) eqn:Hc.
  - destruct l as [|d l].
    + exists [], c. done.
    + destruct (IH false Hl) as (body & e & -> & He); [done|].
      exists (c :: body), e. done.
  - destruct Hl as (-> & -> & Hl). destruct l as [|d l]; [done|].
    destruct (IH true Hl) as (body & e & -> & He); [done|].
    exists (" "%char :: body), e. done.
Qed.

Lemma trimEnd_closed p l : closed p l -> rev (trimStart (rev l)) = l.
Proof.
  intros Hl. destruct (decide (l = [])) as [->|Hne]; [done|].
  destruct (closed_last p l Hl Hne) as (body & c & -> & Hc).
  rewrite rev_app_distr. simpl. rewrite (alnum_not_space c Hc).
  simpl. by rewrite rev_involutive.
Qed.

Lemma trimStart_closed l : closed true l -> trimStart l = l.
Proof.
  destruct l as [|c l]; simpl; [done|].
  destruct (is_alnum c) eqn:Hc; [by rewrite (alnum_not_space c Hc)|].
  intros (_ & ? & _). done.
Qed.

Lemma trim_canonical l : spaced false l -> canonical (trim l).
Proof.
  intros Hl. unfold trim.
  assert (Hstart : trimStart l = [] \/ spaced true (trimStart l)).
  { destruct l as [|c l]; [by left|]. simpl in *.
    destruct (is_alnum c) eqn:Hc.
    - right. rewrite (alnum_not_space c Hc). simpl. by rewrite Hc.
    - destruct Hl as (-> & _ & Hl). simpl.
      destruct l as [|d l]; [by left|]. right. simpl in *.
      destruct (is_alnum d) eqn:Hd.
      + rewrite (alnum_not_space d Hd). simpl. by rewrite Hd.
      + by destruct Hl as (_ & ? & _). }
  destruct Hstart as [-> | Hs]; [done|].
  destruct (spaced_ends true _ Hs) as [-> | [Hcl | (body & -> & Hbody)]].
  - done.
  - rewrite (trimEnd_closed true _ Hcl). unfold canonical.
    by destruct (trimStart l).
  - rewrite rev_app_distr. simpl.
    destruct Hbody as [-> | Hbody]; [done|].
    rewrite (trimEnd_closed true _ Hbody). unfold canonical. by destruct body.
Qed.

Lemma normalizeText_canonical value : canonical (chars (normalizeText value)).
Proof.
  unfold normalizeText. rewrite chars_str.
  pose proof (replace_runs_spaced false (toLowerCase (chars value))) as Hs.
  rewrite (replace_runs_fixed is_space false false _ alnum_not_space
             (proj1 space_is_space) Hs); [|done].
  by apply trim_canonical.
Qed.

Lemma canonical_fixed l : canonical l -> chars (normalizeText (str l)) = l.
Proof.
  intros Hl. unfold normalizeText. rewrite !chars_str.
  destruct l as [|c l]; [done|]. simpl in Hl. set (w := c :: l) in *.
  assert (Hsp : spaced true w) by by apply closed_spaced.
  assert (Hlow : toLowerCase w = w).
  { clear Hl. revert Hsp. generalize true. induction w as [|d w IH]; intros p; [done|].
    simpl. destruct (is_alnum d) eqn:Hd.
    - intros Hw. rewrite (alnum_lower d Hd). f_equal. by apply (IH false).
    - intros (-> & _ & Hw). f_equal. by apply (IH true). }
  rewrite Hlow.
  rewrite (replace_runs_fixed (fun c => negb (is_alnum c)) true false w); try done.
  - rewrite (replace_runs_fixed is_space true false w alnum_not_space
               (proj1 space_is_space) Hsp); [|done].
    unfold trim. rewrite (trimStart_closed w Hl). by apply (trimEnd_closed true).
  - intros d Hd. by rewrite Hd.
Qed.

Lemma normalizeText_again (value : string) :
  normalizeText (normalizeText value) = normalizeText value.
Proof.
  apply chars_inj.
  rewrite <- (str_chars (normalizeText value)) at 1.
  apply canonical_fixed, normalizeText_canonical.
Qed.

(** X1.  [normalizeText] is idempotent. *)
Theorem normalizeText_idempotent (value : string) :
  normalizeText (normalizeText value) = normalizeText value.
Proof. apply normalizeText_again. Qed.

(** X2.  The result of [normalizeText] consists of characters of [a-z0-9]
    and single spaces between them: no other character, no space at either
    end, no two spaces in a row; and a text already of that form is
    returned unchanged. *)
Theorem normalizeText_normal_form :
  (forall value, canonical (chars (normalizeText value)))
  /\ (forall l, canonical l -> normalizeText (str l) = str l).
Proof.
  split; [apply normalizeText_canonical|].
  intros l Hl. apply chars_inj. rewrite chars_str. by apply canonical_fixed.
Qed.

(** ** Occurrence counts *)

Lemma normalizeText_empty : normalizeText EmptyString = EmptyString.
Proof. reflexivity. Qed.

Lemma occurrence_loop_empty fuel term index count :
  term <> [] -> (forall i, index <> Some i) \/ index = indexOf [] term 0 ->
  occurrence_loop fuel [] term index count = count.
Proof.
  intros Hterm Hindex.
  assert (index = None) as ->.
  { destruct Hindex as [Hn | ->].
    - destruct index as [i|]; [by destruct (Hn i) | done].
    - destruct term; [done | reflexivity]. }
  by destruct fuel.
Qed.

Lemma count_normalized_text text term :
  countTermOccurrences (normalizeText text) term = countTermOccurrences text term.
Proof.
  unfold countTermOccurrences.
  destruct (decide (text = EmptyString \/ term = EmptyString)) as [[-> | ->] | Hne].
  - rewrite normalizeText_empty. by rewrite decide_True by auto.
  - by rewrite decide_True by auto.
  - rewrite normalizeText_again.
    destruct (decide (normalizeText text = EmptyString \/ term = EmptyString))
      as [[Hnil | ->] | _]; [| tauto | done].
    rewrite Hnil. change (chars EmptyString) with (@nil ascii).
    destruct (chars (normalizeText term)) as [|c t] eqn:Ht; [done|].
    symmetry. apply occurrence_loop_empty; [done | by right].
Qed.

Lemma count_normalized_term text term :
  countTermOccurrences text (normalizeText term) = countTermOccurrences text term.
Proof.
  unfold countTermOccurrences.
  destruct (decide (text = EmptyString \/ term = EmptyString)) as [[-> | ->] | Hne].
  - by rewrite decide_True by auto.
  - rewrite normalizeText_empty. by rewrite decide_True by auto.
  - rewrite normalizeText_again.
    destruct (decide (text = EmptyString \/ normalizeText term = EmptyString))
      as [[-> | Hnil] | _]; [tauto | | done].
    by rewrite Hnil.
Qed.

(** X3.  Counting and scoring see the text and the terms only through
    [normalizeText]: replacing the text (or a term) by its normal form
    changes no count, hence no score; case, punctuation and spacing of the
    document do not matter. *)
Theorem scoring_sees_normal_forms (text : string) :
  (forall term,
     countTermOccurrences (normalizeText text) term = countTermOccurrences text term
     /\ countTermOccurrences text (normalizeText term) = countTermOccurrences text term)
  /\ (forall schedule,
        scoreSchedule (normalizeText text) schedule = scoreSchedule text schedule).
Proof.
  split; [intros term; split; [apply count_normalized_text | apply count_normalized_term]|].
  intros schedule. unfold scoreSchedule.
  assert (H : forall terms score,
             score_terms (normalizeText text) terms score = score_terms text terms score).
  { unfold score_terms. induction terms as [|t terms IH]; intros score; simpl; [done|].
    by rewrite count_normalized_text, IH. }
  by rewrite !H.
Qed.

Lemma occurrence_loop_bound fuel text term index count :
  term <> [] ->
  (forall i, index = Some i ->
     (count * length term <= i /\ i + length term <= length text)%nat) ->
  (count * length term <= length text)%nat ->
  (occurrence_loop fuel text term index count * length term <= length text)%nat.
Proof.
  intros Hterm. revert index count.
  induction fuel as [|fuel IH]; intros index count Hindex Hcount.
  - by destruct index.
  - destruct index as [i|]; [|done]. simpl.
    destruct (Hindex i eq_refl) as [Hc Hi].
    apply IH.
    + intros i' Hi'. apply indexOf_bound in Hi'. nia.
    + nia.
Qed.

Lemma occurrence_loop_grows fuel text term index count :
  (count <= occurrence_loop fuel text term index count)%nat.
Proof.
  revert index count. induction fuel as [|fuel IH]; intros index count.
  - by destruct index.
  - destruct index as [i|]; [|done]. simpl.
    etrans; [|apply IH]. lia.
Qed.

(** X4.  The occurrences counted do not overlap: the count times the
    length of the normalized term is at most the length of the normalized
    text.  The count is 0 when the term normalizes to nothing, and
    otherwise it is positive exactly when the normalized term occurs in the
    normalized text. *)
Theorem occurrences_are_disjoint (text term : string) :
  (countTermOccurrences text term * String.length (normalizeText term)
   <= String.length (normalizeText text))%nat
  /\ (normalizeText term = EmptyString -> countTermOccurrences text term = 0%nat)
  /\ (normalizeText term <> EmptyString ->
      (0 < countTermOccurrences text term)%nat
      <-> occurs_in (chars (normalizeText term)) (chars (normalizeText text))).
Proof.
  assert (Hlen : forall s, String.length s = length (chars s)).
  { induction s as [|c s IH]; simpl; [done | by rewrite IH]. }
  unfold countTermOccurrences, occurs_in.
  destruct (decide (text = EmptyString \/ term = EmptyString)) as [[-> | ->] | Hne].
  - split; [simpl; lia|]. split; [done|]. intros Hterm. simpl.
    split; [lia|]. intros Hocc. exfalso. apply Hocc.
    destruct (chars (normalizeText term)) eqn:Ht; [|done].
    by apply chars_nil in Ht.
  - split; [simpl; lia|]. split; [done|]. by intros [].
  - rewrite !Hlen.
    destruct (chars (normalizeText term)) as [|c t] eqn:Ht.
    { split; [simpl; lia|]. split; [done|]. intros Hterm.
      by apply chars_nil in Ht. }
    split; [|split].
    + apply occurrence_loop_bound; [done | | simpl; lia].
      intros i Hi. apply indexOf_bound in Hi. simpl in *. lia.
    + intros Hnil. rewrite Hnil in Ht. done.
    + intros _. unfold indexOf. simpl. rewrite drop_0.
      destruct (find_at _ (c :: t)) as [k|]; simpl.
      * split; [done|]. intros _.
        pose proof (occurrence_loop_grows (length (chars (normalizeText text)))
                      (chars (normalizeText text)) (c :: t)
                      (indexOf (chars (normalizeText text)) (c :: t) (k + length (c :: t)))
                      1) as Hg.
        simpl in Hg. lia.
      * split; [lia | done].
Qed.

(** ** More on classification *)

Lemma sort_insert_elem {A} (cmp : A -> A -> number) x l e :
  e ∈ sort_insert cmp x l <-> e = x \/ e ∈ l.
Proof.
  induction l as [|y l IH]; simpl.
  - rewrite list_elem_of_singleton, elem_of_nil. tauto.
  - destruct (num_sign (cmp x y)); rewrite !elem_of_cons, ?IH; tauto.
Qed.

Lemma array_sort_elem {A} (cmp : A -> A -> number) l e :
  e ∈ array_sort cmp l <-> e ∈ l.
Proof.
  unfold array_sort. induction l as [|x l IH]; simpl; [done|].
  rewrite sort_insert_elem, elem_of_cons, IH. tauto.
Qed.

Lemma insert_index_elem {V} n (e : string * V) l x :
  x ∈ insert_index n e l <-> x = (n, e) \/ x ∈ l.
Proof.
  induction l as [|[m e'] l IH]; simpl.
  - rewrite list_elem_of_singleton, elem_of_nil. tauto.
  - destruct (n <? m)%N; rewrite !elem_of_cons, ?IH; tauto.
Qed.

Lemma obj_entries_elem {V} (o : JsObject V) e : e ∈ obj_entries o <-> e ∈ o.
Proof.
  unfold obj_entries. rewrite elem_of_app, list_elem_of_filter.
  assert (Hindex : e ∈ map snd (index_entries o)
                   <-> e ∈ o /\ array_index (fst e) <> None).
  { induction o as [|e' o IH]; simpl.
    - rewrite elem_of_nil. tauto.
    - destruct (array_index (fst e')) as [n|] eqn:He'.
      + rewrite elem_of_cons.
        assert (Hins : e ∈ map snd (insert_index n e' (index_entries o))
                       <-> e = e' \/ e ∈ map snd (index_entries o)).
        { rewrite !list_elem_of_In, !in_map_iff. split.
          - intros (x & <- & Hx%list_elem_of_In%insert_index_elem).
            destruct Hx as [-> | Hx]; [by left|]. right. exists x.
            split; [done | by apply list_elem_of_In].
          - intros [-> | (x & <- & Hx)].
            + exists (n, e'). split; [done|].
              apply list_elem_of_In, insert_index_elem. by left.
            + exists x. split; [done|].
              apply list_elem_of_In, insert_index_elem. right.
              by apply list_elem_of_In. }
        rewrite Hins, IH. split.
        * intros [-> | [? ?]]; [split; [by left | congruence] | tauto].
        * intros [[-> | ?] ?]; tauto.
      + rewrite elem_of_cons, IH. split; [tauto|].
        intros [[-> | ?] ?]; [congruence | tauto]. }
  rewrite Hindex. destruct (array_index (fst e)); split; try tauto.
  intros ?. left. done.
Qed.

Lemma obj_set_NoDup {V} (o : JsObject V) k v : NoDup (keys o) -> NoDup (keys (obj_set o k v)).
Proof.
  intros Ho. rewrite keys_obj_set. case_decide as Hk; [done|].
  apply NoDup_app. split; [done|]. split; [|apply NoDup_singleton].
  intros x Hx ->%list_elem_of_singleton. tauto.
Qed.

Lemma fill_scores_NoDup value schedules o :
  NoDup (keys o) -> NoDup (keys (fill_scores value schedules o)).
Proof.
  unfold fill_scores. revert o.
  induction schedules as [|s schedules IH]; intros o Ho; simpl; [done|].
  by apply IH, obj_set_NoDup.
Qed.

Lemma obj_get_elem {V} (o : JsObject V) k v :
  NoDup (keys o) -> (k, v) ∈ o -> obj_get o k = Some v.
Proof.
  unfold keys. induction o as [|[k' v'] o IH]; simpl; [by intros _ ?%elem_of_nil|].
  intros [Hk' Ho]%NoDup_cons [[= -> ->] | Hin]%elem_of_cons.
  - by rewrite String.eqb_refl.
  - destruct (String.eqb_spec k' k) as [->|?]; [|by apply IH].
    destruct Hk'. apply list_elem_of_fmap. by exists (k, v).
Qed.

Lemma obj_set_values {V} (P : V -> Prop) (o : JsObject V) k v :
  Forall (fun e => P (snd e)) o -> P v -> Forall (fun e => P (snd e)) (obj_set o k v).
Proof.
  intros Ho Hv. unfold obj_set. destruct (String.eqb k "__proto__"); [done|].
  destruct (obj_has o k).
  - apply Forall_map. eapply Forall_impl; [exact Ho|]. intros e He. simpl.
    by destruct (String.eqb (fst e) k).
  - apply Forall_app. split; [done | by constructor].
Qed.

Lemma fill_scores_values (P : number -> Prop) value schedules o :
  Forall (fun e => P (snd e)) o ->
  (forall s, s ∈ schedules -> P (value s)) ->
  Forall (fun e => P (snd e)) (fill_scores value schedules o).
Proof.
  unfold fill_scores. revert o.
  induction schedules as [|s schedules IH]; intros o Ho Hvalue; simpl; [done|].
  apply IH.
  - apply obj_set_values; [done|]. apply Hvalue. left.
  - intros s' Hs'. apply Hvalue. by right.
Qed.

(** X5.  An assignment is never made below the floor.  A result with the
    decision [assigned] comes from a filename rule, with the floor as its
    score, or from the keyword step, with a score that is not less than
    [SCORE_FLOOR]: the score is 18 or more (possibly +Infinity) or it is
    NaN, of which [score < 18] is false as well; and it is 18 or more
    when the weights are integers for which the scores are computed
    without rounding.  In a result of the keyword step ([keyword_score] or
    [low_confidence]) the category named and the score given are an entry
    of the score vector. *)
Theorem assignments_reach_the_floor (options : ClassifyOptions) (r : ClassificationResult) :
  classifyDocument options = Normal r ->
  (cr_decision r = assigned ->
   (cr_reason r = "filename_rule" /\ cr_score r = SCORE_FLOOR)
   \/ (cr_reason r = "keyword_score"
       /\ (cr_score r = NaN \/ reaches_floor (cr_score r))
       /\ (Forall (exact_weights (text options)) (cc_schedules (config options)) ->
           reaches_floor (cr_score r))))
  /\ (cr_reason r = "keyword_score" \/ cr_reason r = "low_confidence" ->
      exists top,
        (cr_schedule r = Some top \/ cr_candidate r = Some top)
        /\ obj_get (cr_scores r) top = Some (cr_score r)).
Proof.
  unfold classifyDocument.
  destruct (truthy_match _) as [m|].
  { intros [= <-]. simpl. split; [by auto|]. intros [?|?]; done. }
  destruct (scanned_check _) as [m|].
  { intros [= <-]. simpl. split; [done|]. intros [?|?]; done. }
  destruct (trim _).
  { intros [= <-]. simpl. split; [done|]. intros [?|?]; done. }
  destruct (array_sort _ _) as [|[best bestScore] rest] eqn:Hsorted; [done|].
  assert (Hin : (best, bestScore) ∈ fill_scores (scoreSchedule (text options))
                                     (cc_schedules (config options)) []).
  { apply obj_entries_elem, (array_sort_elem by_score_desc). rewrite Hsorted. left. }
  assert (Hget : obj_get (fill_scores (scoreSchedule (text options))
                            (cc_schedules (config options)) []) best = Some bestScore).
  { apply obj_get_elem; [apply fill_scores_NoDup; constructor | exact Hin]. }
  destruct (num_ltb bestScore SCORE_FLOOR) eqn:Hfloor; simpl.
  { intros [= <-]. simpl. split; [done|]. intros _. exists best. auto. }
  destruct (num_ltb _ LOW_CONFIDENCE_MARGIN); intros [= <-]; simpl.
  { split; [done|]. intros _. exists best. auto. }
  split; [|intros _; exists best; auto].
  intros _. right. split; [done|].
  assert (Hreach : bestScore <> NaN -> reaches_floor bestScore).
  { intros Hnan. destruct bestScore as [|[]|z]; try done.
    unfold SCORE_FLOOR in Hfloor. simpl in Hfloor. apply Z.ltb_ge in Hfloor. exact Hfloor. }
  split.
  - destruct (decide (bestScore = NaN)); [by left | right; by apply Hreach].
  - intros Hexact. apply Hreach. intros ->.
    assert (Hfinite : Forall (fun e => is_finite (snd e))
                        (fill_scores (scoreSchedule (text options))
                           (cc_schedules (config options)) [])).
    { apply fill_scores_values; [constructor|]. intros s Hs.
      rewrite scoreSchedule_finite; [by eexists|].
      apply (exact_weights_finite (text options)).
      exact (proj1 (Forall_forall _ _) Hexact s Hs). }
    apply (proj1 (Forall_forall _ _) Hfinite) in Hin. simpl in Hin.
    by destruct Hin.
Qed.

Lemma assignments_reach_the_floor_witness :
  exists r,
    classifyDocument clear_deed_input = Normal r
    /\ cr_decision r = assigned
    /\ cr_reason r = "keyword_score"
    /\ Forall (exact_weights (text clear_deed_input)) (cc_schedules (config clear_deed_input))
    /\ reaches_floor (cr_score r)
    /\ exists top,
         (cr_schedule r = Some top \/ cr_candidate r = Some top)
         /\ obj_get (cr_scores r) top = Some (cr_score r).
Proof.
  eexists. split; [vm_compute; reflexivity|].
  split; [reflexivity|]. split; [reflexivity|].
  assert (Hexact : Forall (exact_weights (text clear_deed_input))
                     (cc_schedules (config clear_deed_input))).
  { exact_weights_by_computation. }
  split; [exact Hexact|].
  match goal with
  | |- context [cr_score ?r] =>
      destruct (assignments_reach_the_floor clear_deed_input r) as [Hassigned Hkeyword];
        [vm_compute; reflexivity|]
  end.
  split.
  - destruct (Hassigned eq_refl) as [[Hrule _] | (_ & _ & Hreach)]; [discriminate|].
    exact (Hreach Hexact).
  - apply Hkeyword. by left.
Defined.

(** The floor does not stop a score that is NaN: an infinite weight on a
    term that does not occur gives the product 0 × Infinity. *)
Example nan_score_is_assigned :
  classifyDocument infinite_weight_input =
    Normal {| cr_decision := assigned;
              cr_schedule := Some "M_Mortgages";
              cr_candidate := None;
              cr_reason := "keyword_score";
              cr_score := NaN;
              cr_scores := [("M_Mortgages", NaN)] |}.
Proof. vm_compute. reflexivity. Qed.

(** X6.  The scanned route is taken exactly for a PDF that matched no
    filename rule, has metrics with at least one sampled page, and has a
    sampled character count or a sampled text-item count below its
    threshold: these conditions are necessary and sufficient for a reason
    that starts with [likely_scanned_pdf]. *)
Theorem scanned_route_exactly (options : ClassifyOptions) (r : ClassificationResult) :
  classifyDocument options = Normal r ->
  String.prefix "likely_scanned_pdf" (cr_reason r) = true
  <-> truthy_match (applyFilenameRules (normalizeText (filename options)) (config options))
      = None
      /\ isPdf options = true
      /\ exists m,
           pdfMetrics options = Some m
           /\ num_ltb (Fin 0) (pm_pagesSampled m) = true
           /\ (num_ltb (pm_chars m) (minChars (scannedThresholds options)) = true
               \/ num_ltb (pm_textItems m) (minTextItems (scannedThresholds options))
                  = true).
Proof.
  unfold classifyDocument.
  destruct (truthy_match _) as [m|].
  { intros [= <-]. simpl. split; [done | by intros [? _]]. }
  assert (Hcheck : forall m, scanned_check options = Some m ->
            isPdf options = true /\ pdfMetrics options = Some m
            /\ num_ltb (Fin 0) (pm_pagesSampled m) = true
            /\ (num_ltb (pm_chars m) (minChars (scannedThresholds options)) = true
                \/ num_ltb (pm_textItems m) (minTextItems (scannedThresholds options))
                   = true)).
  { intros m. unfold scanned_check.
    destruct (isPdf options); [|done]. destruct (pdfMetrics options) as [m'|]; [|done].
    destruct (num_ltb (Fin 0) _) eqn:Hp; [|done].
    destruct (num_ltb (pm_chars m') _) eqn:Hc; simpl.
    - intros [= <-]. auto.
    - destruct (num_ltb (pm_textItems m') _) eqn:Hi; [|done]. intros [= <-]. auto. }
  assert (Hnone : scanned_check options = None ->
            ~ (isPdf options = true
               /\ exists m,
                    pdfMetrics options = Some m
                    /\ num_ltb (Fin 0) (pm_pagesSampled m) = true
                    /\ (num_ltb (pm_chars m) (minChars (scannedThresholds options)) = true
                        \/ num_ltb (pm_textItems m)
                             (minTextItems (scannedThresholds options)) = true))).
  { unfold scanned_check. intros Hn (Hpdf & m & Hm & Hp & Hlow).
    rewrite Hpdf, Hm, Hp in Hn.
    destruct Hlow as [Hl | Hl]; rewrite Hl in Hn; [done|].
    by rewrite orb_true_r in Hn. }
  destruct (scanned_check options) as [m|].
  { intros [= <-]. simpl. split; [|done]. intros _.
    destruct (Hcheck m eq_refl) as (? & ? & ? & ?). eauto 10. }
  specialize (Hnone eq_refl).
  destruct (trim _).
  { intros [= <-]. simpl. split; [done | intros [_ ?]; tauto]. }
  destruct (array_sort _ _) as [|[best bestScore] rest]; [done|].
  destruct (_ || _); intros [= <-]; simpl; (split; [done | intros [_ ?]; tauto]).
Qed.

Lemma scanned_route_exactly_witness :
  exists r,
    classifyDocument sparse_scan_input = Normal r
    /\ String.prefix "likely_scanned_pdf" (cr_reason r) = true.
Proof.
  eexists. split; [vm_compute; reflexivity|].
  apply (scanned_route_exactly sparse_scan_input); [vm_compute; reflexivity|].
  split; [reflexivity|]. split; [reflexivity|].
  exists sparse_metrics. split; [reflexivity|]. split; [reflexivity|]. by left.
Defined.

(** ** More on output paths *)

Lemma startsWith_app p r : startsWith (p ++ r) p = true.
Proof.
  induction p as [|a p IH]; simpl; [by destruct r|]. by destruct (ascii_dec a a).
Qed.

Lemma startsWith_prefix l p : startsWith l p = true <-> exists r, l = p ++ r.
Proof.
  split; [|intros [r ->]; apply startsWith_app].
  revert l. induction p as [|a p IH]; intros l; [by exists l|].
  destruct l as [|b l]; simpl; [done|]. destruct (ascii_dec a b) as [->|]; [|done].
  intros [r ->]%IH. by exists r.
Qed.

(** The folder of a path with a slash-free last segment contains every
    prefix of the path that ends before a slash. *)
Lemma last_segment_prefix (p r d fn : list ascii) :
  p ++ "/"%char :: r = d ++ "/"%char :: fn -> "/"%char ∉ fn ->
  exists t, d ++ ["/"%char] = (p ++ ["/"%char]) ++ t.
Proof.
  intros H Hfn. revert d H. induction p as [|a p IH]; intros d H.
  - destruct d as [|c d]; [by exists []|].
    simpl in H. injection H as <- _. exists (d ++ ["/"%char]). done.
  - destruct d as [|c d]; simpl in H.
    + injection H as _ H. destruct Hfn. rewrite <- H. apply elem_of_app. right. left.
    + injection H as <- H. destruct (IH d H) as [t Ht]. exists t.
      simpl. by rewrite Ht.
Qed.

Lemma assign_one_frame m file :
  snd (assign_one m file) = with_outputPath file (pf_outputPath (snd (assign_one m file))).
Proof.
  unfold assign_one. destruct (pop _) as [popped segments].
  destruct (ensureUniqueFilename _ _) as [uniqueName used]. reflexivity.
Qed.

Lemma assign_one_ignores_path m file path :
  assign_one m (with_outputPath file path) = assign_one m file.
Proof.
  unfold assign_one.
  change (buildBaseOutputPath (with_outputPath file path)) with (buildBaseOutputPath file).
  destruct (pop _) as [popped segments].
  change (pf_name (with_outputPath file path)) with (pf_name file).
  destruct (ensureUniqueFilename _ _) as [uniqueName used]. reflexivity.
Qed.

Lemma assign_loop_ignores_paths m files files' :
  Forall2 (fun f f' => exists path, f' = with_outputPath f path) files files' ->
  assign_loop m files' = assign_loop m files.
Proof.
  intros H. revert m. induction H as [|f f' files files' [path ->] _ IH]; intros m; [done|].
  cbn [assign_loop]. rewrite assign_one_ignores_path.
  destruct (assign_one m f) as [m' f'']. by rewrite IH.
Qed.

Lemma assign_loop_frame m files :
  Forall2 (fun f f' => f' = with_outputPath f (pf_outputPath f')) files (assign_loop m files).
Proof.
  revert m. induction files as [|file rest IH]; intros m; cbn [assign_loop]; [constructor|].
  pose proof (assign_one_frame m file) as Hframe.
  destruct (assign_one m file) as [m' file']. constructor; [exact Hframe | apply IH].
Qed.

Lemma assign_one_root m file :
  startsWith (chars (pf_outputPath (snd (assign_one m file)))) (chars (root_folder file))
  = true.
Proof.
  destruct (assign_one_step m file) as (dir & filename & Hbase & Hslash & Hpath & _).
  rewrite Hpath. clear Hpath.
  set (name := fst (ensureUniqueFilename filename _)). clearbody name.
  assert (Hroot : exists p r,
             chars (root_folder file) = p ++ ["/"%char]
             /\ p <> []
             /\ chars (buildBaseOutputPath file) = p ++ "/"%char :: r).
  { unfold root_folder, buildBaseOutputPath. destruct (pf_decision file).
    - exists (chars "DUPLICATES"), (chars (pf_hashPrefix file +:+ "/" +:+ pf_name file)).
      split; [done|]. split; [done|]. by rewrite !chars_app.
    - exists (chars "706/ReviewNeeded"),
        (chars (default "Unknown" (pf_candidate file) +:+ "/" +:+ pf_name file)).
      split; [done|]. split; [done|]. by rewrite !chars_app.
    - exists (chars "706"), (chars (opt_to_string (pf_schedule file) +:+ "/" +:+ pf_name file)).
      split; [done|]. split; [done|]. by rewrite !chars_app. }
  destruct Hroot as (p & r & -> & Hp & Hchars).
  rewrite Hbase, !chars_app in Hchars. simpl in Hchars.
  symmetry in Hchars. apply last_segment_prefix in Hchars as [t Ht]; [|exact Hslash].
  unfold path_in. destruct dir as [|c dir].
  { destruct p; [done|]. simpl in Ht. injection Ht as _ Ht. by destruct p. }
  simpl String.length. change (0 <? S _)%nat with true. cbv iota.
  apply startsWith_prefix. exists (t ++ chars name).
  rewrite !chars_app. change (chars "/") with ["/"%char].
  rewrite (app_assoc _ t), <- Ht, <- app_assoc. done.
Qed.

(** X7.  [assignOutputPaths] changes nothing but the output path, does not
    read the paths that the files had before, and is idempotent. *)
Theorem output_paths_are_recomputed :
  (forall files,
     Forall2 (fun f f' => f' = with_outputPath f (pf_outputPath f'))
       files (assignOutputPaths files))
  /\ (forall files paths,
        length paths = length files ->
        assignOutputPaths (zip_with with_outputPath files paths) = assignOutputPaths files)
  /\ (forall files, assignOutputPaths (assignOutputPaths files) = assignOutputPaths files).
Proof.
  split; [intros files; apply assign_loop_frame|]. split.
  - intros files paths Hlen. apply assign_loop_ignores_paths.
    revert paths Hlen. induction files as [|f files IH]; intros [|p paths] Hlen;
      try done; simpl.
    constructor; [by exists p | apply IH; simpl in Hlen; lia].
  - intros files. apply assign_loop_ignores_paths.
    eapply Forall2_impl; [apply assign_loop_frame|].
    intros f f' ->. by eexists.
Qed.

(** X8.  The output path of a file lies in the tree of its decision:
    under [DUPLICATES/] for a duplicate, under [706/ReviewNeeded/] for a
    review file, under [706/] for an assigned file. *)
Theorem output_path_follows_decision (files : list ProcessedFile) (file : ProcessedFile) :
  file ∈ assignOutputPaths files ->
  startsWith (chars (pf_outputPath file)) (chars (root_folder file)) = true.
Proof.
  unfold assignOutputPaths. generalize (∅ : gmap string (gset string)).
  induction files as [|f rest IH]; intros m; cbn [assign_loop].
  { by intros ?%elem_of_nil. }
  pose proof (assign_one_root m f) as Hroot.
  pose proof (assign_one_frame m f) as Hframe.
  destruct (assign_one m f) as [m' f']. cbn [snd] in *.
  intros [-> | Hin]%elem_of_cons; [|by apply (IH m')].
  rewrite Hframe at 2. exact Hroot.
Qed.

Lemma output_path_follows_decision_witness :
  with_outputPath (blank_file "deed.pdf" Review None) "706/ReviewNeeded/Unknown/deed.pdf"
  ∈ assignOutputPaths [blank_file "deed.pdf" Review None]
  /\ startsWith (chars "706/ReviewNeeded/Unknown/deed.pdf") (chars "706/ReviewNeeded/")
     = true.
Proof.
  assert (Hfile : with_outputPath (blank_file "deed.pdf" Review None)
                    "706/ReviewNeeded/Unknown/deed.pdf"
                  ∈ assignOutputPaths [blank_file "deed.pdf" Review None]).
  { vm_compute. left. }
  split; [exact Hfile|].
  exact (output_path_follows_decision _ _ Hfile).
Defined.

(** ** The scheduler *)

Lemma sum_insert {A} (w : A -> nat) (l : list A) (i : nat) (x y : A) :
  l !! i = Some x ->
  (sum_list_with w (<[i := y]> l) + w x = sum_list_with w l + w y)%nat.
Proof.
  revert i. induction l as [|a l IH]; intros [|i]; simpl; try done.
  - intros [= ->]. lia.
  - intros H. specialize (IH i H). lia.
Qed.

Lemma sum_positive {A} (w : A -> nat) (l : list A) :
  (0 < sum_list_with w l)%nat -> exists i x, l !! i = Some x /\ (0 < w x)%nat.
Proof.
  induction l as [|a l IH]; simpl; [lia|]. intros H.
  destruct (w a) as [|n] eqn:Ha.
  - destruct IH as (i & x & Hi & Hx); [lia|]. by exists (S i), x.
  - exists 0%nat, a. split; [done | lia].
Qed.

Lemma sum_zero {A} (w : A -> nat) (l : list A) (i : nat) (x : A) :
  sum_list_with w l = 0%nat -> l !! i = Some x -> w x = 0%nat.
Proof.
  revert i. induction l as [|a l IH]; intros [|i]; simpl; try done.
  - intros H [= ->]. lia.
  - intros H Hi. apply (IH i); [lia | done].
Qed.

Lemma sum_replicate {A} (w : A -> nat) (n : nat) (x : A) :
  sum_list_with w (replicate n x) = (n * w x)%nat.
Proof. induction n as [|n IH]; simpl; [done|]. rewrite IH. lia. Qed.

Lemma ended_insert_finish tasks files i task item :
  tasks !! i = Some task -> task <> Finished -> files !! i = Some item ->
  ended (<[i := Finished]> tasks) files ≡ₚ item :: ended tasks files.
Proof.
  revert files i. induction tasks as [|t tasks IH]; intros [|f files] [|i]; simpl; try done.
  - intros [= ->] Ht [= ->]. by destruct task.
  - intros Hi Ht Hf. specialize (IH files i Hi Ht Hf).
    destruct t; try done. rewrite IH. apply Permutation_swap.
Qed.

Lemma ended_insert_other tasks files i task task' :
  tasks !! i = Some task -> task <> Finished -> task' <> Finished ->
  ended (<[i := task']> tasks) files = ended tasks files.
Proof.
  revert files i. induction tasks as [|t tasks IH]; intros [|f files] [|i]; simpl; try done.
  - intros [= ->] Ht Ht'. by destruct task, task'.
  - intros Hi Ht Ht'. rewrite (IH files i Hi Ht Ht'). done.
Qed.

Lemma ended_take tasks files k :
  length tasks = length files ->
  (forall i task, tasks !! i = Some task -> task = Finished <-> (i < k)%nat) ->
  ended tasks files = take k files.
Proof.
  revert files k. induction tasks as [|t tasks IH]; intros [|f files] k; simpl; try done.
  { by destruct k. }
  intros [= Hlen] H. destruct k as [|k].
  - assert (Hrest : ended tasks files = take 0 files).
    { apply (IH files 0%nat Hlen). intros i task Hi. specialize (H (S i) task Hi).
      split; [intros ?%H; lia | intros ?; lia]. }
    destruct t; try exact Hrest.
    pose proof (proj1 (H 0%nat Finished eq_refl) eq_refl). lia.
  - assert (Ht : t = Finished) by (apply (H 0%nat t eq_refl); lia).
    subst t. simpl. f_equal.
    apply IH; [done|]. intros i task Hi. specialize (H (S i) task Hi).
    rewrite H. lia.
Qed.

Lemma error_hash_fallback (index : nat) : error_hash ("error-" +:+ pretty index) = true.
Proof. unfold error_hash. rewrite chars_app. apply startsWith_app. Qed.

Lemma idle_not_suspended (tasks : list Task) i task :
  in_flight tasks = 0%nat -> tasks !! i = Some task -> suspended task = false.
Proof.
  intros Hidle Hi.
  pose proof (sum_zero (fun task => if suspended task then 1%nat else 0%nat)
                tasks i task Hidle Hi) as Hzero.
  simpl in Hzero. by destruct (suspended task).
Qed.

Section Scheduler.
Variable hashArrayBuffer : string -> Completion string.
Variable extractPdfText : string -> Completion PdfTextResult.
Variable compiledConfig : CompiledScheduleConfig.
Variable scanThresholds : ScannedDetectionThresholds.
Variable reviewOverrides : gmap string string.
Variable selectedFiles : list SelectedFile.
Variable concurrency : nat.

#[local] Open Scope nat_scope.

#[local] Abbreviation step_ :=
  (step hashArrayBuffer extractPdfText compiledConfig scanThresholds reviewOverrides
     selectedFiles concurrency).
#[local] Abbreviation run_ :=
  (run hashArrayBuffer extractPdfText compiledConfig scanThresholds reviewOverrides
     selectedFiles concurrency).
#[local] Abbreviation initial_ := (initial selectedFiles concurrency).
#[local] Abbreviation start_loop_ := (start_loop selectedFiles concurrency).
#[local] Abbreviation scheduleNext_ := (scheduleNext selectedFiles concurrency).
#[local] Abbreviation set_task_ := (set_task selectedFiles concurrency).
#[local] Abbreviation endings_ :=
  (endings hashArrayBuffer extractPdfText compiledConfig scanThresholds reviewOverrides
     selectedFiles concurrency).
#[local] Abbreviation ok := (scheduler_ok selectedFiles concurrency).

(** The part of [scheduler_ok] that holds inside the loop of
    [scheduleNext] too. *)
#[local] Abbreviation core st :=
  (length (rs_tasks st) = length selectedFiles
   /\ rs_currentIndex st <= length selectedFiles
   /\ (forall i, i < length selectedFiles ->
         rs_tasks st !! i = Some Queued <-> rs_currentIndex st <= i)
   /\ rs_active st = in_flight (rs_tasks st)
   /\ rs_active st <= concurrency).

Lemma start_loop_effect fuel st :
  core st ->
  core (start_loop_ fuel st)
  /\ rs_aborted (start_loop_ fuel st) = rs_aborted st
  /\ rs_store (start_loop_ fuel st) = rs_store st
  /\ work_left (start_loop_ fuel st) = work_left st
  /\ ended (rs_tasks (start_loop_ fuel st)) selectedFiles
     = ended (rs_tasks st) selectedFiles
  /\ (forall j hash,
        rs_tasks (start_loop_ fuel st) !! j = Some (AwaitExtract hash) ->
        rs_tasks st !! j = Some (AwaitExtract hash))
  /\ (rs_aborted st = true -> rs_currentIndex (start_loop_ fuel st) = rs_currentIndex st)
  /\ (length selectedFiles - rs_currentIndex st <= fuel ->
      rs_aborted (start_loop_ fuel st) = true
      \/ rs_active (start_loop_ fuel st) = concurrency
      \/ rs_currentIndex (start_loop_ fuel st) = length selectedFiles).
Proof.
  revert st. induction fuel as [|fuel IH]; intros st Hcore.
  { simpl. do 7 (split; [done|]). intros Hfuel. right. right.
    destruct Hcore as (_ & ? & _). lia. }
  cbn [start_loop].
  destruct (rs_aborted st) eqn:Haborted; cbn [negb andb].
  { do 7 (split; [done|]). by left. }
  destruct (rs_active st <? concurrency) eqn:Hactive; cbn [andb].
  2:{ apply Nat.ltb_ge in Hactive. do 7 (split; [done|]).
      intros _. right. left. destruct Hcore as (_ & _ & _ & _ & ?). lia. }
  destruct (rs_currentIndex st <? length selectedFiles) eqn:Hindex.
  2:{ apply Nat.ltb_ge in Hindex. do 7 (split; [done|]).
      intros _. right. right. destruct Hcore as (_ & ? & _). lia. }
  apply Nat.ltb_lt in Hactive, Hindex.
  destruct Hcore as (Hlen & Hci & Hqueued & Hflight & Hbound).
  assert (Hcurrent : rs_tasks st !! rs_currentIndex st = Some Queued).
  { by apply Hqueued. }
  set (st1 := {| rs_tasks := <[rs_currentIndex st := AwaitBuffer]> (rs_tasks st);
                 rs_currentIndex := S (rs_currentIndex st);
                 rs_active := S (rs_active st);
                 rs_aborted := false;
                 rs_store := rs_store st;
                 rs_resolved := rs_resolved st |}).
  assert (Hcore1 : core st1).
  { subst st1. cbn [rs_tasks rs_currentIndex rs_active].
    split; [by rewrite length_insert|]. split; [lia|]. split; [|split; [|lia]].
    - intros i Hi. destruct (decide (i = rs_currentIndex st)) as [->|Hne].
      + rewrite list_lookup_insert_eq by lia. split; [done | lia].
      + rewrite list_lookup_insert_ne by done. rewrite (Hqueued i Hi). lia.
    - pose proof (sum_insert (fun task => if suspended task then 1 else 0)
                    _ _ _ AwaitBuffer Hcurrent) as Hsum.
      unfold in_flight. simpl in Hsum. rewrite Hflight. unfold in_flight. lia. }
  destruct (IH st1 Hcore1) as (Hc & Ha & Hs & Hw & He & Hx & _ & Hsat).
  split; [exact Hc|]. split; [exact Ha|]. split; [exact Hs|].
  split; [|split; [|split; [|split]]].
  - rewrite Hw. unfold work_left. subst st1. cbn [rs_tasks].
    pose proof (sum_insert awaits_left _ _ _ AwaitBuffer Hcurrent) as Hsum.
    simpl in Hsum. lia.
  - rewrite He. subst st1. cbn [rs_tasks].
    by apply (ended_insert_other _ _ _ Queued).
  - intros j hash Hj. specialize (Hx j hash Hj). subst st1. cbn [rs_tasks] in Hx.
    destruct (decide (j = rs_currentIndex st)) as [->|Hne].
    + rewrite list_lookup_insert_eq in Hx by lia. done.
    + by rewrite list_lookup_insert_ne in Hx.
  - done.
  - intros Hfuel. apply Hsat. subst st1. cbn [rs_currentIndex]. lia.
Qed.

(** [scheduleNext] is its loop, up to the resolution of the promise. *)
Lemma scheduleNext_fields st :
  rs_tasks (scheduleNext_ st) = rs_tasks (start_loop_ (length selectedFiles) st)
  /\ rs_currentIndex (scheduleNext_ st)
     = rs_currentIndex (start_loop_ (length selectedFiles) st)
  /\ rs_active (scheduleNext_ st) = rs_active (start_loop_ (length selectedFiles) st)
  /\ rs_aborted (scheduleNext_ st) = rs_aborted (start_loop_ (length selectedFiles) st)
  /\ rs_store (scheduleNext_ st) = rs_store (start_loop_ (length selectedFiles) st).
Proof.
  unfold scheduleNext. destruct (rs_aborted st) eqn:Ha; cbn [andb].
  - assert (Hsame : start_loop_ (length selectedFiles) st = st).
    { destruct (length selectedFiles); cbn [start_loop]; [done|]. by rewrite Ha. }
    rewrite Hsame. destruct (rs_active st =? 0); [done|].
    cbn zeta. destruct (_ && _); done.
  - cbn zeta. destruct (_ && _); done.
Qed.

Lemma scheduleNext_effect st :
  core st ->
  core (scheduleNext_ st)
  /\ rs_aborted (scheduleNext_ st) = rs_aborted st
  /\ rs_store (scheduleNext_ st) = rs_store st
  /\ work_left (scheduleNext_ st) = work_left st
  /\ ended (rs_tasks (scheduleNext_ st)) selectedFiles
     = ended (rs_tasks st) selectedFiles
  /\ (forall j hash,
        rs_tasks (scheduleNext_ st) !! j = Some (AwaitExtract hash) ->
        rs_tasks st !! j = Some (AwaitExtract hash))
  /\ (rs_aborted st = true -> rs_currentIndex (scheduleNext_ st) = rs_currentIndex st)
  /\ (rs_aborted (scheduleNext_ st) = true
      \/ rs_active (scheduleNext_ st) = concurrency
      \/ rs_currentIndex (scheduleNext_ st) = length selectedFiles).
Proof.
  intros Hcore. destruct (scheduleNext_fields st) as (Ht & Hc & Ha & Hb & Hs).
  destruct (start_loop_effect (length selectedFiles) st Hcore)
    as (H1 & H2 & H3 & H4 & H5 & H6 & H7 & H8).
  unfold work_left in *. rewrite Ht, Hc, Ha, Hb, Hs.
  do 7 (split; [done|]). apply H8. lia.
Qed.

Lemma ok_core st : ok st -> core st.
Proof. intros (? & ? & ? & ? & ? & _). done. Qed.

Lemma suspended_not_queued st i task :
  core st -> rs_tasks st !! i = Some task -> suspended task = true ->
  i < rs_currentIndex st /\ i < length selectedFiles.
Proof.
  intros (Hlen & _ & Hqueued & _) Hi Hs.
  assert (Hlt : i < length selectedFiles).
  { rewrite <- Hlen. by apply lookup_lt_is_Some_1. }
  split; [|done]. destruct (decide (rs_currentIndex st <= i)) as [Hle|]; [|lia].
  apply Hqueued in Hle; [|done]. rewrite Hi in Hle. injection Hle as ->. done.
Qed.

(** The effect of the step that takes worker [i] from [task] to
    [task']. *)
Lemma set_task_effect st i item task task' store :
  ok st ->
  selectedFiles !! i = Some item ->
  rs_tasks st !! i = Some task -> suspended task = true -> task' <> Queued ->
  let st' := set_task_ st i task' store in
  ok st'
  /\ rs_aborted st' = rs_aborted st
  /\ rs_store st' = store
  /\ work_left st' + awaits_left task = work_left st + awaits_left task'
  /\ (if decide (task' = Finished)
      then ended (rs_tasks st') selectedFiles ≡ₚ item :: ended (rs_tasks st) selectedFiles
      else ended (rs_tasks st') selectedFiles = ended (rs_tasks st) selectedFiles)
  /\ (forall j hash,
        rs_tasks st' !! j = Some (AwaitExtract hash) ->
        (j = i /\ task' = AwaitExtract hash)
        \/ (j <> i /\ rs_tasks st !! j = Some (AwaitExtract hash)))
  /\ (rs_aborted st = true -> rs_currentIndex st' = rs_currentIndex st).
Proof.
  intros Hok Hitem Htask Hsusp Hqueued'.
  pose proof (ok_core st Hok) as Hcore.
  destruct (suspended_not_queued st i task Hcore Htask Hsusp) as [Hstarted Hlt].
  destruct Hok as (Hlen & Hci & Hqueued & Hflight & Hbound & Hsat).
  assert (Hnf : task <> Finished) by (by destruct task).
  set (st1 := {| rs_tasks := <[i := task']> (rs_tasks st);
                 rs_currentIndex := rs_currentIndex st;
                 rs_active := rs_active st;
                 rs_aborted := rs_aborted st;
                 rs_store := store;
                 rs_resolved := rs_resolved st |}).
  assert (Hlookup : forall j hash,
            <[i := task']> (rs_tasks st) !! j = Some (AwaitExtract hash) ->
            (j = i /\ task' = AwaitExtract hash)
            \/ (j <> i /\ rs_tasks st !! j = Some (AwaitExtract hash))).
  { intros j hash. destruct (decide (j = i)) as [->|Hne].
    - rewrite list_lookup_insert_eq by (rewrite Hlen; lia). intros [= ->]. by left.
    - rewrite list_lookup_insert_ne by done. by right. }
  assert (Hqueued1 : forall j, j < length selectedFiles ->
            <[i := task']> (rs_tasks st) !! j = Some Queued <-> rs_currentIndex st <= j).
  { intros j Hj. destruct (decide (j = i)) as [->|Hne].
    - rewrite list_lookup_insert_eq by (rewrite Hlen; lia).
      split; [intros [= ->]; done | lia].
    - rewrite list_lookup_insert_ne by done. by apply Hqueued. }
  pose proof (sum_insert (fun task => if suspended task then 1 else 0)
                _ _ _ task' Htask) as Hsum.
  pose proof (sum_insert awaits_left _ _ _ task' Htask) as Hwork.
  simpl in Hsum. rewrite Hsusp in Hsum.
  assert (Hunfold : set_task_ st i task' store
                    = match task' with Finished => worker_ended selectedFiles concurrency st1
                                   | _ => st1 end) by done.
  intros st'. subst st'. rewrite Hunfold. clear Hunfold.
  destruct (decide (task' = Finished)) as [-> | Hnf'].
  - set (st2 := {| rs_tasks := rs_tasks st1;
                   rs_currentIndex := rs_currentIndex st;
                   rs_active := pred (rs_active st);
                   rs_aborted := rs_aborted st;
                   rs_store := store;
                   rs_resolved := rs_resolved st |}).
    assert (Hended : worker_ended selectedFiles concurrency st1
                     = if (length selectedFiles <=? rs_currentIndex st)
                          && (pred (rs_active st) =? 0)
                       then resolve st2 else scheduleNext_ st2)
      by reflexivity.
    rewrite Hended. clear Hended.
    assert (Hcore2 : core st2).
    { subst st2 st1. cbn [rs_tasks rs_currentIndex rs_active].
      split; [by rewrite length_insert|]. split; [done|]. split; [done|].
      unfold in_flight in *. simpl in Hsum. lia. }
    assert (Hended2 : ended (rs_tasks st2) selectedFiles
                      ≡ₚ item :: ended (rs_tasks st) selectedFiles).
    { subst st2 st1. cbn [rs_tasks]. by apply (ended_insert_finish _ _ _ task). }
    assert (Hwork2 : work_left st2 + awaits_left task = work_left st + 0).
    { unfold work_left. subst st2 st1. cbn [rs_tasks]. exact Hwork. }
    destruct ((length selectedFiles <=? rs_currentIndex st) && (pred (rs_active st) =? 0))
      eqn:Hdone.
    + apply andb_true_iff in Hdone as [Hall%Nat.leb_le _].
      split.
      { destruct Hcore2 as (H1 & H2 & H3 & H4 & H5).
        do 5 (split; [done|]). right. right. subst st2. cbn [resolve rs_currentIndex].
        lia. }
      split; [done|]. split; [done|]. split; [exact Hwork2|].
      split; [exact Hended2|]. split; [exact Hlookup | done].
    + destruct (scheduleNext_effect st2 Hcore2)
        as (Hc & Ha & Hs & Hw & He & Hx & Hci' & Hsat').
      split.
      { destruct Hc as (H1 & H2 & H3 & H4 & H5).
        do 5 (split; [done|]). exact Hsat'. }
      split; [exact Ha|]. split; [exact Hs|]. split; [by rewrite Hw|].
      split; [by rewrite He|]. split; [|exact Hci'].
      intros j hash Hj. apply Hlookup. by apply Hx.
  - assert (Hst' : match task' with Finished => worker_ended selectedFiles concurrency st1
                               | _ => st1 end = st1) by (by destruct task').
    rewrite Hst'. subst st1. unfold scheduler_ok.
    cbn [rs_tasks rs_currentIndex rs_active rs_aborted rs_store].
    assert (Hsusp' : suspended task' = true) by (by destruct task').
    rewrite Hsusp' in Hsum.
    split.
    { split; [by rewrite length_insert|]. split; [done|]. split; [done|].
      split; [unfold in_flight in *; lia|]. split; done. }
    split; [done|]. split; [done|]. split; [exact Hwork|].
    split; [by apply (ended_insert_other _ _ _ task)|]. split; [exact Hlookup | done].
Qed.

#[local] Arguments set_task : simpl never.

Lemma classify_and_record_effect item index hash text pdf pdfMetrics store :
  exists e register,
    classify_and_record compiledConfig scanThresholds item index hash text pdf
      pdfMetrics store = push e register store
    /\ entry_source e = file_source item
    /\ ((register = Some hash /\ pf_hash e = hash /\ pf_decision e <> Duplicate)
        \/ (register = None /\ pf_decision e = Review /\ error_hash (pf_hash e) = true)).
Proof.
  unfold classify_and_record. destruct (classifyDocument _) as [r|error].
  - eexists _, _. split; [reflexivity|]. split; [done|]. left.
    split; [done|]. split; [done|]. simpl. by destruct (cr_decision r).
  - unfold fallback. eexists _, _. split; [reflexivity|]. split; [done|]. right.
    split; [done|]. split; [done|]. apply error_hash_fallback.
Qed.

Lemma resume_hash_effect item index store :
  let result :=
    resume_hash hashArrayBuffer compiledConfig scanThresholds reviewOverrides
      item index store in
  (snd result = Finished
   /\ exists e register,
        fst result = push e register store
        /\ entry_source e = file_source item
        /\ recorded (seenHashes store) e register
        /\ forall hash, register = Some hash -> seenHashes store !! hash = None)
  \/ (exists hash,
        snd result = AwaitExtract hash /\ fst result = store
        /\ seenHashes store !! hash = None).
Proof.
  unfold resume_hash. destruct (hashArrayBuffer _) as [hash|error].
  2:{ left. split; [done|]. unfold fallback. eexists _, _.
      split; [reflexivity|]. split; [done|]. split; [|done]. right. right.
      split; [done|]. split; [done|]. apply error_hash_fallback. }
  destruct (decide (is_Some (seenHashes store !! hash))) as [[kept Hkept] | Hnew].
  { left. split; [done|]. eexists _, _. split; [reflexivity|]. split; [done|].
    split; [|done]. left. split; [done|]. split; [done|]. exists kept.
    split; [exact Hkept|]. rewrite Hkept. unfold copies. simpl.
    done. }
  destruct (truthy_match _) as [overrideSchedule|].
  { left. split; [done|]. eexists _, _. split; [reflexivity|]. split; [done|].
    split.
    - right. left. done.
    - intros h [= <-]. simpl. by apply eq_None_not_Some. }
  destruct (isPdfFile _).
  { right. exists hash. split; [done|]. split; [done|]. by apply eq_None_not_Some. }
  left. split; [done|]. cbn [fst snd].
  destruct (classify_and_record_effect item index hash EmptyString false None store)
    as (e & register & -> & Hsource & Hcase).
  exists e, register. split; [done|]. split; [done|].
  destruct Hcase as [(-> & <- & Hd) | (-> & Hd & He)].
  - split; [right; left; done|]. intros h [= <-]. by apply eq_None_not_Some.
  - split; [right; right; done | done].
Qed.

Lemma resume_extract_effect item index hash store :
  exists e register,
    resume_extract extractPdfText compiledConfig scanThresholds item index hash store
    = push e register store
    /\ entry_source e = file_source item
    /\ recorded (seenHashes store) e register
    /\ forall h, register = Some h -> h = hash.
Proof.
  unfold resume_extract. destruct (extractPdfText _) as [pdfMetrics|error].
  - destruct (classify_and_record_effect item index hash (pt_text pdfMetrics) true
                (Some pdfMetrics) store) as (e & register & -> & Hsource & Hcase).
    exists e, register. split; [done|]. split; [done|].
    destruct Hcase as [(-> & <- & Hd) | (-> & Hd & He)].
    + split; [right; left; done|]. by intros h [= <-].
    + split; [right; right; done | done].
  - eexists _, _. split; [reflexivity|]. split; [done|]. split.
    + right. left. done.
    + by intros h [= <-].
Qed.

Lemma step_settle st i st' :
  step_ st (Settle i) = Some st' ->
  exists item task task' store',
    selectedFiles !! i = Some item
    /\ rs_tasks st !! i = Some task /\ suspended task = true /\ task' <> Queued
    /\ awaits_left task' < awaits_left task
    /\ st' = set_task_ st i task' store'
    /\ ((task' <> Finished /\ store' = rs_store st
         /\ forall hash, task' = AwaitExtract hash ->
                         seenHashes (rs_store st) !! hash = None)
        \/ (task' = Finished
            /\ exists e register,
                 store' = push e register (rs_store st)
                 /\ entry_source e = file_source item
                 /\ recorded (seenHashes (rs_store st)) e register
                 /\ forall hash, register = Some hash ->
                      seenHashes (rs_store st) !! hash = None
                      \/ task = AwaitExtract hash)).
Proof.
  cbn [step]. destruct (selectedFiles !! i) as [item|]; simpl; [|done].
  destruct (rs_tasks st !! i) as [task|]; simpl; [|done].
  destruct task as [| | |hash|]; try done.
  - intros [= <-]. exists item, AwaitBuffer, AwaitHash, (rs_store st).
    do 4 (split; [done|]). split; [simpl; lia|]. split; [done|]. left. done.
  - pose proof (resume_hash_effect item i (rs_store st)) as Heffect.
    destruct (resume_hash _ _ _ _ _ _ _) as [store' task'].
    intros [= <-]. cbn [fst snd] in Heffect.
    exists item, AwaitHash, task', store'. do 2 (split; [done|]).
    destruct Heffect as [(-> & e & register & -> & Hsource & Hrec & Hnew)
                        | (hash & -> & -> & Hnew)].
    + do 2 (split; [done|]). split; [simpl; lia|]. split; [done|]. right.
      split; [done|]. exists e, register. do 3 (split; [done|]).
      intros hash Hr. left. by apply Hnew.
    + do 2 (split; [done|]). split; [simpl; lia|]. split; [done|]. left.
      split; [done|]. split; [done|]. by intros h [= <-].
  - intros [= <-].
    destruct (resume_extract_effect item i hash (rs_store st))
      as (e & register & Hpush & Hsource & Hrec & Hreg).
    exists item, (AwaitExtract hash), Finished, (push e register (rs_store st)).
    do 4 (split; [done|]). split; [simpl; lia|]. split; [by rewrite Hpush|]. right.
    split; [done|]. exists e, register. do 3 (split; [done|]).
    intros h Hr. right. by rewrite (Hreg h Hr).
Qed.

#[local] Abbreviation accounted st :=
  (entry_source <$> processed (rs_store st)
   ≡ₚ file_source <$> ended (rs_tasks st) selectedFiles).

#[local] Abbreviation invariant st :=
  (ok st /\ accounted st /\ registry_ok (rs_store st)
   /\ duplicates_have_originals (processed (rs_store st))).

Lemma push_registry store e register :
  registry_ok store -> recorded (seenHashes store) e register ->
  registry_ok (push e register store).
Proof.
  intros [Hseen Hentries] Hrec. unfold push. split; cbn [processed seenHashes].
  - assert (Hold : forall hash kept,
              seenHashes store !! hash = Some kept ->
              pf_hash kept = hash /\ pf_decision kept <> Duplicate
              /\ exists i, (processed store ++ [e]) !! i = Some kept).
    { intros hash kept Hk. destruct (Hseen hash kept Hk) as (? & ? & i & Hi).
      split; [done|]. split; [done|]. exists i. by apply lookup_app_l_Some. }
    destruct Hrec as [(-> & _) | [(-> & Hd) | (-> & _)]]; try exact Hold.
    intros hash kept [[<- <-] | [_ Hk]]%lookup_insert_Some; [|by apply Hold].
    split; [done|]. split; [done|]. exists (length (processed store)).
    by rewrite list_lookup_middle.
  - assert (Hgrow : forall hash,
              is_Some (seenHashes store !! hash) ->
              is_Some (match register with
                       | Some h => <[h := e]> (seenHashes store)
                       | None => seenHashes store
                       end !! hash)).
    { intros hash Hh. destruct register as [h|]; [|done].
      apply lookup_insert_is_Some. destruct (decide (h = hash)); auto. }
    intros x [Hx | ->%list_elem_of_singleton]%elem_of_app Herror.
    + by apply Hgrow, Hentries.
    + destruct Hrec as [(-> & _ & kept & Hk & _) | [(-> & _) | (_ & _ & He)]].
      * by exists kept.
      * rewrite lookup_insert_eq. by eexists.
      * congruence.
Qed.

Lemma push_duplicates store e register :
  registry_ok store -> duplicates_have_originals (processed store) ->
  recorded (seenHashes store) e register ->
  duplicates_have_originals (processed (push e register store)).
Proof.
  intros [Hseen _] Hold Hrec j x. unfold push. cbn [processed].
  intros Hj Hd. destruct (decide (j < length (processed store))) as [Hlt | Hge].
  - rewrite lookup_app_l in Hj by done.
    destruct (Hold j x Hj Hd) as (i & kept & Hi & Hk & Hrest).
    exists i, kept. split; [done|]. split; [by apply lookup_app_l_Some | done].
  - assert (Hlast : j = length (processed store)).
    { apply lookup_lt_Some in Hj. rewrite length_app in Hj. simpl in Hj. lia. }
    subst j. rewrite list_lookup_middle in Hj by done. injection Hj as <-.
    destruct Hrec as [(_ & _ & kept & Hk & Hcopies) | [(_ & Hn) | (_ & Hr & _)]];
      [| done | congruence].
    destruct (Hseen _ kept Hk) as (Hhash & Hkd & i & Hi).
    exists i, kept. split; [by apply lookup_lt_Some in Hi|].
    split; [by apply lookup_app_l_Some | done].
Qed.

Lemma push_detected store e register :
  registry_ok store -> copies_are_detected (processed store) ->
  recorded (seenHashes store) e register ->
  (forall hash, register = Some hash -> seenHashes store !! hash = None) ->
  copies_are_detected (processed (push e register store)).
Proof.
  intros [_ Hentries] Hold Hrec Hnew i j x y Hij. unfold push. cbn [processed].
  intros Hi Hj Hhash Herror.
  destruct (decide (j < length (processed store))) as [Hlt | Hge].
  - rewrite lookup_app_l in Hi by lia. rewrite lookup_app_l in Hj by done.
    by apply (Hold i j x y).
  - assert (Hlast : j = length (processed store)).
    { apply lookup_lt_Some in Hj. rewrite length_app in Hj. simpl in Hj. lia. }
    subst j. rewrite list_lookup_middle in Hj by done. injection Hj as <-.
    rewrite lookup_app_l in Hi by done.
    assert (Hknown : is_Some (seenHashes store !! pf_hash x)).
    { apply Hentries; [|done]. by eapply list_elem_of_lookup_2. }
    destruct Hrec as [(_ & Hd & _) | [(Hr & _) | (_ & _ & He)]]; [done | |congruence].
    rewrite Hhash, (Hnew _ Hr) in Hknown. by destruct Hknown.
Qed.

Lemma step_invariant st event st' :
  invariant st -> step_ st event = Some st' ->
  invariant st'
  /\ work_left st' + (if is_settle event then 1 else 0) <= work_left st
  /\ (rs_aborted st = true ->
      rs_aborted st' = true /\ rs_currentIndex st' = rs_currentIndex st)
  /\ (is_settle event = true -> rs_aborted st' = rs_aborted st).
Proof.
  intros (Hok & Hacc & Hreg & Hdup) Hstep. destruct event as [i|].
  2:{ injection Hstep as <-. cbn [rs_store rs_tasks rs_aborted rs_currentIndex is_settle].
      split; [|split; [unfold work_left; simpl; lia | split; done]].
      split; [|done]. destruct Hok as (? & ? & ? & ? & ? & _).
      do 5 (split; [done|]). by left. }
  apply step_settle in Hstep
    as (item & task & task' & store' & Hitem & Htask & Hsusp & Hq & Hless & -> & Hcase).
  destruct (set_task_effect st i item task task' store' Hok Hitem Htask Hsusp Hq)
    as (Hok' & Haborted & Hstore & Hwork & Hended & _ & Hci).
  cbn [is_settle].
  split; [|split; [lia | split; [|done]]].
  2:{ intros Ha. split; [by rewrite Haborted | by apply Hci]. }
  split; [exact Hok'|]. rewrite Hstore.
  destruct Hcase as [(Hnf & -> & _) | (-> & e & register & -> & Hsource & Hrec & _)].
  - destruct (decide (task' = Finished)); [done|]. rewrite Hended. done.
  - destruct (decide (Finished = Finished)); [|done].
    split; [|split; [by apply push_registry | by apply push_duplicates]].
    rewrite Hended. unfold push. cbn [processed].
    rewrite fmap_app, fmap_cons. simpl. rewrite Hsource, Hacc.
    symmetry. apply Permutation_cons_append.
Qed.

Lemma run_invariant events st st' :
  invariant st -> run_ st events = Some st' ->
  invariant st'
  /\ work_left st' + settles events <= work_left st
  /\ (rs_aborted st = true ->
      rs_aborted st' = true /\ rs_currentIndex st' = rs_currentIndex st)
  /\ (Abort ∉ events -> rs_aborted st' = rs_aborted st).
Proof.
  revert st. induction events as [|event events IH]; intros st Hinv; cbn [run].
  { intros [= <-]. split; [done|]. split; [unfold settles; simpl; lia|]. done. }
  destruct (step_ st event) as [st1|] eqn:Hstep; simpl; [|done].
  intros Hrun.
  destruct (step_invariant st event st1 Hinv Hstep) as (Hinv1 & Hwork1 & Hab1 & Hset1).
  destruct (IH st1 Hinv1 Hrun) as (Hinv' & Hwork' & Hab' & Hset').
  split; [done|]. split; [|split].
  - unfold settles in *. rewrite filter_cons.
    destruct event; simpl in *; [|lia].
    destruct (decide (true = true)); [|done]. simpl. lia.
  - intros Ha. destruct (Hab1 Ha) as [Ha1 Hc1]. destruct (Hab' Ha1) as [Ha' Hc'].
    split; [done | congruence].
  - intros Hno. rewrite Hset'.
    + apply Hset1. destruct event; [done|]. destruct Hno. left.
    + intros Hin. apply Hno. by right.
Qed.

Lemma initial_invariant :
  invariant initial_
  /\ work_left initial_ = 3 * length selectedFiles
  /\ rs_aborted initial_ = false.
Proof.
  unfold initial.
  set (st0 := {| rs_tasks := replicate (length selectedFiles) Queued;
                 rs_currentIndex := 0;
                 rs_active := 0;
                 rs_aborted := false;
                 rs_store := {| processed := []; seenHashes := ∅ |};
                 rs_resolved := false |}).
  assert (Hcore : core st0).
  { subst st0. cbn [rs_tasks rs_currentIndex rs_active].
    split; [by rewrite length_replicate|]. split; [lia|]. split; [|split; [|lia]].
    - intros i Hi. rewrite lookup_replicate_2 by done. split; [lia | done].
    - unfold in_flight. rewrite sum_replicate. simpl. lia. }
  assert (Hnone : ended (rs_tasks st0) selectedFiles = []).
  { subst st0. cbn [rs_tasks]. generalize selectedFiles as files.
    induction files as [|f files IH]; simpl; done. }
  destruct (scheduleNext_effect st0 Hcore)
    as (Hc & Ha & Hs & Hw & He & _ & _ & Hsat).
  split; [|split].
  - split.
    { destruct Hc as (H1 & H2 & H3 & H4 & H5). do 5 (split; [done|]).
      exact Hsat. }
    rewrite Hs, He, Hnone. subst st0. cbn [rs_store processed seenHashes].
    split; [done|]. split; [|by intros j e ?].
    split; [by intros hash kept ? | by intros e ?%elem_of_nil].
  - rewrite Hw. unfold work_left. subst st0. cbn [rs_tasks].
    rewrite sum_replicate. simpl. lia.
  - by rewrite Ha.
Qed.

Lemma reachable_invariant events st :
  run_ initial_ events = Some st -> invariant st.
Proof.
  intros Hrun. destruct initial_invariant as (Hinv & _).
  by destruct (run_invariant events _ st Hinv Hrun) as (? & _).
Qed.

Lemma run_app events more st :
  run_ st (events ++ more) = st' ← run_ st events; run_ st' more.
Proof.
  revert st. induction events as [|event events IH]; intros st; cbn [run app]; [done|].
  destruct (step_ st event) as [st1|]; simpl; [apply IH | done].
Qed.

(** *** The resolution of the promise *)

#[local] Abbreviation resolution := (resolution_ok selectedFiles concurrency).

Lemma start_loop_aborted fuel st : rs_aborted st = true -> start_loop_ fuel st = st.
Proof. intros Ha. destruct fuel; cbn [start_loop]; [done|]. by rewrite Ha. Qed.

Lemma start_loop_flags fuel st :
  rs_aborted (start_loop_ fuel st) = rs_aborted st
  /\ rs_resolved (start_loop_ fuel st) = rs_resolved st.
Proof.
  revert st. induction fuel as [|fuel IH]; intros st; cbn [start_loop]; [done|].
  destruct (_ && _); [|done]. destruct (IH
    {| rs_tasks :=
         <[rs_currentIndex st := if rs_aborted st then Finished else AwaitBuffer]>
           (rs_tasks st);
       rs_currentIndex := S (rs_currentIndex st);
       rs_active := S (rs_active st);
       rs_aborted := rs_aborted st;
       rs_store := rs_store st;
       rs_resolved := rs_resolved st |}) as [-> ->]. done.
Qed.

Lemma scheduleNext_resolution st :
  rs_resolved st = false ->
  (rs_aborted st = true -> rs_active st = 0 -> 0 < concurrency) ->
  resolution (scheduleNext_ st).
Proof.
  intros Hflag Hworkers. unfold scheduleNext, resolution_ok.
  destruct (rs_aborted st) eqn:Ha; cbn [andb].
  - destruct (rs_active st =? 0) eqn:Hidle.
    + apply Nat.eqb_eq in Hidle.
      cbn [resolve rs_resolved rs_active rs_currentIndex rs_aborted]. rewrite Ha.
      split; [|done]. intros _. split; [done|]. right. split; [done|].
      by apply Hworkers.
    + cbn zeta. rewrite (start_loop_aborted _ st Ha), Hidle, andb_false_r, Hflag.
      apply Nat.eqb_neq in Hidle. split; [done|]. by intros [? _].
  - cbn zeta. destruct (start_loop_flags (length selectedFiles) st) as [Hab Hfl].
    destruct (_ && _) eqn:Hdone.
    + cbn [resolve rs_resolved rs_active rs_currentIndex rs_aborted].
      apply andb_true_iff in Hdone as [Hall%Nat.leb_le Hidle%Nat.eqb_eq].
      split; [|done]. intros _. split; [done | by left].
    + rewrite Hfl, Hflag. split; [done|]. intros [Hidle [Hall | [Habort _]]].
      * apply andb_false_iff in Hdone as [Hd%Nat.leb_gt | Hd%Nat.eqb_neq]; [lia | done].
      * rewrite Hab, Ha in Habort. done.
Qed.

Lemma busy_not_resolved st i task :
  ok st -> resolution st -> rs_tasks st !! i = Some task -> suspended task = true ->
  0 < rs_active st /\ rs_resolved st = false.
Proof.
  intros (_ & _ & _ & Hflight & _) Hres Htask Hsusp.
  assert (Hbusy : 0 < rs_active st).
  { rewrite Hflight. destruct (decide (in_flight (rs_tasks st) = 0)) as [Hz|]; [|lia].
    pose proof (idle_not_suspended _ i task Hz Htask). congruence. }
  split; [done|]. destruct (rs_resolved st) eqn:Hf; [|done].
  apply Hres in Hf as [? _]. lia.
Qed.

Lemma step_resolution st event st' :
  ok st -> resolution st -> step_ st event = Some st' -> resolution st'.
Proof.
  intros Hok Hres Hstep. destruct event as [i|].
  2:{ injection Hstep as <-. unfold resolution_ok in *.
      cbn [rs_resolved rs_active rs_currentIndex rs_aborted]. rewrite Hres.
      destruct Hok as (_ & _ & _ & _ & _ & Hsat).
      split; intros [Hidle Hcase]; (split; [done|]).
      - destruct Hcase as [?|[_ ?]]; [by left | by right].
      - destruct Hcase as [?|[_ Hw]]; [by left|].
        destruct Hsat as [Ha | [Hfull | Hall]]; [by right | lia | left; lia]. }
  apply step_settle in Hstep
    as (item & task & task' & store' & Hitem & Htask & Hsusp & Hq & _ & -> & _).
  destruct (busy_not_resolved st i task Hok Hres Htask Hsusp) as [Hbusy Hflag].
  destruct Hok as (_ & _ & _ & _ & Hbound & _).
  assert (Hstay : resolution {| rs_tasks := <[i := task']> (rs_tasks st);
                                rs_currentIndex := rs_currentIndex st;
                                rs_active := rs_active st;
                                rs_aborted := rs_aborted st;
                                rs_store := store';
                                rs_resolved := rs_resolved st |}).
  { unfold resolution_ok. cbn [rs_resolved rs_active rs_currentIndex rs_aborted].
    rewrite Hflag. split; [done|]. intros [? _]. lia. }
  unfold set_task. destruct task'; try exact Hstay.
  unfold worker_ended. cbn [rs_currentIndex rs_active rs_tasks rs_aborted rs_store rs_resolved].
  destruct (_ && _) eqn:Hdone.
  - apply andb_true_iff in Hdone as [Hall%Nat.leb_le Hidle%Nat.eqb_eq].
    unfold resolution_ok. cbn [resolve rs_resolved rs_active rs_currentIndex rs_aborted].
    split; [|done]. intros _. split; [done | by left].
  - apply scheduleNext_resolution; [exact Hflag|]. intros _ _. lia.
Qed.

Lemma run_resolution events st st' :
  invariant st -> resolution st -> run_ st events = Some st' -> resolution st'.
Proof.
  revert st. induction events as [|event events IH]; intros st Hinv Hres; cbn [run].
  { by intros [= <-]. }
  destruct (step_ st event) as [st1|] eqn:Hstep; simpl; [|done].
  apply IH.
  - by destruct (step_invariant st event st1 Hinv Hstep) as (? & _).
  - by apply (step_resolution st event st1 (proj1 Hinv)).
Qed.

Lemma initial_resolution : resolution initial_.
Proof. unfold initial. by apply scheduleNext_resolution. Qed.

Lemma reachable_resolution events st :
  run_ initial_ events = Some st -> resolution st.
Proof.
  intros Hrun. destruct initial_invariant as (Hinv & _).
  exact (run_resolution events _ st Hinv initial_resolution Hrun).
Qed.

Lemma resolved_all_ended st :
  ok st -> resolution st -> resolved st = true ->
  ended (rs_tasks st) selectedFiles = take (rs_currentIndex st) selectedFiles
  /\ work_left st = 3 * (length selectedFiles - rs_currentIndex st)
  /\ (rs_aborted st = false -> rs_currentIndex st = length selectedFiles)
  /\ (forall i, i < length selectedFiles ->
        rs_tasks st !! i
        = Some (if decide (i < rs_currentIndex st) then Finished else Queued)).
Proof.
  intros (Hlen & Hci & Hqueued & Hflight & _) Hresolution Hres.
  apply Hresolution in Hres as [Hidle Hend].
  assert (Htasks : forall i task, rs_tasks st !! i = Some task ->
            (rs_currentIndex st <= i -> task = Queued)
            /\ (i < rs_currentIndex st -> task = Finished)).
  { intros i task Hi.
    assert (Hlt : i < length selectedFiles).
    { rewrite <- Hlen. by apply lookup_lt_is_Some_1. }
    split.
    - intros Hle. apply Hqueued in Hle; [|done]. congruence.
    - intros Hstarted.
      assert (Hq : task <> Queued).
      { intros ->. apply Hqueued in Hi; [lia | done]. }
      assert (Hs : suspended task = false).
      { apply (idle_not_suspended (rs_tasks st) i); [lia | done]. }
      by destruct task. }
  split; [|split; [|split]].
  - apply ended_take; [done|]. intros i task Hi. destruct (Htasks i task Hi) as [Hq Hf].
    split; [|done]. intros ->. destruct (decide (i < rs_currentIndex st)); [done|].
    by specialize (Hq ltac:(lia)).
  - unfold work_left.
    assert (Hsum : forall (tasks : list Task) k,
              (forall i task, tasks !! i = Some task ->
                 (k <= i -> task = Queued) /\ (i < k -> task = Finished)) ->
              sum_list_with awaits_left tasks = 3 * (length tasks - k)).
    { clear. induction tasks as [|t tasks IH]; intros k H; simpl; [lia|].
      destruct k as [|k].
      - rewrite (proj1 (H 0 t eq_refl)) by lia. simpl.
        rewrite (IH 0); [lia|]. intros i task Hi. split; [|lia].
        intros _. apply (H (S i) task Hi). lia.
      - rewrite (proj2 (H 0 t eq_refl)) by lia. simpl.
        apply IH. intros i task Hi. destruct (H (S i) task Hi). split; intros; auto with lia. }
    rewrite (Hsum _ (rs_currentIndex st) Htasks), Hlen. done.
  - intros Ha. destruct Hend as [? | [? _]]; [lia | congruence].
  - intros i Hi. destruct (lookup_lt_is_Some_2 (rs_tasks st) i) as [task Htask]; [lia|].
    rewrite Htask. destruct (Htasks i task Htask) as [Hq Hf].
    destruct (decide (i < rs_currentIndex st)); [by rewrite Hf | by rewrite Hq by lia].
Qed.

Lemma step_enabled st i item task :
  selectedFiles !! i = Some item -> rs_tasks st !! i = Some task ->
  suspended task = true -> is_Some (step_ st (Settle i)).
Proof.
  intros Hitem Htask Hs. cbn [step]. rewrite Hitem, Htask. simpl.
  destruct task; try done.
  destruct (resume_hash _ _ _ _ _ _ _). done.
Qed.

Lemma can_finish w st :
  0 < concurrency -> invariant st -> resolution st -> work_left st <= w ->
  exists more st',
    Forall (fun event => is_settle event = true) more
    /\ run_ st more = Some st' /\ resolved st' = true.
Proof.
  intros Hworkers. revert st. induction w as [|w IH]; intros st Hinv Hresolution Hw;
    (destruct (resolved st) eqn:Hres;
     [by exists [], st|]);
    (assert (Hactive : 0 < in_flight (rs_tasks st));
     [ destruct Hinv as ((_ & Hci & _ & Hflight & _ & Hsat) & _);
       rewrite <- Hflight;
       destruct (decide (rs_active st = 0)) as [Hidle|]; [|lia];
       assert (Hnot : rs_resolved st <> true) by (unfold resolved in Hres; congruence);
       destruct Hnot; apply Hresolution; split; [done|];
       destruct Hsat as [? | [? | ?]]; [by right | lia | left; lia]
     |]);
    apply sum_positive in Hactive as (i & task & Htask & Hs);
    (assert (Hsusp : suspended task = true) by (destruct (suspended task); [done | lia]));
    (assert (Hitem : is_Some (selectedFiles !! i));
     [ apply lookup_lt_is_Some_2; destruct Hinv as ((Hlen & _) & _);
       rewrite <- Hlen; by apply lookup_lt_is_Some_1 |]);
    destruct Hitem as [item Hitem];
    destruct (step_enabled st i item task Hitem Htask Hsusp) as [st1 Hstep];
    destruct (step_invariant st (Settle i) st1 Hinv Hstep) as (Hinv1 & Hwork1 & _);
    simpl in Hwork1; [lia|].
  destruct (IH st1 Hinv1) as (more & st' & Hmore & Hrun & Hres');
    [by apply (step_resolution st (Settle i) st1 (proj1 Hinv)) | lia |].
  exists (Settle i :: more), st'. split; [by constructor|].
  split; [|done]. cbn [run]. rewrite Hstep. done.
Qed.

Lemma one_in_flight (tasks : list Task) i j task task' :
  in_flight tasks <= 1 ->
  tasks !! i = Some task -> suspended task = true ->
  tasks !! j = Some task' -> suspended task' = true -> i = j.
Proof.
  intros Hone Hi Hs Hj Hs'. destruct (decide (i = j)) as [|Hne]; [done|].
  pose proof (sum_insert (fun task => if suspended task then 1 else 0)
                _ _ _ Finished Hi) as Hsum.
  simpl in Hsum. rewrite Hs in Hsum. unfold in_flight in Hone.
  assert (Hj' : <[i := Finished]> tasks !! j = Some task').
  { by rewrite list_lookup_insert_ne. }
  assert (Hidle : in_flight (<[i := Finished]> tasks) = 0) by (unfold in_flight; lia).
  pose proof (idle_not_suspended _ j task' Hidle Hj') as Hzero.
  congruence.
Qed.

#[local] Abbreviation sequential st :=
  (copies_are_detected (processed (rs_store st))
   /\ forall j hash, rs_tasks st !! j = Some (AwaitExtract hash) ->
                     seenHashes (rs_store st) !! hash = None).

Lemma step_sequential st event st' :
  concurrency <= 1 -> invariant st -> sequential st ->
  step_ st event = Some st' -> sequential st'.
Proof.
  intros Hone (Hok & _ & Hreg & _) [Hdet Hwait] Hstep. destruct event as [i|].
  2:{ by injection Hstep as <-. }
  apply step_settle in Hstep
    as (item & task & task' & store' & Hitem & Htask & Hsusp & Hq & Hless & -> & Hcase).
  destruct (set_task_effect st i item task task' store' Hok Hitem Htask Hsusp Hq)
    as (_ & _ & Hstore & _ & _ & Hx & _).
  rewrite Hstore.
  destruct Hcase as [(Hnf & -> & Hnew) | (-> & e & register & -> & Hsource & Hrec & Hnew)].
  - split; [done|]. intros j hash Hj.
    destruct (Hx j hash Hj) as [[-> ->] | [_ Hold]]; [by apply Hnew | by apply (Hwait j)].
  - split.
    + apply push_detected; try done. intros hash Hr.
      destruct (Hnew hash Hr) as [? | ->]; [done | by apply (Hwait i)].
    + intros j hash Hj. destruct (Hx j hash Hj) as [[_ ?] | [Hne Hold]]; [done|].
      destruct Hne. destruct Hok as (_ & _ & _ & Hflight & Hbound & _).
      apply (one_in_flight (rs_tasks st) j i (AwaitExtract hash) task); try done.
      rewrite <- Hflight. lia.
Qed.

Lemma run_sequential events st st' :
  concurrency <= 1 -> invariant st -> sequential st ->
  run_ st events = Some st' -> sequential st'.
Proof.
  intros Hone. revert st. induction events as [|event events IH]; intros st Hinv Hseq;
    cbn [run].
  { by intros [= <-]. }
  destruct (step_ st event) as [st1|] eqn:Hstep; simpl; [|done].
  apply IH.
  - by destruct (step_invariant st event st1 Hinv Hstep) as (? & _).
  - by apply (step_sequential st event).
Qed.

Lemma assign_lookup files j e' :
  assignOutputPaths files !! j = Some e' ->
  exists e, files !! j = Some e /\ e' = with_outputPath e (pf_outputPath e').
Proof.
  intros Hj. pose proof (assign_loop_frame ∅ files) as Hframe.
  destruct (Forall2_lookup_r _ _ _ _ _ Hframe Hj) as (e & He & Heq).
  exists e. done.
Qed.

Lemma assign_lookup_inv files j e :
  files !! j = Some e ->
  exists e', assignOutputPaths files !! j = Some e'
             /\ e' = with_outputPath e (pf_outputPath e').
Proof.
  intros Hj. pose proof (assign_loop_frame ∅ files) as Hframe.
  destruct (Forall2_lookup_l _ _ _ _ _ Hframe Hj) as (e' & He' & Heq).
  exists e'. split; [exact He' | done].
Qed.

Lemma assign_sources files :
  entry_source <$> assignOutputPaths files = entry_source <$> files.
Proof.
  pose proof (assign_loop_frame ∅ files) as Hframe. unfold assignOutputPaths.
  induction Hframe as [|f f' files files' Hf _ IH]; [done|].
  rewrite !fmap_cons, IH, Hf. done.
Qed.

(** X9.  The bookkeeping of [runWithConcurrency], in every state that a
    run can reach, whatever the order in which the awaited promises
    settle: the workers are started in the order of the files; the number
    of workers in flight is [active] and is at most [concurrency]; unless
    the run is aborted, all slots are taken or every file has been
    started; and a run consists of at most three settlements per file. *)
Theorem scheduler_keeps_its_bounds (events : list Event) (st : RunState) :
  run_ initial_ events = Some st ->
  scheduler_ok selectedFiles concurrency st
  /\ settles events + work_left st <= 3 * length selectedFiles.
Proof.
  intros Hrun. destruct initial_invariant as (Hinv & Hwork & _).
  destruct (run_invariant events _ st Hinv Hrun) as ((Hok & _) & Hbound & _).
  split; [exact Hok | lia].
Qed.

(** X10.  A run can always be completed: with at least one worker
    allowed, from every state that a run can reach, some sequence of
    settlements leads to a state in which the promise of
    [runWithConcurrency] is resolved. *)
Theorem run_can_always_finish (events : list Event) (st : RunState) :
  0 < concurrency ->
  run_ initial_ events = Some st ->
  exists more st',
    Forall (fun event => is_settle event = true) more
    /\ run_ st more = Some st'
    /\ resolved st' = true.
Proof.
  intros Hworkers Hrun. apply (can_finish (work_left st)); [done | | | done].
  - by apply (reachable_invariant events).
  - by apply (reachable_resolution events).
Qed.

(** X11.  Without a worker allowed, nothing ever happens.  In a run over
    a non-empty selection with [concurrency] 0, whatever the events: no
    worker is started, so that no promise is awaited and cancellations are
    the only events; no entry is made; and the promise of
    [runWithConcurrency] is never resolved, not even by a cancellation, so
    that [handleRunSort] never gets past it. *)
Theorem run_needs_a_worker (events : list Event) (st : RunState) :
  concurrency = 0 -> selectedFiles <> [] ->
  run_ initial_ events = Some st ->
  Forall (fun event => event = Abort) events
  /\ rs_currentIndex st = 0
  /\ rs_active st = 0
  /\ rs_tasks st = replicate (length selectedFiles) Queued
  /\ processed (rs_store st) = []
  /\ resolved st = false
  /\ handleRunSort hashArrayBuffer extractPdfText compiledConfig scanThresholds
       reviewOverrides selectedFiles concurrency events = None.
Proof.
  intros Hzero Hfiles Hrun.
  set (idle := fun st : RunState =>
         rs_currentIndex st = 0 /\ rs_active st = 0
         /\ rs_tasks st = replicate (length selectedFiles) Queued
         /\ processed (rs_store st) = [] /\ rs_resolved st = false).
  assert (Hinitial : idle initial_).
  { unfold initial, scheduleNext. cbn [rs_aborted andb]. cbn zeta.
    destruct (length selectedFiles) as [|n] eqn:Hn.
    { by destruct selectedFiles. }
    cbn [start_loop rs_aborted rs_active negb andb]. rewrite Hzero. done. }
  assert (Hidle : forall more st0 st',
            idle st0 -> run_ st0 more = Some st' ->
            Forall (fun event => event = Abort) more /\ idle st').
  { clear Hrun. intros more.
    induction more as [|event more IH]; intros st0 st' Hst0; cbn [run].
    { intros [= <-]. by split. }
    destruct event as [i|].
    - destruct Hst0 as (_ & _ & Htasks & _). cbn [step]. rewrite Htasks.
      destruct (selectedFiles !! i) as [item|]; simpl; [|done].
      destruct (replicate (length selectedFiles) Queued !! i) as [task|] eqn:Hi;
        simpl; [|done].
      apply lookup_replicate in Hi as [-> _]. done.
    - cbn [step]. simpl. intros Hrest.
      apply IH in Hrest as [Hall Hst']; [by split; [constructor|] | exact Hst0]. }
  destruct (Hidle events initial_ st Hinitial Hrun)
    as (Hall & Hci & Hactive & Htasks & Hnone & Hflag).
  do 5 (split; [done|]). split; [exact Hflag|].
  unfold handleRunSort. destruct (length _ =? 0)%nat; [done|].
  rewrite Hrun. simpl. unfold resolved. by rewrite Hflag.
Qed.

Lemma result_duplicates events files :
  handleRunSort hashArrayBuffer extractPdfText compiledConfig scanThresholds
    reviewOverrides selectedFiles concurrency events = Some files ->
  duplicates_have_originals files.
Proof.
  unfold handleRunSort. destruct (length _ =? 0)%nat; [done|].
  destruct (run_ initial_ events) as [st|] eqn:Hrun; simpl; [|done].
  destruct (resolved st); [|done]. intros [= <-].
  intros j e' Hj Hd.
  destruct (assign_lookup _ _ _ Hj) as (e & He & Hframe).
  destruct (reachable_invariant events st Hrun) as (_ & _ & _ & Hstate).
  destruct (Hstate j e He) as (i & kept & Hi & Hk & Hhash & Hkd & Hcopies).
  { by rewrite Hframe in Hd. }
  destruct (assign_lookup_inv _ _ _ Hk) as (kept' & Hk' & Hframe').
  exists i, kept'. split; [done|]. split; [done|].
  rewrite Hframe, Hframe'. done.
Qed.

(** X13.  After a cancellation no further file is started: the index of
    the next file stays where it was when the run was cancelled. *)
Theorem cancel_starts_nothing (before after : list Event) (st : RunState) :
  run_ initial_ (before ++ Abort :: after) = Some st ->
  exists st0,
    run_ initial_ before = Some st0
    /\ rs_aborted st = true
    /\ rs_currentIndex st = rs_currentIndex st0.
Proof.
  rewrite run_app. destruct (run_ initial_ before) as [st0|] eqn:Hbefore; simpl; [|done].
  intros Hrun. exists st0. split; [done|].
  pose proof (reachable_invariant before st0 Hbefore) as Hinv0.
  set (st1 := {| rs_tasks := rs_tasks st0;
                 rs_currentIndex := rs_currentIndex st0;
                 rs_active := rs_active st0;
                 rs_aborted := true;
                 rs_store := rs_store st0;
                 rs_resolved := rs_resolved st0 |}) in *.
  assert (Hstep : step_ st0 Abort = Some st1) by done.
  destruct (step_invariant st0 Abort st1 Hinv0 Hstep) as (Hinv1 & _).
  destruct (run_invariant after st1 st Hinv1 Hrun) as (_ & _ & Hab & _).
  destruct (Hab eq_refl) as [Ha Hc]. split; [done|]. by rewrite Hc.
Qed.

(** X14.  Every duplicate has an original: in every state of a run, and
    in its result, an entry with the decision [duplicate] comes after an
    entry with the same digest that is not a duplicate, and has the
    category, the candidate, the score and the score vector of that
    entry. *)
Theorem duplicates_copy_a_kept_file (events : list Event) :
  (forall st, run_ initial_ events = Some st ->
              duplicates_have_originals (processed (rs_store st)))
  /\ (forall files,
        handleRunSort hashArrayBuffer extractPdfText compiledConfig scanThresholds
          reviewOverrides selectedFiles concurrency events = Some files ->
        duplicates_have_originals files).
Proof.
  split.
  - intros st Hrun. by destruct (reachable_invariant events st Hrun) as (_ & _ & _ & ?).
  - intros files. apply result_duplicates.
Qed.

(** X15.  One worker at a time detects every copy: with [concurrency] at
    most 1, of two entries with the same digest (not one made up for a
    processing error) the later one is a duplicate. *)
Theorem sequential_run_detects_every_copy (events : list Event) :
  concurrency <= 1 ->
  (forall st, run_ initial_ events = Some st ->
              copies_are_detected (processed (rs_store st)))
  /\ (forall files,
        handleRunSort hashArrayBuffer extractPdfText compiledConfig scanThresholds
          reviewOverrides selectedFiles concurrency events = Some files ->
        copies_are_detected files).
Proof.
  intros Hone.
  assert (Hstate : forall st, run_ initial_ events = Some st ->
             copies_are_detected (processed (rs_store st))).
  { intros st Hrun. destruct initial_invariant as (Hinv & _).
    apply (run_sequential events initial_ st Hone Hinv); [|done].
    pose proof initial_invariant as ((Hok & _) & _).
    unfold initial in *.
    set (st0 := {| rs_tasks := replicate (length selectedFiles) Queued;
                   rs_currentIndex := 0; rs_active := 0; rs_aborted := false;
                   rs_store := {| processed := []; seenHashes := ∅ |};
                   rs_resolved := false |}) in *.
    rewrite !scheduleNext_store. subst st0. cbn [rs_store processed seenHashes].
    split; [by intros i j e e' _ ?|]. intros j hash _. apply lookup_empty. }
  split; [exact Hstate|]. intros files. unfold handleRunSort. destruct (length _ =? 0)%nat; [done|].
  destruct (run_ initial_ events) as [st|] eqn:Hrun; simpl; [|done].
  destruct (resolved st); [|done]. intros [= <-].
  intros i j x' y' Hij Hi Hj Hhash Herror.
  destruct (assign_lookup _ _ _ Hi) as (x & Hx & Hfx).
  destruct (assign_lookup _ _ _ Hj) as (y & Hy & Hfy).
  rewrite Hfx in Hhash, Herror. rewrite Hfy in Hhash |- *.
  exact (Hstate st eq_refl i j x y Hij Hx Hy Hhash Herror).
Qed.
(** *** Where the entries come from *)

Lemma start_loop_keeps fuel st i task :
  core st -> rs_tasks st !! i = Some task -> task <> Queued ->
  rs_tasks (start_loop_ fuel st) !! i = Some task.
Proof.
  revert st. induction fuel as [|fuel IH]; intros st Hcore Hi Hq; [done|].
  cbn [start_loop].
  destruct (negb (rs_aborted st) && (rs_active st <? concurrency)
            && (rs_currentIndex st <? length selectedFiles)) eqn:Hgo; [|done].
  apply andb_true_iff in Hgo as [[Hab%negb_true_iff Hactive%Nat.ltb_lt]%andb_true_iff
                                  Hindex%Nat.ltb_lt].
  rewrite Hab.
  set (st1 := {| rs_tasks := <[rs_currentIndex st := AwaitBuffer]> (rs_tasks st);
                 rs_currentIndex := S (rs_currentIndex st);
                 rs_active := S (rs_active st);
                 rs_aborted := false;
                 rs_store := rs_store st;
                 rs_resolved := rs_resolved st |}).
  assert (Hstep : start_loop_ 1 st = st1).
  { cbn [start_loop]. rewrite Hab. cbn [negb andb].
    assert ((rs_active st <? concurrency) = true) as -> by by apply Nat.ltb_lt.
    assert ((rs_currentIndex st <? length selectedFiles) = true) as ->
      by by apply Nat.ltb_lt.
    done. }
  destruct (start_loop_effect 1 st Hcore) as (Hcore1 & _). rewrite Hstep in Hcore1.
  apply (IH st1 Hcore1); [|done]. subst st1. cbn [rs_tasks].
  destruct Hcore as (_ & _ & Hqueued & _).
  rewrite list_lookup_insert_ne; [done|]. intros <-.
  apply Hqueued in Hindex as [_ Hcurrent]. rewrite Hcurrent in Hi by lia. congruence.
Qed.

Lemma set_task_keeps st i j task task' other store :
  ok st -> rs_tasks st !! i = Some task -> suspended task = true -> task' <> Queued ->
  (rs_tasks (set_task_ st i task' store) !! i = Some task')
  /\ (j <> i -> rs_tasks st !! j = Some other -> other <> Queued ->
      rs_tasks (set_task_ st i task' store) !! j = Some other).
Proof.
  intros Hok Htask Hsusp Hq.
  pose proof (ok_core st Hok) as Hcore.
  destruct (suspended_not_queued st i task Hcore Htask Hsusp) as [Hstarted Hlt].
  destruct Hok as (Hlen & Hci & Hqueued & Hflight & Hbound & _).
  set (st1 := {| rs_tasks := <[i := task']> (rs_tasks st);
                 rs_currentIndex := rs_currentIndex st;
                 rs_active := rs_active st;
                 rs_aborted := rs_aborted st;
                 rs_store := store;
                 rs_resolved := rs_resolved st |}).
  assert (Hat : rs_tasks st1 !! i = Some task').
  { subst st1. cbn [rs_tasks]. apply list_lookup_insert_eq. rewrite Hlen. lia. }
  assert (Hother : j <> i -> rs_tasks st !! j = Some other ->
                   rs_tasks st1 !! j = Some other).
  { intros Hne Hj. subst st1. cbn [rs_tasks]. by rewrite list_lookup_insert_ne. }
  assert (Hunfold : set_task_ st i task' store
                    = match task' with Finished => worker_ended selectedFiles concurrency st1
                                   | _ => st1 end) by done.
  rewrite Hunfold. clear Hunfold.
  destruct (decide (task' = Finished)) as [-> | Hnf].
  2:{ assert (match task' with Finished => worker_ended selectedFiles concurrency st1
                          | _ => st1 end = st1) as -> by (by destruct task').
      split; [done | by auto]. }
  set (st2 := {| rs_tasks := rs_tasks st1;
                 rs_currentIndex := rs_currentIndex st;
                 rs_active := pred (rs_active st);
                 rs_aborted := rs_aborted st;
                 rs_store := store;
                 rs_resolved := rs_resolved st |}).
  assert (Hended : worker_ended selectedFiles concurrency st1
                   = if (length selectedFiles <=? rs_currentIndex st)
                        && (pred (rs_active st) =? 0)
                     then resolve st2 else scheduleNext_ st2)
    by reflexivity.
  rewrite Hended. clear Hended.
  destruct (_ && _); [split; [done | by auto]|].
  pose proof (sum_insert (fun task => if suspended task then 1 else 0)
                _ _ _ Finished Htask) as Hsum.
  simpl in Hsum. rewrite Hsusp in Hsum.
  assert (Hcore2 : core st2).
  { subst st2 st1. cbn [rs_tasks rs_currentIndex rs_active].
    split; [by rewrite length_insert|]. split; [done|]. split.
    - intros k Hk. destruct (decide (k = i)) as [->|Hne].
      + rewrite list_lookup_insert_eq by (rewrite Hlen; lia). split; [done | lia].
      + rewrite list_lookup_insert_ne by done. by apply Hqueued.
    - unfold in_flight in *. lia. }
  destruct (scheduleNext_fields st2) as (-> & _). split.
  - by apply start_loop_keeps.
  - intros Hne Hj Hoq. apply start_loop_keeps; [done | by apply Hother | done].
Qed.

Lemma resume_hash_origin item index store :
  let result :=
    resume_hash hashArrayBuffer compiledConfig scanThresholds reviewOverrides
      item index store in
  (snd result = Finished
   /\ exists e register,
        fst result = push e register store
        /\ entry_source e = file_source item
        /\ (pf_decision e = Duplicate ->
            hashArrayBuffer (sf_bytes item) = Normal (pf_hash e)
            /\ is_Some (seenHashes store !! pf_hash e))
        /\ forall hash, register = Some hash ->
                        hashArrayBuffer (sf_bytes item) = Normal hash)
  \/ (exists hash,
        snd result = AwaitExtract hash /\ fst result = store
        /\ hashArrayBuffer (sf_bytes item) = Normal hash).
Proof.
  unfold resume_hash. destruct (hashArrayBuffer _) as [hash|error] eqn:Hdigest.
  2:{ left. split; [done|]. unfold fallback. eexists _, _.
      split; [reflexivity|]. split; [done|]. split; done. }
  destruct (decide (is_Some (seenHashes store !! hash))) as [Hseen | Hnew].
  { left. split; [done|]. eexists _, _. split; [reflexivity|]. split; [done|].
    split; [|done]. intros _. done. }
  destruct (truthy_match _) as [overrideSchedule|].
  { left. split; [done|]. eexists _, _. split; [reflexivity|]. split; [done|].
    split; [done|]. by intros h [= <-]. }
  destruct (isPdfFile _).
  { right. by exists hash. }
  left. split; [done|]. cbn [fst snd].
  destruct (classify_and_record_effect item index hash EmptyString false None store)
    as (e & register & -> & Hsource & Hcase).
  exists e, register. split; [done|]. split; [done|].
  destruct Hcase as [(-> & <- & Hd) | (-> & Hd & He)].
  - split; [done|]. by intros h [= <-].
  - split; [congruence | done].
Qed.

Lemma resume_extract_origin item index hash store :
  exists e register,
    resume_extract extractPdfText compiledConfig scanThresholds item index hash store
    = push e register store
    /\ entry_source e = file_source item
    /\ pf_decision e <> Duplicate
    /\ forall h, register = Some h -> h = hash.
Proof.
  unfold resume_extract. destruct (extractPdfText _) as [pdfMetrics|error].
  - destruct (classify_and_record_effect item index hash (pt_text pdfMetrics) true
                (Some pdfMetrics) store) as (e & register & -> & Hsource & Hcase).
    exists e, register. split; [done|]. split; [done|].
    destruct Hcase as [(-> & <- & Hd) | (-> & Hd & He)].
    + split; [done|]. by intros h [= <-].
    + split; [congruence | done].
  - eexists _, _. split; [reflexivity|]. split; [done|]. split; [done|].
    by intros h [= <-].
Qed.

#[local] Abbreviation digest := (digest_of hashArrayBuffer selectedFiles).
#[local] Abbreviation origins := (origins_ok hashArrayBuffer selectedFiles).

Lemma step_origins st event st' order :
  ok st -> origins st order -> step_ st event = Some st' ->
  origins st' (order ++ ends st' event).
Proof.
  intros Hok (Hnd & Hmade & Hfinished & Hwait & Hseen) Hstep.
  destruct event as [i|].
  2:{ injection Hstep as <-. cbn [ends]. by rewrite app_nil_r. }
  cbn [step] in Hstep.
  destruct (selectedFiles !! i) as [item|] eqn:Hitem; simpl in Hstep; [|done].
  destruct (rs_tasks st !! i) as [task|] eqn:Htask; simpl in Hstep; [|done].
  assert (Hfresh : suspended task = true -> i ∉ order).
  { intros Hs Hin. apply Hfinished in Hin. rewrite Htask in Hin. injection Hin as ->. done. }
  assert (Hstay : forall task' store,
            suspended task = true -> task' <> Queued -> task' <> Finished ->
            (forall hash, task' = AwaitExtract hash -> digest i hash) ->
            store = rs_store st ->
            origins (set_task_ st i task' store) order).
  { intros task' store Hs Hq Hnf Hnew ->.
    destruct (set_task_effect st i item task task' (rs_store st) Hok Hitem Htask Hs Hq)
      as (_ & _ & Hstore & _ & _ & Hx & _).
    split; [done|]. rewrite Hstore. split; [done|]. split; [|split; [|done]].
    - intros j Hj.
      destruct (set_task_keeps st i j task task' Finished (rs_store st) Hok Htask Hs Hq)
        as [_ Hothers].
      apply Hothers; [|by apply Hfinished | done].
      intros ->. by apply (Hfresh Hs).
    - intros j hash Hj. destruct (Hx j hash Hj) as [[-> ->] | [_ Hold]];
        [by apply Hnew | by apply Hwait]. }
  assert (Hend : forall e register,
            suspended task = true ->
            entry_source e = file_source item ->
            (pf_decision e = Duplicate ->
             hashArrayBuffer (sf_bytes item) = Normal (pf_hash e)
             /\ is_Some (seenHashes (rs_store st) !! pf_hash e)) ->
            (forall hash, register = Some hash -> digest i hash) ->
            origins (set_task_ st i Finished (push e register (rs_store st)))
              (order ++ [i])).
  { intros e register Hs Hsource Hdup Hreg.
    destruct (set_task_effect st i item task Finished (push e register (rs_store st))
                Hok Hitem Htask Hs ltac:(done))
      as (_ & _ & Hstore & _ & _ & Hx & _).
    unfold origins_ok. rewrite Hstore. cbn [push processed seenHashes].
    split; [|split; [|split; [|split]]].
    - apply NoDup_app. split; [done|]. split; [|apply NoDup_singleton].
      intros j Hj ->%list_elem_of_singleton. by apply (Hfresh Hs).
    - apply Forall2_app; [done|]. constructor; [|constructor]. split.
      + by exists item.
      + intros Hd. destruct (Hdup Hd) as [Hdigest [kept Hkept]].
        split; [by exists item|].
        destruct (Hseen _ kept Hkept) as (other & Hother & Hdigest').
        exists other. split; [|done]. intros ->. by apply (Hfresh Hs).
    - intros j Hj.
      destruct (set_task_keeps st i j task Finished Finished
                  (push e register (rs_store st)) Hok Htask Hs ltac:(done))
        as [Hat Hothers].
      apply elem_of_app in Hj as [Hj | ->%list_elem_of_singleton]; [|exact Hat].
      apply Hothers; [|by apply Hfinished | done].
      intros ->. by apply (Hfresh Hs).
    - intros j hash Hj. destruct (Hx j hash Hj) as [[_ ?] | [_ Hold]]; [done|].
      by apply Hwait.
    - intros hash kept. destruct register as [h|].
      + intros [[<- <-] | [_ Hold]]%lookup_insert_Some.
        * exists i. split; [apply elem_of_app; right; left | by apply Hreg].
        * destruct (Hseen hash kept Hold) as (k & Hk & Hd). exists k.
          split; [apply elem_of_app; by left | done].
      + intros Hold. destruct (Hseen hash kept Hold) as (k & Hk & Hd). exists k.
        split; [apply elem_of_app; by left | done]. }
  assert (Hends : forall task' store,
            suspended task = true -> task' <> Queued ->
            ends (set_task_ st i task' store) (Settle i)
            = if decide (task' = Finished) then [i] else []).
  { intros task' store Hs Hq.
    destruct (set_task_keeps st i i task task' Finished store Hok Htask Hs Hq)
      as [Hat _].
    cbn [ends]. rewrite Hat.
    destruct (decide (task' = Finished)) as [->|Hnf].
    - by destruct (decide (Some Finished = Some Finished)).
    - destruct (decide (Some task' = Some Finished)) as [[= ?]|]; done. }
  destruct task as [| | |hash|]; try done.
  - injection Hstep as <-. rewrite Hends, app_nil_r by done. by apply Hstay.
  - pose proof (resume_hash_origin item i (rs_store st)) as Horigin.
    destruct (resume_hash _ _ _ _ _ _ _) as [store task'].
    injection Hstep as <-. cbn [fst snd] in Horigin.
    destruct Horigin as [(-> & e & register & -> & Hsource & Hdup & Hreg)
                        | (hash & -> & -> & Hdigest)].
    + rewrite Hends by done. apply Hend; try done.
      intros hash Hr. exists item. split; [done | by apply Hreg].
    + rewrite Hends, app_nil_r by done. apply Hstay; try done.
      intros h [= <-]. by exists item.
  - injection Hstep as <-.
    destruct (resume_extract_origin item i hash (rs_store st))
      as (e & register & -> & Hsource & Hnd' & Hreg).
    rewrite Hends by done. apply Hend; try done.
    intros h Hr. rewrite (Hreg h Hr). by apply Hwait.
Qed.

Lemma run_origins events st st' order :
  invariant st -> origins st order -> run_ st events = Some st' ->
  origins st' (order ++ endings_ st events).
Proof.
  revert st order. induction events as [|event events IH]; intros st order Hinv Horigin;
    cbn [run endings].
  { intros [= <-]. by rewrite app_nil_r. }
  destruct (step_ st event) as [st1|] eqn:Hstep; simpl; [|done].
  pose proof (step_origins st event st1 order (proj1 Hinv) Horigin Hstep) as H1.
  destruct (step_invariant st event st1 Hinv Hstep) as (Hinv1 & _).
  intros Hrun. rewrite app_assoc. by apply (IH st1).
Qed.

Lemma initial_origins : origins initial_ [].
Proof.
  destruct initial_invariant as (Hinv & _).
  pose proof Hinv as ((Hlen & _ & Hqueued & Hflight & _) & _).
  unfold initial in *.
  set (st0 := {| rs_tasks := replicate (length selectedFiles) Queued;
                 rs_currentIndex := 0; rs_active := 0; rs_aborted := false;
                 rs_store := {| processed := []; seenHashes := ∅ |};
                 rs_resolved := false |}) in *.
  assert (Hcore0 : core st0).
  { subst st0. cbn [rs_tasks rs_currentIndex rs_active].
    split; [by rewrite length_replicate|]. split; [lia|]. split; [|split; [|lia]].
    - intros k Hk. rewrite lookup_replicate_2 by done. split; [lia | done].
    - unfold in_flight. rewrite sum_replicate. simpl. lia. }
  destruct (scheduleNext_effect st0 Hcore0) as (_ & _ & Hs & _ & _ & Hx & _).
  unfold origins_ok. rewrite Hs. subst st0. cbn [rs_store processed seenHashes].
  split; [constructor|]. split; [constructor|]. split; [by intros i ?%elem_of_nil|].
  split; [|by intros hash kept ?].
  intros i hash Hi. apply Hx in Hi. cbn [rs_tasks] in Hi.
  apply lookup_replicate in Hi as [? _]. done.
Qed.

(** X12.  When the run is resolved, the entries stand for the workers
    that were started, one entry for each, in the order in which the
    workers ended: the entry at each position has the name and the
    relative path of the file whose worker was the next to end.  The
    workers that ended are those of the files before [currentIndex], each
    of them once; these are the workers that were started, the other
    files are still queued; and every file was started unless the run was
    cancelled. *)
Theorem every_started_file_has_one_entry (events : list Event) (files : list ProcessedFile) :
  handleRunSort hashArrayBuffer extractPdfText compiledConfig scanThresholds
    reviewOverrides selectedFiles concurrency events = Some files ->
  exists st,
    run_ initial_ events = Some st
    /\ Forall2 (entry_of selectedFiles) files (endings_ initial_ events)
    /\ endings_ initial_ events ≡ₚ seq 0 (rs_currentIndex st)
    /\ (forall i, i < length selectedFiles ->
          rs_tasks st !! i
          = Some (if decide (i < rs_currentIndex st) then Finished else Queued))
    /\ entry_source <$> files ≡ₚ file_source <$> take (rs_currentIndex st) selectedFiles
    /\ (Abort ∉ events -> rs_currentIndex st = length selectedFiles).
Proof.
  unfold handleRunSort. destruct (length _ =? 0)%nat; [done|].
  destruct (run_ initial_ events) as [st|] eqn:Hrun; simpl; [|done].
  destruct (resolved st) eqn:Hres; [|done]. intros [= <-].
  exists st. split; [done|].
  destruct initial_invariant as (Hinv & _ & Hfresh).
  destruct (run_invariant events _ st Hinv Hrun) as ((Hok & Hacc & _) & _ & _ & Hno).
  pose proof (reachable_resolution events st Hrun) as Hresolution.
  destruct (resolved_all_ended st Hok Hresolution Hres) as (Hended & _ & Hall & Htasks).
  destruct (run_origins events initial_ st [] Hinv initial_origins Hrun)
    as (Hnd & Hmade & Hfinished & _).
  cbn [app] in Hnd, Hmade, Hfinished.
  destruct Hok as (Hlen & Hci & _).
  split; [|split; [|split; [exact Htasks | split]]].
  - apply Forall2_same_length_lookup. split.
    + rewrite <- (Forall2_length _ _ _ Hmade).
      symmetry. apply (Forall2_length _ _ _ (assign_loop_frame ∅ _)).
    + intros j e' i Hj Hi.
      destruct (assign_lookup _ _ _ Hj) as (e & He & ->).
      destruct (Forall2_lookup_lr _ _ _ _ _ _ Hmade He Hi) as [(item & Hitem & Hsource) _].
      by exists item.
  - apply submseteq_length_Permutation.
    + apply NoDup_submseteq; [done|]. intros i Hi. apply elem_of_seq.
      specialize (Hfinished i Hi).
      assert (Hlt : i < length selectedFiles).
      { rewrite <- Hlen. by apply lookup_lt_is_Some_1. }
      rewrite (Htasks i Hlt) in Hfinished.
      destruct (decide (i < rs_currentIndex st)); [lia | done].
    + rewrite length_seq, <- (Forall2_length _ _ _ Hmade).
      apply Permutation_length in Hacc. rewrite !length_fmap, Hended in Hacc.
      rewrite Hacc, length_take. lia.
  - by rewrite assign_sources, Hacc, Hended.
  - intros Habort. apply Hall. rewrite (Hno Habort). exact Hfresh.
Qed.

(** X27.  No file is called a duplicate without cause.  In every state
    of a run the entries were made for pairwise different selected files,
    each with the name and the relative path of its file; and the digest
    of a duplicate entry is the digest of its own file and of another
    selected file. *)
Theorem duplicates_share_their_digest (events : list Event) (st : RunState) :
  run_ initial_ events = Some st ->
  exists order,
    NoDup order
    /\ Forall2 (made_for hashArrayBuffer selectedFiles) (processed (rs_store st)) order.
Proof.
  intros Hrun. destruct initial_invariant as (Hinv & _).
  destruct (run_origins events initial_ st [] Hinv initial_origins Hrun)
    as (Hnd & Hmade & _).
  by exists ([] ++ endings_ initial_ events).
Qed.
End Scheduler.

(** ** C5 *)

Section EntriesOfAResult.
Variable hashArrayBuffer : string -> Completion string.
Variable extractPdfText : string -> Completion PdfTextResult.
Variable compiledConfig : CompiledScheduleConfig.
Variable scanThresholds : ScannedDetectionThresholds.
Variable reviewOverrides : gmap string string.
Variable selectedFiles : list SelectedFile.
Variable concurrency : nat.

(** C5, as amended.  Every entry of a run, in whatever order the workers
    proceed, has one of the three decisions [assigned], [review] and
    [duplicate] (the values of its type), the last one exactly with the
    reason [sha256_duplicate].  When the category identifiers are pairwise
    distinct, none of them is [__proto__], and the weights are finite and
    at least 0, its score vector has exactly one entry per configured
    category, each at least 0, or it is empty; it is empty only for the
    entry made for an extraction error or a processing error, and for a
    duplicate of such an entry, which then comes earlier in the result and
    has the same digest. *)
Theorem run_entries_are_well_formed (events : list Event) (files : list ProcessedFile) :
  handleRunSort hashArrayBuffer extractPdfText compiledConfig scanThresholds
    reviewOverrides selectedFiles concurrency events = Some files ->
  entries_well_formed compiledConfig files.
Proof.
  intros Hresult.
  pose proof (result_duplicates _ _ _ _ _ _ _ _ _ Hresult) as Hdup.
  assert (Heach : forall j e, files !! j = Some e -> entry_well_formed compiledConfig e).
  { revert Hresult. unfold handleRunSort. destruct (length _ =? 0)%nat; [done|].
    destruct (run _ _ _ _ _ _ _ _ events) as [st|] eqn:Hrun; simpl; [|done].
    destruct (resolved st); [|done]. intros [= <-] j e' Hj.
    destruct (assign_lookup _ _ _ Hj) as (e & He & ->).
    apply reachable_well_formed in Hrun.
    exact (proj1 (Forall_lookup _ _) Hrun j e He). }
  intros j e Hj. destruct (Heach j e Hj) as [Hdecision Hscores].
  split; [exact Hdecision|]. intros Hplain.
  destruct (Hscores Hplain) as [Hone | [Hempty [Herror | Hd]]];
    [by left | right; split; [done | by left] |].
  destruct (Hdup j e Hj Hd) as (i & kept & Hi & Hk & Hhash & Hkd & _ & _ & _ & Hsame).
  destruct (Heach i kept Hk) as [_ Hkept].
  destruct (Hkept Hplain) as [Hone | [_ [Herror | Hkd']]]; [| |done].
  - left. by rewrite Hsame.
  - right. split; [done|]. right. split; [done|]. by exists i, kept.
Qed.
End EntriesOfAResult.

Lemma run_entries_are_well_formed_witness :
  plain_config sample_config
  /\ exists files,
       sample_run broken_twice broken_twice_events = Some files
       /\ entries_well_formed sample_config files.
Proof.
  split.
  - split; [apply (bool_decide_unpack _); vm_compute; exact I|].
    split; [apply (bool_decide_unpack _); vm_compute; exact I|].
    repeat constructor; (eexists; split; [reflexivity | lia]).
  - eexists. split; [vm_compute; reflexivity|].
    apply (run_entries_are_well_formed sample_digest sample_extract sample_config
             default_thresholds ∅ broken_twice 2 broken_twice_events).
    vm_compute. reflexivity.
Defined.

(** In that run the second entry is an error entry and the third its
    duplicate, both with an empty score vector. *)
Example duplicate_of_an_error_entry :
  exists a b c,
    sample_run broken_twice broken_twice_events = Some [a; b; c]
    /\ keys (pf_scores a) = ["A_Real_Estate"; "B_Stocks_Bonds"]
    /\ error_entry b /\ pf_scores b = []
    /\ pf_decision c = Duplicate /\ pf_hash c = pf_hash b /\ pf_scores c = [].
Proof.
  eexists _, _, _. split; [vm_compute; reflexivity|].
  split; [reflexivity|]. split; [|done].
  unfold error_entry. do 4 (split; [done|]). left. vm_compute. reflexivity.
Qed.

(** C5 as stated fails in a run with a copy and a broken PDF: the copy has
    the decision [duplicate], and the entry of the broken PDF has an empty
    score vector although two categories are configured.  It also fails
    for a negative weight, which gives a negative score. *)
Lemma run_entries_not_as_specified :
  (exists a b c,
     sample_run three_files three_files_events = Some [a; b; c]
     /\ pf_decision b = Duplicate
     /\ pf_reason c = "pdf_parse_error: Error: Invalid PDF structure"
     /\ pf_scores c = []
     /\ ~ entry_as_specified sample_config b
     /\ ~ entry_as_specified sample_config c)
  /\ (exists r,
        classifyDocument void_deed_input = Normal r
        /\ obj_get (cr_scores r) "A_Real_Estate" = Some (Fin (-10))).
Proof.
  split.
  - eexists _, _, _. split; [vm_compute; reflexivity|].
    split; [reflexivity|]. split; [reflexivity|]. split; [reflexivity|]. split.
    + intros [[Hd|Hd] _]; discriminate.
    + intros [_ [Hk _]]. discriminate.
  - eexists. split; [vm_compute; reflexivity | reflexivity].
Qed.

Lemma scheduler_keeps_its_bounds_witness :
  exists st,
    run sample_digest sample_extract sample_config default_thresholds ∅ three_files 2
      (initial three_files 2) [Settle 0; Settle 1; Settle 0] = Some st
    /\ scheduler_ok three_files 2 st
    /\ (settles [Settle 0; Settle 1; Settle 0] + work_left st <= 3 * length three_files)%nat.
Proof.
  eexists. split; [vm_compute; reflexivity|].
  apply (scheduler_keeps_its_bounds sample_digest sample_extract sample_config
           default_thresholds ∅ three_files 2 [Settle 0; Settle 1; Settle 0]).
  vm_compute. reflexivity.
Defined.

Lemma run_can_always_finish_witness :
  exists st,
    run sample_digest sample_extract sample_config default_thresholds ∅ three_files 2
      (initial three_files 2) [Settle 0; Settle 1] = Some st
    /\ exists more st',
         Forall (fun event => is_settle event = true) more
         /\ run sample_digest sample_extract sample_config default_thresholds ∅
              three_files 2 st more = Some st'
         /\ resolved st' = true.
Proof.
  eexists. split; [vm_compute; reflexivity|].
  apply (run_can_always_finish sample_digest sample_extract sample_config
           default_thresholds ∅ three_files 2 [Settle 0; Settle 1]); [lia|].
  vm_compute. reflexivity.
Defined.

Lemma run_needs_a_worker_witness :
  exists st,
    run sample_digest sample_extract sample_config default_thresholds ∅ three_files 0
      (initial three_files 0) [Abort; Abort] = Some st
    /\ Forall (fun event => event = Abort) [Abort; Abort]
    /\ rs_currentIndex st = 0%nat
    /\ rs_active st = 0%nat
    /\ rs_tasks st = replicate (length three_files) Queued
    /\ processed (rs_store st) = []
    /\ resolved st = false
    /\ handleRunSort sample_digest sample_extract sample_config default_thresholds ∅
         three_files 0 [Abort; Abort] = None.
Proof.
  eexists. split; [vm_compute; reflexivity|].
  apply (run_needs_a_worker sample_digest sample_extract sample_config
           default_thresholds ∅ three_files 0 [Abort; Abort]);
    [reflexivity | discriminate | vm_compute; reflexivity].
Defined.

Lemma every_started_file_has_one_entry_witness :
  exists files,
    sample_run three_files copy_first_events = Some files
    /\ exists st,
         run sample_digest sample_extract sample_config default_thresholds ∅ three_files 2
           (initial three_files 2) copy_first_events = Some st
         /\ Forall2 (entry_of three_files) files
              (endings sample_digest sample_extract sample_config default_thresholds ∅
                 three_files 2 (initial three_files 2) copy_first_events)
         /\ endings sample_digest sample_extract sample_config default_thresholds ∅
              three_files 2 (initial three_files 2) copy_first_events
            ≡ₚ seq 0 (rs_currentIndex st)
         /\ (forall i, (i < length three_files)%nat ->
               rs_tasks st !! i
               = Some (if decide (i < rs_currentIndex st)%nat then Finished else Queued))
         /\ entry_source <$> files
            ≡ₚ file_source <$> take (rs_currentIndex st) three_files
         /\ (Abort ∉ copy_first_events -> rs_currentIndex st = length three_files).
Proof.
  eexists. split; [vm_compute; reflexivity|].
  apply (every_started_file_has_one_entry sample_digest sample_extract sample_config
           default_thresholds ∅ three_files 2 copy_first_events).
  vm_compute. reflexivity.
Defined.

(** In that run the copy is the file that is kept, and the first file is
    its duplicate. *)
Example entries_in_order_of_ending :
  endings sample_digest sample_extract sample_config default_thresholds ∅
    three_files 2 (initial three_files 2) copy_first_events = [1; 0; 2]%nat
  /\ option_map (map (fun e => (pf_name e, pf_decision e)))
       (sample_run three_files copy_first_events)
     = Some [("copy of a.pdf", Assigned); ("a.pdf", Duplicate); ("broken.pdf", Review)].
Proof. split; vm_compute; reflexivity. Qed.

Lemma cancel_starts_nothing_witness :
  exists st,
    run sample_digest sample_extract sample_config default_thresholds ∅ three_files 2
      (initial three_files 2) ([Settle 0; Settle 1] ++ Abort :: [Settle 0; Settle 0])
    = Some st
    /\ exists st0,
         run sample_digest sample_extract sample_config default_thresholds ∅
           three_files 2 (initial three_files 2) [Settle 0; Settle 1] = Some st0
         /\ rs_aborted st = true
         /\ rs_currentIndex st = rs_currentIndex st0.
Proof.
  eexists. split; [vm_compute; reflexivity|].
  apply (cancel_starts_nothing sample_digest sample_extract sample_config
           default_thresholds ∅ three_files 2 [Settle 0; Settle 1] [Settle 0; Settle 0]).
  vm_compute. reflexivity.
Defined.

Lemma duplicates_copy_a_kept_file_witness :
  exists files,
    sample_run three_files three_files_events = Some files
    /\ duplicates_have_originals files.
Proof.
  eexists. split; [vm_compute; reflexivity|].
  apply (duplicates_copy_a_kept_file sample_digest sample_extract sample_config
           default_thresholds ∅ three_files 2 three_files_events).
  vm_compute. reflexivity.
Defined.

Lemma sequential_run_detects_every_copy_witness :
  exists files,
    handleRunSort sample_digest sample_extract sample_config default_thresholds ∅
      three_files 1 three_files_events = Some files
    /\ copies_are_detected files.
Proof.
  eexists. split; [vm_compute; reflexivity|].
  apply (sequential_run_detects_every_copy sample_digest sample_extract sample_config
           default_thresholds ∅ three_files 1 three_files_events); [lia|].
  vm_compute. reflexivity.
Defined.

(** ** Manual overrides *)

Lemma assign_loop_root m files file :
  file ∈ assign_loop m files ->
  startsWith (chars (pf_outputPath file)) (chars (root_folder file)) = true.
Proof.
  revert m. induction files as [|f rest IH]; intros m; cbn [assign_loop].
  { by intros ?%elem_of_nil. }
  pose proof (assign_one_root m f) as Hroot.
  pose proof (assign_one_frame m f) as Hframe.
  destruct (assign_one m f) as [m' f']. cbn [snd] in *.
  intros [-> | Hin]%elem_of_cons; [|by apply (IH m')].
  rewrite Hframe at 2. exact Hroot.
Qed.

Lemma override_file_path hash scheduleId file path :
  override_file hash scheduleId (with_outputPath file path)
  = with_outputPath (override_file hash scheduleId file) path.
Proof.
  unfold override_file. cbn [pf_hash with_outputPath].
  destruct (negb _); [done|]. by destruct (String.eqb scheduleId "clear").
Qed.

Lemma override_file_idemp hash scheduleId file :
  override_file hash scheduleId (override_file hash scheduleId file)
  = override_file hash scheduleId file.
Proof.
  unfold override_file at 2.
  destruct (negb (String.eqb (pf_hash file) hash)) eqn:Hhash.
  { unfold override_file. by rewrite Hhash. }
  unfold override_file.
  destruct (String.eqb scheduleId "clear"); cbn [pf_hash]; by rewrite Hhash.
Qed.

Lemma assign_one_path m file file' :
  buildBaseOutputPath file' = buildBaseOutputPath file -> pf_name file' = pf_name file ->
  fst (assign_one m file') = fst (assign_one m file)
  /\ pf_outputPath (snd (assign_one m file')) = pf_outputPath (snd (assign_one m file)).
Proof.
  intros Hbase Hname. unfold assign_one. rewrite Hbase, Hname.
  destruct (pop _) as [popped segments].
  destruct (ensureUniqueFilename _ _) as [uniqueName used]. done.
Qed.

Lemma assign_loop_paths m files files' :
  Forall2 (fun file file' =>
             buildBaseOutputPath file' = buildBaseOutputPath file
             /\ pf_name file' = pf_name file) files files' ->
  map pf_outputPath (assign_loop m files') = map pf_outputPath (assign_loop m files).
Proof.
  intros H. revert m. induction H as [|f f' files files' [Hbase Hname] _ IH]; intros m;
    [done|].
  cbn [assign_loop]. destruct (assign_one_path m f f' Hbase Hname) as [Hm Hp].
  destruct (assign_one m f) as [m1 f1], (assign_one m f') as [m1' f1'].
  cbn [fst snd] in *. subst m1'. simpl. by rewrite Hp, IH.
Qed.

(** The files after [handleOverrideChange], against the files before. *)
Lemma override_frame hash scheduleId files :
  Forall2 (fun file file' =>
             file' = with_outputPath (override_file hash scheduleId file)
                       (pf_outputPath file')
             /\ startsWith (chars (pf_outputPath file')) (chars (root_folder file')) = true)
    files (assignOutputPaths (map (override_file hash scheduleId) files)).
Proof.
  pose proof (assign_loop_frame ∅ (map (override_file hash scheduleId) files)) as Hframe.
  pose proof (assign_loop_root ∅ (map (override_file hash scheduleId) files)) as Hroot.
  unfold assignOutputPaths. revert Hframe Hroot.
  generalize (assign_loop ∅ (map (override_file hash scheduleId) files)) as files'.
  induction files as [|file files IH]; intros files' Hframe Hroot; simpl in Hframe.
  { apply Forall2_nil_inv_l in Hframe as ->. constructor. }
  apply Forall2_cons_inv_l in Hframe as (file' & rest & Hfile & Hrest & ->).
  constructor.
  - split; [done|]. apply Hroot. left.
  - apply IH; [done|]. intros f Hf. apply Hroot. by right.
Qed.

(** X16.  Setting an override reassigns every file with the digest, the
    duplicates among them too: each becomes an assigned file of the chosen
    category with the reason [review_override] and the floor score, under
    [706/], with the score vector it had; the other files keep everything
    but, possibly, their output path; the override is stored; and the
    output paths are again pairwise distinct. *)
Theorem override_reassigns_every_copy (hash scheduleId : string) (state : OverrideState) :
  scheduleId <> "clear" ->
  let state' := handleOverrideChange hash scheduleId state in
  os_reviewOverrides state' !! hash = Some scheduleId
  /\ NoDup (map pf_outputPath (os_processedFiles state'))
  /\ Forall2 (fun file file' =>
                if decide (pf_hash file = hash) then overridden scheduleId file file'
                else file' = with_outputPath file (pf_outputPath file'))
       (os_processedFiles state) (os_processedFiles state').
Proof.
  intros Hset. apply String.eqb_neq in Hset. unfold handleOverrideChange. rewrite Hset.
  cbn [os_reviewOverrides os_processedFiles].
  split; [apply lookup_insert_eq|]. split; [apply assign_loop_fresh|].
  eapply Forall2_impl; [apply override_frame|].
  intros file file' [Hframe Hroot]. cbn beta in *.
  unfold override_file in Hframe. rewrite Hset in Hframe.
  case_decide as Hhash.
  - apply String.eqb_eq in Hhash. rewrite Hhash in Hframe. cbn [negb] in Hframe.
    rewrite Hframe in Hroot |- *. unfold overridden. cbn.
    do 9 (split; [done|]). exact Hroot.
  - apply String.eqb_neq in Hhash. rewrite Hhash in Hframe. exact Hframe.
Qed.

Lemma override_reassigns_every_copy_witness :
  let state :=
    {| os_reviewOverrides := ∅;
       os_processedFiles := assignOutputPaths [duplicate_copy "deed.pdf"] |} in
  let state' := handleOverrideChange "0123456789abcdef" "B_Stocks_Bonds" state in
  os_reviewOverrides state' !! "0123456789abcdef" = Some "B_Stocks_Bonds"
  /\ NoDup (map pf_outputPath (os_processedFiles state'))
  /\ Forall2 (fun file file' =>
                if decide (pf_hash file = "0123456789abcdef")
                then overridden "B_Stocks_Bonds" file file'
                else file' = with_outputPath file (pf_outputPath file'))
       (os_processedFiles state) (os_processedFiles state').
Proof.
  apply (override_reassigns_every_copy "0123456789abcdef" "B_Stocks_Bonds"
           {| os_reviewOverrides := ∅;
              os_processedFiles := assignOutputPaths [duplicate_copy "deed.pdf"] |}).
  discriminate.
Defined.

(** X17.  Clearing an override only forgets it: the stored override is
    removed and the files with the digest are flagged as not overridden,
    but every file keeps its classification and its place.  After an
    override has been set and cleared, the files with the digest are
    still assigned to the category that had been chosen. *)
Theorem clearing_an_override_restores_nothing (hash : string) :
  (forall state,
     let state' := handleOverrideChange hash "clear" state in
     os_reviewOverrides state' !! hash = None
     /\ map classification (os_processedFiles state')
        = map classification (os_processedFiles state)
     /\ map pf_outputPath (os_processedFiles state')
        = map pf_outputPath (assignOutputPaths (os_processedFiles state)))
  /\ (forall scheduleId state,
        scheduleId <> "clear" ->
        let state' :=
          handleOverrideChange hash "clear" (handleOverrideChange hash scheduleId state) in
        os_reviewOverrides state' !! hash = None
        /\ Forall2 (fun file file' =>
                      pf_hash file = hash ->
                      pf_decision file' = Assigned /\ pf_schedule file' = Some scheduleId
                      /\ pf_overrideApplied file' = Some false)
             (os_processedFiles state) (os_processedFiles state')).
Proof.
  assert (Hclear : forall files,
            Forall2 (fun file file' =>
                       classification file' = classification file
                       /\ (pf_hash file = hash -> pf_overrideApplied file' = Some false))
              files (assignOutputPaths (map (override_file hash "clear") files))).
  { intros files. eapply Forall2_impl; [apply override_frame|].
    intros file file' [-> _]. unfold override_file.
    change (String.eqb "clear" "clear") with true. cbv iota.
    destruct (String.eqb_spec (pf_hash file) hash) as [Hh|Hh]; cbn [negb];
      (split; [done|]); [done | intros ?; done]. }
  split.
  - intros state state'. subst state'. unfold handleOverrideChange.
    change (String.eqb "clear" "clear") with true.
    cbn [os_reviewOverrides os_processedFiles].
    split; [apply lookup_delete_eq|]. split.
    + specialize (Hclear (os_processedFiles state)).
      induction Hclear as [|f f' l l' [Hf _] _ IH]; [done|]. simpl. by rewrite Hf, IH.
    + apply assign_loop_paths.
      generalize (os_processedFiles state) as files.
      induction files as [|f files IH]; simpl; constructor; [|exact IH].
      unfold override_file. change (String.eqb "clear" "clear") with true. cbv iota.
      by destruct (negb _).
  - intros scheduleId state Hset state'. subst state'.
    split; [unfold handleOverrideChange at 1;
            change (String.eqb "clear" "clear") with true;
            cbn [os_reviewOverrides]; apply lookup_delete_eq|].
    unfold handleOverrideChange at 1. cbn [os_processedFiles].
    set (files1 := os_processedFiles (handleOverrideChange hash scheduleId state)).
    assert (H1 : Forall2 (fun file file1 =>
                   pf_hash file1 = pf_hash file
                   /\ (pf_hash file = hash ->
                       pf_decision file1 = Assigned /\ pf_schedule file1 = Some scheduleId))
                   (os_processedFiles state) files1).
    { subst files1. unfold handleOverrideChange. cbn [os_processedFiles].
      eapply Forall2_impl; [apply override_frame|].
      intros file file1 [-> _]. unfold override_file.
      apply String.eqb_neq in Hset. rewrite Hset.
      destruct (String.eqb_spec (pf_hash file) hash) as [Hh|Hh]; cbn [negb]; split; done. }
    specialize (Hclear files1).
    eapply Forall2_trans; [|exact H1|exact Hclear].
    intros file file1 file' [Hhash Hassigned] [Hclass Hflag] Hh. cbn beta in *.
    destruct (Hassigned Hh) as [Hd Hs].
    unfold classification in Hclass. injection Hclass as Hd' Hs' _ _ _ _.
    split; [congruence|]. split; [congruence|]. apply Hflag. congruence.
Qed.

(** X18.  [handleOverrideChange] is idempotent: making the same change
    twice gives the state that making it once gives. *)
Theorem override_change_is_idempotent (hash scheduleId : string) (state : OverrideState) :
  handleOverrideChange hash scheduleId (handleOverrideChange hash scheduleId state)
  = handleOverrideChange hash scheduleId state.
Proof.
  unfold handleOverrideChange. cbn [os_reviewOverrides os_processedFiles]. f_equal.
  - destruct (String.eqb scheduleId "clear").
    + apply delete_delete_eq.
    + apply insert_insert_eq.
  - apply assign_loop_ignores_paths.
    generalize (os_processedFiles state) as files. intros files.
    pose proof (override_frame hash scheduleId files) as Hframe.
    apply Forall2_fmap_l, Forall2_fmap_r.
    eapply Forall2_impl; [exact Hframe|].
    intros file file' [-> _]. cbn beta.
    exists (pf_outputPath file').
    by rewrite override_file_path, override_file_idemp.
Qed.

(** ** The export *)

Lemma insert_index_perm {V} n (e : string * V) l :
  map snd (insert_index n e l) ≡ₚ e :: map snd l.
Proof.
  induction l as [|[m e'] l IH]; simpl; [done|].
  destruct (n <? m)%N; simpl; [done|]. rewrite IH. apply Permutation_swap.
Qed.

Lemma obj_entries_perm {V} (o : JsObject V) : obj_entries o ≡ₚ o.
Proof.
  unfold obj_entries. induction o as [|e o IH]; simpl; [done|].
  rewrite filter_cons. destruct (array_index (fst e)) as [n|] eqn:He.
  - destruct (decide (Some n = None)); [done|].
    rewrite insert_index_perm. simpl. by rewrite IH.
  - destruct (decide (None = None)); [|done].
    rewrite <- Permutation_middle. by rewrite IH.
Qed.

Lemma NoDup_map_filter {A B} (f : A -> B) (P : A -> Prop) `{!forall x, Decision (P x)} l :
  NoDup (map f l) -> NoDup (map f (filter P l)).
Proof.
  induction l as [|x l IH]; simpl; [done|].
  intros [Hx Hl]%NoDup_cons. rewrite filter_cons.
  destruct (decide (P x)); [|by apply IH]. simpl. apply NoDup_cons. split; [|by apply IH].
  intros Hin. apply Hx. apply list_elem_of_In, in_map_iff.
  apply list_elem_of_In, in_map_iff in Hin as (y & Hy & Hin).
  exists y. split; [done|]. apply list_elem_of_In.
  apply list_elem_of_In in Hin. by apply list_elem_of_filter in Hin as [_ ?].
Qed.

(** The loop keeps the files whose path lies in a tree that is wanted. *)
Lemma file_entries_filter by706 byDuplicates files entries :
  file_entries by706 byDuplicates files entries
  = entries
    ++ map file_entry
         (filter (fun file =>
                    (if startsWith (chars (pf_outputPath file)) (chars "706/") then by706
                     else if startsWith (chars (pf_outputPath file)) (chars "DUPLICATES/")
                          then byDuplicates else false) = true) files).
Proof.
  revert entries. induction files as [|file files IH]; intros entries; cbn [file_entries].
  { by rewrite app_nil_r. }
  rewrite filter_cons.
  destruct (startsWith (chars (pf_outputPath file)) (chars "706/")).
  - rewrite IH. destruct by706.
    + destruct (decide (true = true)); [|done]. by rewrite <- app_assoc.
    + destruct (decide (false = true)); done.
  - destruct (startsWith (chars (pf_outputPath file)) (chars "DUPLICATES/")).
    + rewrite IH. destruct byDuplicates.
      * destruct (decide (true = true)); [|done]. by rewrite <- app_assoc.
      * destruct (decide (false = true)); done.
    + rewrite IH. destruct (decide (false = true)); done.
Qed.

Lemma tree_of_decision mode file :
  startsWith (chars (pf_outputPath file)) (chars (root_folder file)) = true ->
  (if startsWith (chars (pf_outputPath file)) (chars "706/") then include706 mode
   else if startsWith (chars (pf_outputPath file)) (chars "DUPLICATES/")
        then includeDuplicates mode else false)
  = wanted mode file.
Proof.
  unfold root_folder, wanted. intros [r Hr]%startsWith_prefix. rewrite Hr.
  destruct (pf_decision file), r; vm_compute; reflexivity.
Qed.

Lemma export_files mode files0 :
  file_entries (include706 mode) (includeDuplicates mode) (assignOutputPaths files0) []
  = map file_entry (filter (fun file => wanted mode file = true) (assignOutputPaths files0)).
Proof.
  rewrite file_entries_filter. simpl. f_equal.
  pose proof (assign_loop_root ∅ files0) as Hroot. unfold assignOutputPaths.
  induction (assign_loop ∅ files0) as [|file files IH]; [done|].
  rewrite !filter_cons, tree_of_decision by (apply Hroot; left).
  rewrite IH by (intros f Hf; apply Hroot; by right). done.
Qed.

Lemma source_paths_entry_path e :
  zi_path (source_paths_entry e) = "STATE/_source_paths/" +:+ fst e +:+ ".txt".
Proof. by destruct e. Qed.

Lemma report_paths options :
  NoDup (keys (zo_sourcePaths options)) ->
  NoDup (map zi_path (report_entries options))
  /\ forall path, path ∈ map zi_path (report_entries options) ->
                  startsWith (chars path) (chars "STATE/") = true.
Proof.
  intros Hkeys. unfold report_entries. rewrite map_app, map_map. simpl.
  assert (Hlist : forall path,
            path ∈ map (fun e => zi_path (source_paths_entry e))
                     (obj_entries (zo_sourcePaths options)) ->
            exists k, path = "STATE/_source_paths/" +:+ k +:+ ".txt").
  { intros path (e & <- & _)%list_elem_of_In%in_map_iff.
    exists (fst e). apply source_paths_entry_path. }
  split.
  - repeat (apply NoDup_cons; split).
    + intros [[=] | [[=] | (k & [=])%Hlist]%elem_of_cons]%elem_of_cons.
    + intros [[=] | (k & [=])%Hlist]%elem_of_cons.
    + intros (k & [=])%Hlist.
    + assert (Hperm : keys (obj_entries (zo_sourcePaths options))
                      ≡ₚ keys (zo_sourcePaths options)).
      { unfold keys. by rewrite obj_entries_perm. }
      rewrite <- Hperm in Hkeys. clear Hperm Hlist. unfold keys in Hkeys.
      induction (obj_entries (zo_sourcePaths options)) as [|e l IH]; simpl; [constructor|].
      apply NoDup_cons in Hkeys as [He Hl]. apply NoDup_cons. split; [|by apply IH].
      intros (e' & Heq & Hin)%list_elem_of_In%in_map_iff. apply He.
      rewrite !source_paths_entry_path in Heq. injection Heq as Heq.
      change (fst e' +:+ ".txt" = fst e +:+ ".txt") in Heq.
      apply string_app_inv_tail in Heq. rewrite <- Heq.
      apply list_elem_of_In, in_map. done.
  - intros path [-> | [-> | [-> | (k & ->)%Hlist]%elem_of_cons]%elem_of_cons]%elem_of_cons;
      done.
Qed.

(** X19.  The export selects by decision: on files that carry the paths
    of [assignOutputPaths], [buildZipEntries] gives, in the order of the
    files, one entry for each duplicate when the mode includes the
    duplicates and one for each other file when it includes the [706]
    tree, each under the file's output path, followed by the reports when
    the mode includes them. *)
Theorem export_follows_decisions (options : ZipOptions) (files0 : list ProcessedFile) :
  zo_files options = assignOutputPaths files0 ->
  buildZipEntries options
  = map file_entry
      (filter (fun file => wanted (zo_exportMode options) file = true) (zo_files options))
    ++ (if includeReports (zo_exportMode options) then report_entries options else []).
Proof.
  intros Hfiles. unfold buildZipEntries. rewrite Hfiles.
  pose proof (export_files (zo_exportMode options) files0) as Hexport.
  unfold include706, includeDuplicates in Hexport. rewrite Hexport.
  unfold includeReports, report_entries.
  destruct (zo_exportMode options); rewrite <- ?app_assoc, ?app_nil_r; done.
Qed.

Lemma export_follows_decisions_witness :
  map zi_path (buildZipEntries (sample_export Only706)) = ["706/A_Real_Estate/deed.pdf"]
  /\ buildZipEntries (sample_export Only706)
     = map file_entry
         (filter (fun file => wanted Only706 file = true)
            (zo_files (sample_export Only706)))
       ++ [].
Proof.
  split; [vm_compute; reflexivity|].
  apply (export_follows_decisions (sample_export Only706)
           [blank_file "deed.pdf" Assigned (Some "A_Real_Estate");
            duplicate_copy "deed.pdf"]).
  reflexivity.
Defined.

(** X20.  No two entries of an export share a path, whatever the mode:
    the files have the pairwise distinct paths of [assignOutputPaths]
    under [706/] and [DUPLICATES/], and the reports lie under [STATE/],
    one listing per digest prefix. *)
Theorem export_paths_are_distinct (options : ZipOptions) (files0 : list ProcessedFile) :
  zo_files options = assignOutputPaths files0 ->
  NoDup (keys (zo_sourcePaths options)) ->
  NoDup (map zi_path (buildZipEntries options)).
Proof.
  intros Hfiles Hkeys.
  assert (Hentries : buildZipEntries options
            = map file_entry
                (filter (fun file => wanted (zo_exportMode options) file = true)
                   (zo_files options))
              ++ (if includeReports (zo_exportMode options)
                  then report_entries options else [])).
  { unfold buildZipEntries. rewrite Hfiles.
    pose proof (export_files (zo_exportMode options) files0) as Hexport.
    unfold include706, includeDuplicates in Hexport. rewrite Hexport.
    unfold includeReports, report_entries.
    destruct (zo_exportMode options); rewrite <- ?app_assoc, ?app_nil_r; done. }
  rewrite Hentries, map_app, map_map. cbn [file_entry zi_path].
  destruct (report_paths options Hkeys) as [Hreports Hstate].
  apply NoDup_app. split; [|split].
  - apply NoDup_map_filter. rewrite Hfiles. apply assign_loop_fresh.
  - intros path (file & <- & Hfile)%list_elem_of_In%in_map_iff Hin.
    apply list_elem_of_In, list_elem_of_filter in Hfile as [_ Hfile].
    rewrite Hfiles in Hfile. apply assign_loop_root in Hfile.
    apply startsWith_prefix in Hfile as [r Hr].
    assert (Hs : startsWith (chars (pf_outputPath file)) (chars "STATE/") = true).
    { apply Hstate. by destruct (includeReports _); [|apply elem_of_nil in Hin]. }
    rewrite Hr in Hs. unfold root_folder in Hs. by destruct (pf_decision file).
  - by destruct (includeReports _); [|constructor].
Qed.

Lemma export_paths_are_distinct_witness :
  NoDup (map zi_path (buildZipEntries (sample_export Full))).
Proof.
  apply (export_paths_are_distinct (sample_export Full)
           [blank_file "deed.pdf" Assigned (Some "A_Real_Estate");
            duplicate_copy "deed.pdf"]).
  - reflexivity.
  - apply (bool_decide_unpack _). vm_compute. exact I.
Defined.

(** ** The duplicates report *)

Lemma sort_insert_perm {A} (cmp : A -> A -> number) x l : sort_insert cmp x l ≡ₚ x :: l.
Proof.
  induction l as [|y l IH]; simpl; [done|].
  destruct (num_sign (cmp x y)); try done. rewrite IH. apply Permutation_swap.
Qed.

Lemma array_sort_perm {A} (cmp : A -> A -> number) l : array_sort cmp l ≡ₚ l.
Proof.
  unfold array_sort. induction l as [|x l IH]; simpl; [done|].
  by rewrite sort_insert_perm, IH.
Qed.

Lemma same_digest_snoc hash files file :
  same_digest hash (files ++ [file])
  = same_digest hash files ++ (if decide (pf_hash file = hash) then [file] else []).
Proof.
  unfold same_digest. rewrite filter_app, filter_cons, filter_nil. done.
Qed.

Lemma same_digest_none hash files :
  hash ∉ map pf_hash files -> same_digest hash files = [].
Proof.
  unfold same_digest. induction files as [|f files IH]; simpl; [done|].
  intros Hin. rewrite filter_cons, decide_False.
  - apply IH. intros ?. apply Hin. by right.
  - intros Hf. apply Hin. rewrite Hf. left.
Qed.

Lemma group_add_known (F : string -> list ProcessedFile) (S : list string) file :
  NoDup S -> pf_hash file ∈ S ->
  group_add (map (fun h => (h, F h)) S) file
  = map (fun h => (h, F h ++ (if decide (pf_hash file = h) then [file] else []))) S.
Proof.
  induction S as [|h S IH]; simpl; [by intros _ ?%elem_of_nil|].
  intros [Hh HS]%NoDup_cons Hin. destruct (String.eqb_spec h (pf_hash file)) as [->|Hne].
  - rewrite decide_True by done. f_equal.
    clear IH Hin. induction S as [|k S IH']; simpl; [done|].
    rewrite decide_False, app_nil_r.
    + f_equal. apply IH'; [|by apply NoDup_cons in HS as [_ ?]].
      intros ?. apply Hh. by right.
    + intros <-. apply Hh. left.
  - rewrite decide_False by done. rewrite app_nil_r. f_equal.
    apply IH; [done|]. apply elem_of_cons in Hin as [?|?]; [congruence | done].
Qed.

Lemma group_add_new (F : string -> list ProcessedFile) (S : list string) file :
  pf_hash file ∉ S ->
  group_add (map (fun h => (h, F h)) S) file
  = map (fun h => (h, F h)) S ++ [(pf_hash file, [file])].
Proof.
  induction S as [|h S IH]; simpl; [done|]. intros Hin.
  destruct (String.eqb_spec h (pf_hash file)) as [->|Hne].
  - destruct Hin. left.
  - f_equal. apply IH. intros ?. apply Hin. by right.
Qed.

(** The map built by the first loop. *)
Lemma groups_by_digest files :
  fold_left group_add files []
  = map (fun h => (h, same_digest h files)) (digests files).
Proof.
  induction files as [|file files IH] using rev_ind; [done|].
  rewrite fold_left_app, IH. cbn [fold_left]. unfold digests.
  rewrite map_app, set_add_all_app. cbn [map set_add_all].
  fold (digests files).
  assert (Hnd : NoDup (digests files)) by (apply set_add_all_NoDup; constructor).
  destruct (decide (pf_hash file ∈ digests files)) as [Hin | Hnew].
  - rewrite group_add_known by done. apply map_ext. intros h.
    by rewrite same_digest_snoc.
  - rewrite group_add_new by done. rewrite map_app. cbn [map]. f_equal.
    + apply map_ext_in. intros h Hh%list_elem_of_In. rewrite same_digest_snoc.
      rewrite decide_False, app_nil_r; [done|]. by intros <-.
    + rewrite same_digest_snoc, decide_True by done.
      rewrite same_digest_none; [done|].
      intros Hin. apply Hnew. unfold digests. apply set_add_all_elem. by right.
Qed.

Section DuplicateGroupsProperties.
Variable localeCompare : string -> string -> number.

Lemma group_of_accounts files hash :
  let group := same_digest hash files in
  if decide (2 <= length group)%nat then
    exists g, group_of localeCompare (hash, group) = Normal (Some g)
              /\ dg_hash g = hash /\ group_accounts_for files g
  else group_of localeCompare (hash, group) = Normal None.
Proof.
  intros group. unfold group_of. fold group.
  destruct (decide (2 <= length group)%nat) as [Hmany | Hfew].
  2:{ apply Nat.ltb_nlt in Hfew as Hlt. assert ((length group <? 2)%nat = true) as ->; [|done].
      apply Nat.ltb_lt. lia. }
  assert ((length group <? 2)%nat = false) as -> by (apply Nat.ltb_ge; lia).
  pose proof (array_sort_perm
                (fun a b => localeCompare (pf_relativePath a) (pf_relativePath b)) group)
    as Hperm.
  destruct (array_sort _ group) as [|kept others] eqn:Hsorted.
  { apply Permutation_length in Hperm. simpl in Hperm. lia. }
  eexists. split; [reflexivity|]. split; [done|].
  unfold group_accounts_for. cbn [dg_hash dg_count dg_sourcePaths dg_keptName
                                    dg_duplicateNames dg_hashPrefix].
  fold group. split; [by apply Permutation_length|].
  split; [by rewrite Hperm|]. split.
  - change (pf_name kept :: map pf_name others) with (map pf_name (kept :: others)).
    by rewrite Hperm.
  - exists kept. split; [|done]. rewrite <- Hperm. left.
Qed.

Lemma collect_groups_accounts files (S : list string) results :
  exists groups,
    collect_groups localeCompare (map (fun h => (h, same_digest h files)) S) results
    = Normal (results ++ groups)
    /\ map dg_hash groups
       = filter (fun h => (2 <= length (same_digest h files))%nat) S
    /\ Forall (group_accounts_for files) groups.
Proof.
  revert results. induction S as [|h S IH]; intros results; cbn [map collect_groups].
  { exists []. by rewrite app_nil_r. }
  pose proof (group_of_accounts files h) as Hgroup. cbn zeta in Hgroup.
  rewrite filter_cons.
  destruct (decide (2 <= length (same_digest h files))%nat) as [Hmany | Hfew].
  - destruct Hgroup as (g & -> & Hhash & Haccounts). simpl.
    destruct (IH (results ++ [g])) as (groups & -> & Hhashes & Hall).
    exists (g :: groups). rewrite <- app_assoc. split; [done|].
    split; [simpl; by rewrite Hhash, Hhashes | by constructor].
  - rewrite Hgroup. simpl. apply IH.
Qed.

(** X21.  [buildDuplicatesGroups] never throws, and reports exactly the
    digests that occur at least twice, each once, in the order of their
    first occurrence; the group of a digest gives the number of files with
    the digest, their relative paths and their names, one of them as the
    kept one.  This holds for every answer of [localeCompare]. *)
Theorem duplicate_groups_account_for_copies (files : list ProcessedFile) :
  exists groups,
    buildDuplicatesGroups localeCompare files = Normal groups
    /\ map dg_hash groups
       = filter (fun h => (2 <= length (same_digest h files))%nat) (digests files)
    /\ Forall (group_accounts_for files) groups.
Proof.
  unfold buildDuplicatesGroups. rewrite groups_by_digest.
  destruct (collect_groups_accounts files (digests files) []) as (groups & Hg & Hrest).
  exists groups. by rewrite Hg.
Qed.
End DuplicateGroupsProperties.

(** ** The text layer of a PDF *)

Lemma string_app_assoc (a b c : string) : (a +:+ b) +:+ c = a +:+ b +:+ c.
Proof. apply chars_inj. by rewrite !chars_app, app_assoc. Qed.

Lemma string_app_nil_r (a : string) : a +:+ EmptyString = a.
Proof. apply chars_inj. rewrite chars_app. apply app_nil_r. Qed.

Lemma pages_text_snoc pages items :
  pages_text (pages ++ [items]) = pages_text pages +:+ pdfText.page_text items.
Proof.
  unfold pages_text. induction pages as [|p pages IH]; cbn [foldr app].
  - by rewrite string_app_nil_r.
  - by rewrite IH, string_app_assoc.
Qed.

Lemma pages_items_snoc pages items :
  pages_items (pages ++ [items]) = (pages_items pages + length items)%nat.
Proof.
  unfold pages_items. induction pages as [|p pages IH]; simpl; [lia|]. rewrite IH. lia.
Qed.

Lemma min_6_bound n : num_ltb (pdfText.min_6 (pdfText.or_zero n)) (Fin 7) = true.
Proof.
  unfold pdfText.min_6.
  destruct (num_ltb (Fin 6) (pdfText.or_zero n)) eqn:Hn; [done|].
  destruct n as [|[]|z]; try done. destruct z; simpl in *; try done.
  - apply Z.ltb_ge in Hn. apply Z.ltb_lt. lia.
Qed.

(** The loop, from a state in which [pages] have been read. *)
Lemma read_pages_samples fuel pdf pagesSampled pages text textItems :
  (forall j items,
     pages !! j = Some items ->
     doc_page pdf (S j) = Normal items
     /\ num_ltb pagesSampled (Fin (Z.of_nat (S j))) = false) ->
  (forall k, (k < length pages)%nat ->
             (String.length (pages_text (take k pages)) < 5000)%nat) ->
  (String.length (pages_text pages) < 5000)%nat ->
  (fuel + length pages = 6)%nat ->
  num_ltb pagesSampled (Fin 7) = true ->
  pdfText.read_pages fuel pdf pagesSampled (S (length pages)) (pages_text pages)
    (pages_items pages) = Normal (text, textItems) ->
  exists pages',
    (forall j items,
       pages' !! j = Some items ->
       doc_page pdf (S j) = Normal items
       /\ num_ltb pagesSampled (Fin (Z.of_nat (S j))) = false)
    /\ text = pages_text pages'
    /\ textItems = pages_items pages'
    /\ (forall k, (k < length pages')%nat ->
                  (String.length (pages_text (take k pages')) < 5000)%nat)
    /\ ((5000 <= String.length text)%nat
        \/ num_ltb pagesSampled (Fin (Z.of_nat (S (length pages')))) = true).
Proof.
  revert pages. induction fuel as [|fuel IH]; intros pages Hread Hshort Hnow Hfuel Hmax;
    cbn [pdfText.read_pages].
  { intros [= <- <-]. exists pages. do 4 (split; [done|]). right.
    assert (length pages = 6)%nat as -> by lia. exact Hmax. }
  destruct (num_ltb pagesSampled (Fin (Z.of_nat (S (length pages))))) eqn:Hmore.
  { intros [= <- <-]. exists pages. do 4 (split; [done|]). by right. }
  destruct (doc_page pdf (S (length pages))) as [items|error] eqn:Hpage;
    cbn -[Nat.leb pdfText.read_pages]; [|done].
  assert (Hread' : forall j items',
            (pages ++ [items]) !! j = Some items' ->
            doc_page pdf (S j) = Normal items'
            /\ num_ltb pagesSampled (Fin (Z.of_nat (S j))) = false).
  { intros j items' [Hj | [Hle [Hz <-]%list_lookup_singleton_Some]]%lookup_app_Some.
    - by apply Hread.
    - assert (j = length pages) as -> by lia. done. }
  assert (Hshort' : forall k, (k < length (pages ++ [items]))%nat ->
            (String.length (pages_text (take k (pages ++ [items]))) < 5000)%nat).
  { intros k Hk. rewrite length_app in Hk. simpl in Hk.
    destruct (decide (k < length pages)%nat) as [Hlt | Hge].
    - rewrite take_app_le by lia. by apply Hshort.
    - assert (k = length pages) as -> by lia.
      rewrite take_app_length. done. }
  rewrite <- pages_text_snoc, <- pages_items_snoc.
  destruct (5000 <=? String.length (pages_text (pages ++ [items])))%nat eqn:Hstop.
  { intros [= <- <-]. exists (pages ++ [items]). do 4 (split; [done|]). left.
    by apply Nat.leb_le. }
  apply Nat.leb_gt in Hstop.
  replace (S (S (length pages))) with (S (length (pages ++ [items])))
    by (rewrite length_app; simpl; lia).
  apply IH; try done. rewrite length_app. simpl. lia.
Qed.

(** X22.  What [extractPdfText] reports.  An answer comes from a
    document that [getDocument] delivered; [pagesSampled] is the smaller
    of the number of pages and 6, also when the loop stopped earlier; the
    text is made of the pages 1, 2, ... in order, one line per page with
    the non-empty strings of its items separated by spaces, up to the
    first page with which it reached 5000 characters or to the last
    sampled page; [chars] is its length, and [textItems] counts all the
    items of the pages read, those without text too. *)
Theorem extraction_samples_the_first_pages
    (getDocument : string -> Completion PdfDocument) (buffer : string)
    (r : PdfTextResult) :
  pdfText.extractPdfText getDocument buffer = Normal r ->
  exists pdf pages, getDocument buffer = Normal pdf /\ samples pdf pages r.
Proof.
  unfold pdfText.extractPdfText.
  destruct (getDocument buffer) as [pdf|error];
    cbn -[pdfText.read_pages pdfText.min_6 pdfText.or_zero]; [|done].
  destruct (pdfText.read_pages 6 pdf (pdfText.min_6 (pdfText.or_zero (doc_numPages pdf)))
              1 EmptyString 0) as [[text textItems]|error]
    eqn:Hloop; cbn -[pdfText.min_6 pdfText.or_zero]; [|done].
  intros [= <-]. exists pdf.
  destruct (read_pages_samples 6 pdf (pdfText.min_6 (pdfText.or_zero (doc_numPages pdf)))
              [] text textItems) as (pages & Hread & -> & -> & Hshort & Hstop); try done.
  - intros k Hk. simpl in Hk. lia.
  - simpl. lia.
  - apply min_6_bound.
  - exists pages. split; [done|]. unfold samples. cbn [pt_numPages pt_pagesSampled pt_text
      pt_chars pt_textItems]. do 7 (split; [done|]). done.
Qed.

Lemma extraction_samples_the_first_pages_witness :
  exists r pages,
    pdfText.extractPdfText (fun _ => Normal two_page_document) "%PDF" = Normal r
    /\ pt_text r = "Warranty Deed" +:+ line_feed +:+ "Parcel 12" +:+ line_feed
    /\ pt_textItems r = Fin 4
    /\ samples two_page_document pages r.
Proof.
  eexists.
  assert (Hr : pdfText.extractPdfText (fun _ => Normal two_page_document) "%PDF"
               = Normal {| pt_text := "Warranty Deed" +:+ line_feed +:+ "Parcel 12"
                                      +:+ line_feed;
                           pt_numPages := Fin 2;
                           pt_pagesSampled := Fin 2;
                           pt_chars := Fin 24;
                           pt_textItems := Fin 4 |}) by (vm_compute; reflexivity).
  destruct (extraction_samples_the_first_pages _ _ _ Hr) as (pdf & pages & [= <-] & Hs).
  exists pages. split; [exact Hr|]. split; [reflexivity|]. split; [reflexivity|]. exact Hs.
Defined.

Lemma read_pages_total fuel pdf pagesSampled i text textItems :
  (forall j, (i <= j)%nat -> num_ltb pagesSampled (Fin (Z.of_nat j)) = false ->
             exists items, doc_page pdf j = Normal items) ->
  exists result,
    pdfText.read_pages fuel pdf pagesSampled i text textItems = Normal result.
Proof.
  revert i text textItems.
  induction fuel as [|fuel IH]; intros i text textItems Hpages; cbn [pdfText.read_pages].
  { by eexists. }
  destruct (num_ltb pagesSampled _) eqn:Hmore; [by eexists|].
  destruct (Hpages i (le_n i) Hmore) as [items ->]. cbn -[Nat.leb pdfText.read_pages].
  destruct (_ <=? _)%nat; [by eexists|]. apply IH.
  intros j Hj. apply Hpages. lia.
Qed.

Lemma pages_without_text_length pdf pages :
  (forall j items, pages !! j = Some items ->
                   doc_page pdf (S j) = Normal items /\ page_without_text pdf (S j)) ->
  String.length (pages_text pages) = length pages.
Proof.
  revert pdf. induction pages as [|items pages IH] using rev_ind; intros pdf H; [done|].
  rewrite pages_text_snoc, length_app.
  assert (Hlen : forall a b, String.length (a +:+ b) = (String.length a + String.length b)%nat).
  { intros a b. induction a as [|c a IHa]; [done|].
    change (String c a +:+ b) with (String c (a +:+ b)). simpl. by rewrite IHa. }
  rewrite Hlen, (IH pdf).
  - destruct (H (length pages) items) as [Hitems (items' & Hitems' & Hnone)].
    { by rewrite list_lookup_middle. }
    rewrite Hitems in Hitems'. injection Hitems' as <-.
    unfold pdfText.page_text. rewrite Hnone. done.
  - intros j items' Hj. apply H. by apply lookup_app_l_Some.
Qed.

(** X23.  A PDF without text is sent to review as a likely scan.  When
    the document has at least one page, each of its first six pages (all
    of its pages when it has fewer) is delivered and has no item with a
    non-empty string, the minimum of characters is above 6 and no filename
    rule gives a category, the worker records a review entry with
    candidate [Unknown], score 0 and a reason that starts with
    [likely_scanned_pdf], and registers its digest.  Nothing is assumed of
    the other pages, which [getPage] may refuse. *)
Theorem pdf_without_text_goes_to_review
    (getDocument : string -> Completion PdfDocument)
    (compiledConfig : CompiledScheduleConfig) (scanThresholds : ScannedDetectionThresholds)
    (item : SelectedFile) (index : nat) (hash : string) (store : Store)
    (pdf : PdfDocument) :
  getDocument (sf_bytes item) = Normal pdf ->
  num_ltb (Fin 0) (doc_numPages pdf) = true ->
  (forall i, sampled_page pdf i -> page_without_text pdf i) ->
  num_ltb (Fin 6) (minChars scanThresholds) = true ->
  truthy_match (applyFilenameRules (normalizeText (sf_name item)) compiledConfig) = None ->
  exists e,
    resume_extract (pdfText.extractPdfText getDocument) compiledConfig scanThresholds
      item index hash store = push e (Some hash) store
    /\ pf_decision e = Review
    /\ pf_candidate e = Some "Unknown"
    /\ pf_score e = Fin 0
    /\ String.prefix "likely_scanned_pdf" (pf_reason e) = true
    /\ pf_hash e = hash.
Proof.
  intros Hdoc Hpages Hblank Hmin Hrule.
  set (pagesSampled := pdfText.min_6 (pdfText.or_zero (doc_numPages pdf))).
  destruct (read_pages_total 6 pdf pagesSampled 1 EmptyString 0) as [[txt textItems] Hloop].
  { intros j Hj Hsampled. destruct (Hblank j) as (items & ? & _); [by split|].
    by exists items. }
  destruct (read_pages_samples 6 pdf pagesSampled [] txt textItems)
    as (pages & Hread & Htext & Hitems & _ & _); try done.
  { intros k Hk. simpl in Hk. lia. }
  { simpl. lia. }
  { apply min_6_bound. }
  assert (Hsampled : num_ltb (Fin 0) pagesSampled = true).
  { subst pagesSampled. unfold pdfText.min_6, pdfText.or_zero.
    destruct (doc_numPages pdf) as [|[]|z]; try done.
    destruct z; try done. simpl. by destruct (6 <? Z.pos p). }
  assert (Hlength : String.length txt = length pages).
  { rewrite Htext. apply (pages_without_text_length pdf). intros j items Hj.
    destruct (Hread j items Hj) as [Hpage Hwithin].
    split; [exact Hpage|]. apply Hblank. split; [lia | exact Hwithin]. }
  assert (Hfew : (length pages <= 6)%nat).
  { destruct pages as [|p pages] using rev_ind; [simpl; lia|].
    destruct (Hread (length pages) p) as [_ Hlast]; [by rewrite list_lookup_middle|].
    pose proof (min_6_bound (doc_numPages pdf)) as Hmax. fold pagesSampled in Hmax.
    rewrite length_app. simpl.
    destruct pagesSampled as [|[]|z]; try done. simpl in Hlast, Hmax.
    apply Z.ltb_ge in Hlast. apply Z.ltb_lt in Hmax. lia. }
  assert (Hchars : num_ltb (Fin (Z.of_nat (String.length txt))) (minChars scanThresholds)
                   = true).
  { rewrite Hlength. destruct (minChars scanThresholds) as [|[]|m]; try done.
    simpl in *. apply Z.ltb_lt in Hmin. apply Z.ltb_lt. lia. }
  unfold resume_extract, pdfText.extractPdfText. rewrite Hdoc.
  cbn -[pdfText.read_pages pdfText.min_6 pdfText.or_zero classify_and_record].
  fold pagesSampled. rewrite Hloop.
  cbn -[pdfText.min_6 pdfText.or_zero classify_and_record].
  unfold classify_and_record, classifyDocument.
  cbn [filename config text isPdf pdfMetrics scannedThresholds fmap option_fmap option_map].
  rewrite Hrule.
  unfold scanned_check.
  cbn [isPdf pdfMetrics scannedThresholds scan_metrics pm_pagesSampled pm_chars
       pm_textItems pt_pagesSampled pt_chars pt_textItems].
  fold pagesSampled. rewrite Hsampled, Hchars. cbn [orb].
  eexists. split; [reflexivity|]. cbn. done.
Qed.

Lemma pdf_without_text_goes_to_review_witness :
  exists e,
    resume_extract (pdfText.extractPdfText (fun _ => Normal (scanned_document 8)))
      sample_config default_thresholds scan_pdf 0 "sha256-of-scan"
      {| processed := []; seenHashes := ∅ |}
    = push e (Some "sha256-of-scan") {| processed := []; seenHashes := ∅ |}
    /\ pf_decision e = Review
    /\ pf_candidate e = Some "Unknown"
    /\ pf_score e = Fin 0
    /\ String.prefix "likely_scanned_pdf" (pf_reason e) = true
    /\ pf_hash e = "sha256-of-scan".
Proof.
  apply (pdf_without_text_goes_to_review (fun _ => Normal (scanned_document 8))
           sample_config default_thresholds scan_pdf 0 "sha256-of-scan"
           {| processed := []; seenHashes := ∅ |} (scanned_document 8)).
  - reflexivity.
  - reflexivity.
  - intros i [Hfirst Hlast]. simpl in Hlast. apply Z.ltb_ge in Hlast.
    exists []. split; [|reflexivity]. cbn [scanned_document doc_page].
    destruct (Nat.leb_spec 1 i), (Nat.leb_spec i 8); (done || lia).
  - reflexivity.
  - reflexivity.
Defined.

(** The text layer of that scan: six line feeds, and no item. *)
Example scan_of_eight_pages :
  pdfText.extractPdfText (fun _ => Normal (scanned_document 8)) "%PDF image"
  = Normal {| pt_text := str (replicate 6 (ascii_of_N 10));
              pt_numPages := Fin 8;
              pt_pagesSampled := Fin 6;
              pt_chars := Fin 6;
              pt_textItems := Fin 0 |}.
Proof. vm_compute. reflexivity. Qed.

(** ** The review views *)

Section EntryInvariant.
Variable hashArrayBuffer : string -> Completion string.
Variable extractPdfText : string -> Completion PdfTextResult.
Variable compiledConfig : CompiledScheduleConfig.
Variable scanThresholds : ScannedDetectionThresholds.
Variable reviewOverrides : gmap string string.
Variable selectedFiles : list SelectedFile.
Variable concurrency : nat.

(** A property of entries that each way of making an entry gives. *)
Variable Q : ProcessedFile -> Prop.
Hypothesis Q_duplicate : forall item hash kept,
  Q kept -> Q (duplicateEntry item hash (Some kept)).
Hypothesis Q_override : forall item hash scheduleId,
  Q (overrideEntry compiledConfig item hash scheduleId).
Hypothesis Q_error : forall item hash reason, Q (errorEntry item hash reason).
Hypothesis Q_classified : forall item hash text pdfMetrics options r,
  classifyDocument options = Normal r -> Q (classifiedEntry item hash text pdfMetrics r).

#[local] Abbreviation all_Q store :=
  (Forall Q (processed store) /\ map_Forall (fun _ e => Q e) (seenHashes store)).

Lemma push_Q entry register store : all_Q store -> Q entry -> all_Q (push entry register store).
Proof.
  intros [Hp Hs] He. unfold push. split; simpl.
  - apply Forall_app. split; [done | by constructor].
  - destruct register as [hash|]; [|done]. by apply map_Forall_insert_2.
Qed.

Lemma classify_and_record_Q item index hash text pdf pdfMetrics store :
  all_Q store ->
  all_Q (classify_and_record compiledConfig scanThresholds item index hash text pdf
           pdfMetrics store).
Proof.
  intros Hs. unfold classify_and_record.
  destruct (classifyDocument _) as [r|e] eqn:Hr.
  - apply push_Q; [done|]. by eapply Q_classified.
  - unfold fallback. by apply push_Q.
Qed.

Lemma resume_hash_Q item index store :
  all_Q store ->
  all_Q (fst (resume_hash hashArrayBuffer compiledConfig scanThresholds reviewOverrides
                item index store)).
Proof.
  intros Hs. unfold resume_hash.
  destruct (hashArrayBuffer _) as [hash|e]; [|unfold fallback; by apply push_Q].
  destruct (decide (is_Some (seenHashes store !! hash))) as [[kept Hkept]|Hnew].
  { cbn [fst]. apply push_Q; [done|]. rewrite Hkept. apply Q_duplicate.
    destruct Hs as [_ Hseen]. exact (Hseen hash kept Hkept). }
  destruct (truthy_match _) as [overrideSchedule|].
  { cbn [fst]. by apply push_Q. }
  destruct (isPdfFile _); [done|].
  cbn [fst]. by apply classify_and_record_Q.
Qed.

Lemma resume_extract_Q item index hash store :
  all_Q store ->
  all_Q (resume_extract extractPdfText compiledConfig scanThresholds item index hash store).
Proof.
  intros Hs. unfold resume_extract.
  destruct (extractPdfText _) as [m|e]; [by apply classify_and_record_Q|].
  by apply push_Q.
Qed.

#[local] Arguments set_task : simpl never.

Lemma run_Q events st st' :
  all_Q (rs_store st) ->
  run hashArrayBuffer extractPdfText compiledConfig scanThresholds reviewOverrides
    selectedFiles concurrency st events = Some st' ->
  all_Q (rs_store st').
Proof.
  revert st. induction events as [|event events IH]; intros st Hs; cbn [run].
  { by intros [= <-]. }
  destruct (step _ _ _ _ _ _ _ st event) as [st1|] eqn:Hstep; simpl; [|done].
  apply IH. clear IH. destruct event as [index|]; [|by injection Hstep as <-].
  cbn [step] in Hstep.
  destruct (selectedFiles !! index) as [item|]; simpl in Hstep; [|done].
  destruct (rs_tasks st !! index) as [task|]; simpl in Hstep; [|done].
  destruct task; try done.
  - injection Hstep as <-. by rewrite set_task_store.
  - pose proof (resume_hash_Q item index (rs_store st) Hs) as Hh.
    destruct (resume_hash _ _ _ _ _ _ _) as [store task'].
    injection Hstep as <-. by rewrite set_task_store.
  - injection Hstep as <-. rewrite set_task_store. by apply resume_extract_Q.
Qed.

Lemma run_entries_Q events st :
  run hashArrayBuffer extractPdfText compiledConfig scanThresholds reviewOverrides
    selectedFiles concurrency (initial selectedFiles concurrency) events = Some st ->
  Forall Q (processed (rs_store st)).
Proof.
  intros Hrun. apply run_Q in Hrun as [? _]; [done|].
  unfold initial. rewrite scheduleNext_store. simpl.
  split; [constructor | apply map_Forall_empty].
Qed.
End EntryInvariant.

Lemma classified_review options r :
  classifyDocument options = Normal r ->
  cr_decision r = review ->
  cr_candidate r = Some "Unknown" \/ cr_reason r = "low_confidence".
Proof.
  unfold classifyDocument.
  destruct (truthy_match _) as [m|]; [by intros [= <-]|].
  destruct (scanned_check _) as [m|]; [intros [= <-]; by left|].
  destruct (trim _); [intros [= <-]; by left|].
  destruct (array_sort _ _) as [|[best bestScore] rest]; [done|].
  destruct (_ || _); intros [= <-]; simpl; [by right | done].
Qed.

Lemma buildReviewClusters_items files :
  concat (map cl_items (buildReviewClusters files)) ≡ₚ files.
Proof.
  induction files as [|file files IH] using rev_ind; [done|].
  rewrite buildReviewClusters_snoc, cluster_step_items. by rewrite IH.
Qed.

Lemma filter_all {A} (P : A -> Prop) `{!forall x, Decision (P x)} (l : list A) :
  Forall P l -> filter P l = l.
Proof.
  induction 1 as [|x l Hx _ IH]; [done|]. by rewrite filter_cons, decide_True, IH.
Qed.

(** X24.  Every file that a run puts in review has the candidate
    [Unknown] or the reason [low_confidence].  Hence the cluster view
    leaves out no review file, each being in exactly one cluster, and the
    low-confidence filter, with an empty search, shows all the review
    files, the likely scans and the unreadable PDFs among them. *)
Theorem review_views_show_every_review_file
    (hashArrayBuffer : string -> Completion string)
    (extractPdfText : string -> Completion PdfTextResult)
    (compiledConfig : CompiledScheduleConfig) (scanThresholds : ScannedDetectionThresholds)
    (reviewOverrides : gmap string string) (selectedFiles : list SelectedFile)
    (concurrency : nat) (events : list Event) (files : list ProcessedFile) :
  handleRunSort hashArrayBuffer extractPdfText compiledConfig scanThresholds
    reviewOverrides selectedFiles concurrency events = Some files ->
  Forall review_is_unknown_or_unsure files
  /\ concat (map cl_items (reviewClusters files)) ≡ₚ reviewItems files
  /\ filteredReviewItems EmptyString FilterLowConfidence files = reviewItems files.
Proof.
  unfold handleRunSort. destruct (length _ =? 0)%nat; [done|].
  destruct (run _ _ _ _ _ _ _ _ events) as [st|] eqn:Hrun; simpl; [|done].
  destruct (resolved st); [|done]. intros [= <-].
  assert (Hall : Forall review_is_unknown_or_unsure
                   (assignOutputPaths (processed (rs_store st)))).
  { apply Forall_lookup. intros j e' Hj.
    destruct (assign_lookup _ _ _ Hj) as (e & He & ->).
    assert (He' : review_is_unknown_or_unsure e).
    { eapply (proj1 (Forall_lookup _ _)); [|exact He].
      eapply (run_entries_Q hashArrayBuffer extractPdfText compiledConfig scanThresholds
                reviewOverrides selectedFiles concurrency review_is_unknown_or_unsure);
        [| | | |exact Hrun].
      - intros item hash kept _ Hd. done.
      - intros item hash scheduleId Hd. done.
      - intros item hash reason _. by left.
      - intros item hash text pdfMetrics options r Hr Hd.
        apply (classified_review options r Hr). simpl in Hd. by destruct (cr_decision r). }
    exact He'. }
  split; [exact Hall|].
  set (files := assignOutputPaths (processed (rs_store st))) in *.
  assert (Hreview : Forall review_is_unknown_or_unsure (reviewItems files)).
  { apply Forall_forall. intros e [_ He]%list_elem_of_filter.
    by apply (proj1 (Forall_forall _ _) Hall). }
  assert (Hkeep : forall e, e ∈ reviewItems files ->
            pf_candidate e = Some "Unknown" \/ pf_reason e = "low_confidence").
  { intros e He. apply (proj1 (Forall_forall _ _) Hreview e He).
    by apply list_elem_of_filter in He as [? _]. }
  split.
  - unfold reviewClusters. rewrite buildReviewClusters_items.
    rewrite filter_all; [done|]. apply Forall_forall. intros e He.
    destruct (Hkeep e He) as [-> | ->]; [done|]. apply orb_true_r.
  - unfold filteredReviewItems. apply filter_all. apply Forall_forall. intros e He.
    change (String.eqb EmptyString EmptyString) with true. cbn [negb].
    destruct (Hkeep e He) as [-> | ->]; [apply orb_true_r | done].
Qed.

Lemma review_views_show_every_review_file_witness :
  exists files,
    sample_run three_files three_files_events = Some files
    /\ Forall review_is_unknown_or_unsure files
    /\ concat (map cl_items (reviewClusters files)) ≡ₚ reviewItems files
    /\ filteredReviewItems EmptyString FilterLowConfidence files = reviewItems files.
Proof.
  eexists. split; [vm_compute; reflexivity|].
  apply (review_views_show_every_review_file sample_digest sample_extract sample_config
           default_thresholds ∅ three_files 2 three_files_events).
  vm_compute. reflexivity.
Defined.

(** ** The CSV reports *)

Lemma read_double_quotes (v rest : list ascii) :
  (forall r, rest <> ascii_of_N 34 :: r) ->
  read_value (double_quotes v ++ ascii_of_N 34 :: rest) = Some (v, rest).
Proof.
  intros Hrest. induction v as [|a v IH]; cbn [double_quotes app].
  - cbn [read_value]. destruct (ascii_dec (ascii_of_N 34) (ascii_of_N 34)); [|done].
    destruct rest as [|c rest]; [done|].
    destruct (ascii_dec c (ascii_of_N 34)) as [->|]; [|done]. by destruct (Hrest rest).
  - destruct (ascii_dec a (ascii_of_N 34)) as [->|Ha].
    + cbn [read_value app].
      destruct (ascii_dec (ascii_of_N 34) (ascii_of_N 34)); [|done]. by rewrite IH.
    + cbn [read_value app]. destruct (ascii_dec a (ascii_of_N 34)); [done|]. by rewrite IH.
Qed.

Lemma csv_value_chars value :
  chars (csv_value value)
  = ascii_of_N 34 :: double_quotes (chars value) ++ [ascii_of_N 34].
Proof. unfold csv_value, quoted. by rewrite !chars_app, chars_str. Qed.

(** Two values followed by something other than a quote. *)
Lemma csv_value_peel v v' (rest rest' : list ascii) :
  (forall r, rest <> ascii_of_N 34 :: r) -> (forall r, rest' <> ascii_of_N 34 :: r) ->
  chars (csv_value v) ++ rest = chars (csv_value v') ++ rest' ->
  v = v' /\ rest = rest'.
Proof.
  intros Hrest Hrest'. rewrite !csv_value_chars. cbn [app].
  rewrite <- !app_assoc. cbn [app]. intros [= H].
  change (ascii_of_pos 34) with (ascii_of_N 34) in H.
  pose proof (read_double_quotes (chars v) rest Hrest) as Hv.
  rewrite H, (read_double_quotes (chars v') rest' Hrest') in Hv.
  injection Hv as Hv ->. split; [|done]. by apply chars_inj.
Qed.

Lemma row_chars_cons value row :
  row_chars (value :: row)
  = chars (csv_value value)
    ++ match row with [] => [] | _ :: _ => ","%char :: row_chars row end.
Proof. destruct row; cbn [row_chars]; [by rewrite app_nil_r | done]. Qed.

Lemma row_chars_concat row : chars (String.concat "," (map csv_value row)) = row_chars row.
Proof.
  induction row as [|value row IH]; [done|]. rewrite row_chars_cons.
  destruct row as [|value' row]; [by rewrite app_nil_r|].
  change (String.concat "," (map csv_value (value :: value' :: row)))
    with (csv_value value +:+ "," +:+ String.concat "," (map csv_value (value' :: row))).
  by rewrite !chars_app, IH.
Qed.

Lemma buildCsv_chars row rows :
  chars (buildCsv (row :: rows)) = row_chars row ++ more_rows rows.
Proof.
  unfold buildCsv. revert row. induction rows as [|row' rows IH]; intros row.
  - cbn [map String.concat more_rows]. by rewrite row_chars_concat, app_nil_r.
  - change (String.concat line_feed
              (map (fun row => String.concat "," (map csv_value row)) (row :: row' :: rows)))
      with (String.concat "," (map csv_value row) +:+ line_feed
            +:+ String.concat line_feed
                  (map (fun row => String.concat "," (map csv_value row)) (row' :: rows))).
    rewrite !chars_app, row_chars_concat, IH. done.
Qed.

Lemma more_rows_start rows r : more_rows rows <> ascii_of_N 34 :: r.
Proof. by destruct rows. Qed.

Lemma row_chars_start value row : exists r, row_chars (value :: row) = ascii_of_N 34 :: r.
Proof. rewrite row_chars_cons, csv_value_chars. by eexists. Qed.

Lemma row_chars_inj rows :
  (forall rows', Forall (fun row => row <> []) rows' ->
                 more_rows rows = more_rows rows' -> rows = rows') ->
  forall row row' rows',
    row <> [] -> row' <> [] -> Forall (fun row => row <> []) rows' ->
    row_chars row ++ more_rows rows = row_chars row' ++ more_rows rows' ->
    row = row' /\ rows = rows'.
Proof.
  intros Hrows. induction row as [|v vs IH]; intros row' rows' Hne Hne' Hall; [done|].
  destruct row' as [|v' vs']; [done|]. rewrite !row_chars_cons, <- !app_assoc.
  intros H. apply csv_value_peel in H as [-> H].
  - destruct vs as [|w vs], vs' as [|w' vs']; cbn [app] in H.
    + by rewrite (Hrows rows' Hall H).
    + by destruct rows.
    + by destruct rows'.
    + injection H as H. destruct (IH (w' :: vs') rows') as [-> ->]; done.
  - intros r. destruct vs; [apply more_rows_start | done].
  - intros r. destruct vs'; [apply more_rows_start | done].
Qed.

Lemma more_rows_inj rows :
  Forall (fun row => row <> []) rows ->
  forall rows', Forall (fun row => row <> []) rows' ->
                more_rows rows = more_rows rows' -> rows = rows'.
Proof.
  induction 1 as [|row rows Hrow Hrows IH]; intros rows' Hall'.
  - by destruct rows'.
  - destruct Hall' as [|row' rows' Hrow' Hrows']; [done|].
    cbn [more_rows]. intros [= H].
    by destruct (row_chars_inj rows (IH) row row' rows' Hrow Hrow' Hrows' H) as [-> ->].
Qed.

(** X25.  The CSV reports can be read back: two tables without an empty
    row that [buildCsv] writes as the same text are the same table,
    whatever quotes, commas and line feeds the values contain. *)
Theorem csv_report_is_unambiguous (rows rows' : list (list string)) :
  Forall (fun row => row <> []) rows -> Forall (fun row => row <> []) rows' ->
  buildCsv rows = buildCsv rows' -> rows = rows'.
Proof.
  intros Hall Hall' H. apply (f_equal chars) in H.
  destruct Hall as [|row rows Hrow Hrows], Hall' as [|row' rows' Hrow' Hrows']; [done | | |].
  - rewrite buildCsv_chars in H. destruct row'; [done|].
    destruct (row_chars_start s row') as [r Hr]. rewrite Hr in H. done.
  - rewrite buildCsv_chars in H. destruct row; [done|].
    destruct (row_chars_start s row) as [r Hr]. rewrite Hr in H. done.
  - rewrite !buildCsv_chars in H.
    by destruct (row_chars_inj rows (more_rows_inj rows Hrows) row row' rows'
                   Hrow Hrow' Hrows' H) as [-> ->].
Qed.

Lemma csv_report_is_unambiguous_witness :
  [["name"; "output_path"; "schedule"]; awkward_row]
  = [["name"; "output_path"; "schedule"]; awkward_row].
Proof.
  apply (csv_report_is_unambiguous
           [["name"; "output_path"; "schedule"]; awkward_row]
           [["name"; "output_path"; "schedule"]; awkward_row]).
  - repeat constructor; discriminate.
  - repeat constructor; discriminate.
  - reflexivity.
Defined.

(** ** Output paths without collision *)

Lemma base_path_start file :
  exists c r, buildBaseOutputPath file = String c r /\ c <> "/"%char.
Proof.
  unfold buildBaseOutputPath. destruct (pf_decision file); eexists _, _; split;
    try reflexivity; done.
Qed.

Lemma ensureUniqueFilename_free name (usedNames : gset string) :
  name ∉ usedNames -> ensureUniqueFilename name usedNames = (name, {[name]} ∪ usedNames).
Proof. intros Hfree. unfold ensureUniqueFilename. by rewrite decide_False. Qed.

Lemma assign_loop_keeps_names (m : gmap string (gset string)) (seen : list string) files :
  (forall dir name, name ∈ default ∅ (m !! dir) -> dir +:+ "/" +:+ name ∈ seen) ->
  NoDup (seen ++ map buildBaseOutputPath files) ->
  map pf_outputPath (assign_loop m files) = map buildBaseOutputPath files.
Proof.
  revert m seen. induction files as [|file files IH]; intros m seen Hm Hnd; [done|].
  cbn [assign_loop map].
  destruct (assign_one_step m file) as (dir & filename & Hbase & Hslash & Hpath & Hmap).
  destruct (assign_one m file) as [m' file']. cbn [fst snd] in *.
  assert (Hfree : filename ∉ default ∅ (m !! dir)).
  { intros Hused. apply Hm in Hused. rewrite <- Hbase in Hused.
    apply NoDup_app in Hnd as (_ & Hnd & _). apply (Hnd _ Hused). left. }
  rewrite (ensureUniqueFilename_free _ _ Hfree) in Hpath, Hmap. cbn [fst snd] in *.
  assert (Hdir : path_in dir filename = buildBaseOutputPath file).
  { rewrite Hbase. unfold path_in. destruct dir as [|c dir]; [|done].
    destruct (base_path_start file) as (c & r & Hstart & Hc). rewrite Hbase in Hstart.
    injection Hstart as <- _. done. }
  simpl. rewrite Hpath, Hdir. f_equal.
  apply (IH m' (seen ++ [buildBaseOutputPath file])).
  - intros dir' name. rewrite Hmap. destruct (decide (dir' = dir)) as [->|Hne].
    + rewrite lookup_insert_eq. simpl.
      intros [->%elem_of_singleton | Hold]%elem_of_union; apply elem_of_app.
      * right. rewrite Hbase. left.
      * left. by apply Hm.
    + rewrite lookup_insert_ne by done. intros Hold. apply elem_of_app. left. by apply Hm.
  - by rewrite <- app_assoc.
Qed.

(** X26.  Names change on collision only: when the base paths of the
    files are pairwise distinct, every file gets exactly its base path. *)
Theorem distinct_base_paths_are_kept (files : list ProcessedFile) :
  NoDup (map buildBaseOutputPath files) ->
  map pf_outputPath (assignOutputPaths files) = map buildBaseOutputPath files.
Proof.
  intros Hnd. apply (assign_loop_keeps_names ∅ []); [|done].
  intros dir name. rewrite lookup_empty. simpl. by intros ?%elem_of_empty.
Qed.

Lemma distinct_base_paths_are_kept_witness :
  map pf_outputPath
    (assignOutputPaths [blank_file "deed.pdf" Assigned (Some "A_Real_Estate");
                        duplicate_copy "deed.pdf"])
  = ["706/A_Real_Estate/deed.pdf"; "DUPLICATES/0123456789/deed.pdf"].
Proof.
  apply (distinct_base_paths_are_kept
           [blank_file "deed.pdf" Assigned (Some "A_Real_Estate");
            duplicate_copy "deed.pdf"]).
  apply (bool_decide_unpack _). vm_compute. exact I.
Defined.

Lemma duplicates_share_their_digest_witness :
  exists st,
    run sample_digest sample_extract sample_config default_thresholds ∅ three_files 2
      (initial three_files 2) three_files_events = Some st
    /\ exists order,
         NoDup order
         /\ Forall2 (made_for sample_digest three_files) (processed (rs_store st)) order.
Proof.
  eexists. split; [vm_compute; reflexivity|].
  apply (duplicates_share_their_digest sample_digest sample_extract sample_config
           default_thresholds ∅ three_files 2 three_files_events).
  vm_compute. reflexivity.
Defined.

(** ** When classification fails *)

Lemma fill_scores_empty value schedules (o : JsObject number) :
  fill_scores value schedules o = []
  <-> o = [] /\ Forall (fun s => sd_id s = "__proto__") schedules.
Proof.
  unfold fill_scores. revert o.
  induction schedules as [|s schedules IH]; intros o; cbn [fold_left].
  { split; [intros ->; by split | by intros [-> _]]. }
  rewrite IH, Forall_cons.
  assert (Hset : obj_set o (sd_id s) (value s) = [] <-> o = [] /\ sd_id s = "__proto__").
  { pose proof (keys_obj_set o (sd_id s) (value s)) as Hkeys. split.
    - intros Hnil. rewrite Hnil in Hkeys. case_decide as Hcase.
      + destruct o; [|done]. split; [done|].
        destruct Hcase as [? | Hin]; [done | by apply elem_of_nil in Hin].
      + symmetry in Hkeys. by apply app_eq_nil in Hkeys as [_ ?].
    - intros [-> Hp]. unfold obj_set. rewrite Hp. done. }
  rewrite Hset. tauto.
Qed.

(** X28.  [classifyDocument] throws in one situation only: no filename
    rule gives a category, the scanned check is silent, the text is not
    blank, and no category can be entered in the score vector, because
    none is configured or every identifier is [__proto__].  In every
    other case it answers. *)
Theorem classification_fails_exactly_when (options : ClassifyOptions) :
  (exists error, classifyDocument options = Throw error)
  <-> truthy_match
        (applyFilenameRules (normalizeText (filename options)) (config options)) = None
      /\ scanned_check options = None
      /\ trim (chars (text options)) <> []
      /\ Forall (fun s => sd_id s = "__proto__") (cc_schedules (config options)).
Proof.
  unfold classifyDocument.
  destruct (truthy_match _) as [m|].
  { split; [by intros [? ?] | by intros [? _]]. }
  destruct (scanned_check options) as [m|].
  { split; [by intros [? ?] | by intros (_ & ? & _)]. }
  destruct (trim (chars (text options))) as [|c rest].
  { split; [by intros [? ?] | by intros (_ & _ & ? & _)]. }
  set (scores := fill_scores (scoreSchedule (text options))
                   (cc_schedules (config options)) []).
  assert (Hempty : array_sort by_score_desc (obj_entries scores) = []
                   <-> Forall (fun s => sd_id s = "__proto__")
                         (cc_schedules (config options))).
  { rewrite <- (Permutation_nil_r (array_sort by_score_desc (obj_entries scores))).
    rewrite array_sort_perm, obj_entries_perm, Permutation_nil_r.
    subst scores. rewrite fill_scores_empty. tauto. }
  destruct (array_sort by_score_desc (obj_entries scores)) as [|[best bestScore] sorted].
  - split; [intros _ | by eexists]. do 3 (split; [done|]). by apply Hempty.
  - split.
    + intros [error Herror]. by destruct (_ || _).
    + intros (_ & _ & _ & Hall). by apply Hempty in Hall.
Qed.
